(** * Verification of the configuration formatter and the secret scanner

    Shallow embedding of [scripts/check-secrets.ts] and [scripts/format.ts].

    A JavaScript string is a finite sequence of UTF-16 code units; it is
    modelled as a list of code units, each an [N].  The primitives of the
    JavaScript runtime the scripts call ([slice], [repeat], [trim],
    [split], [includes], ...) are written out in [Module JS] following
    ECMA-262; the functions of the two scripts follow in [Module Secrets]
    and [Module Format] under the names they have in the source. *)

From Stdlib Require Import String Ascii.
From Stdlib Require Import List ZArith NArith Lia Bool Arith.
From Stdlib Require DecimalFacts DecimalPos DecimalZ.
Import ListNotations.

(** * Part I: the programs *)

(** ** The JavaScript string primitives *)

Module JS.

Definition char := N.
Definition jsstring := list char.

(** A string literal of the source, as code units. *)
Definition str (s : string) : jsstring :=
  List.map N_of_ascii (list_ascii_of_string s).

Definition ch (a : ascii) : char := N_of_ascii a.

Definition len (s : jsstring) : Z := Z.of_nat (List.length s).

Definition eqb (a b : jsstring) : bool :=
  if list_eq_dec N.eq_dec a b then true else false.

Definition LF : char := 10%N.
Definition CR : char := 13%N.

(** The code units of WhiteSpace and LineTerminator: what [trim] strips
    and what [\s] matches. *)
Definition isWhiteSpace (c : char) : bool :=
  existsb (N.eqb c)
    [9; 10; 11; 12; 13; 32; 160; 5760; 8232; 8233; 8239; 8287; 12288; 65279]%N
  || ((8192 <=? c) && (c <=? 8202))%N.

(** The code units [.] does not match: LF, CR, U+2028 and U+2029. *)
Definition isLineTerminator (c : char) : bool :=
  existsb (N.eqb c) [10; 13; 8232; 8233]%N.

(** [s.slice(start, end)]; [None] for an omitted [end].  Negative indices
    count from the end, and both are clamped to [0 .. s.length]. *)
Definition clampIndex (l i : Z) : Z :=
  if (i <? 0)%Z then Z.max (l + i) 0 else Z.min i l.

Definition slice (s : jsstring) (start : Z) (end_ : option Z) : jsstring :=
  let l := len s in
  let from := clampIndex l start in
  let to := match end_ with Some e => clampIndex l e | None => l end in
  let span := Z.max (to - from) 0 in
  firstn (Z.to_nat span) (skipn (Z.to_nat from) s).

(** [s.repeat(count)] for a count that is a natural number. *)
Definition repeatN (s : jsstring) (count : nat) : jsstring :=
  List.concat (List.repeat s count).

(** [s.repeat(count)]: a negative count raises a RangeError. *)
Definition repeat (s : jsstring) (count : Z) : option jsstring :=
  if (count <? 0)%Z then None else Some (repeatN s (Z.to_nat count)).

Fixpoint dropWhile (p : char -> bool) (s : jsstring) : jsstring :=
  match s with
  | [] => []
  | c :: s' => if p c then dropWhile p s' else s
  end.

Definition trimStart (s : jsstring) : jsstring := dropWhile isWhiteSpace s.
Definition trimEnd (s : jsstring) : jsstring :=
  rev (dropWhile isWhiteSpace (rev s)).
Definition trim (s : jsstring) : jsstring := trimEnd (trimStart s).

(** [s.startsWith(p)], [s.endsWith(p)] and [s.includes(p)]. *)
Fixpoint startsWith (s p : jsstring) {struct p} : bool :=
  match p, s with
  | [], _ => true
  | _ :: _, [] => false
  | c :: p', d :: s' => (c =? d)%N && startsWith s' p'
  end.

Definition endsWith (s p : jsstring) : bool := startsWith (rev s) (rev p).

Fixpoint includes (s p : jsstring) : bool :=
  startsWith s p
  || match s with
     | [] => false
     | _ :: s' => includes s' p
     end.

(** [s.split(sep)] for a separator of one code unit. *)
Fixpoint split (sep : char) (s : jsstring) : list jsstring :=
  match s with
  | [] => [[]]
  | c :: s' =>
      if (c =? sep)%N then [] :: split sep s'
      else match split sep s' with
           | h :: t => (c :: h) :: t
           | [] => [[c]]
           end
  end.

(** [s.split(/\r?\n/)]: a line ends at LF or at CR LF. *)
Fixpoint splitLines (s : jsstring) : list jsstring :=
  match s with
  | [] => [[]]
  | c :: s' =>
      if (c =? LF)%N then [] :: splitLines s'
      else if (c =? CR)%N && startsWith s' [LF] then splitLines s'
      else match splitLines s' with
           | h :: t => (c :: h) :: t
           | [] => [[c]]
           end
  end.

(** [parts.join(sep)]. *)
Fixpoint join (sep : jsstring) (parts : list jsstring) : jsstring :=
  match parts with
  | [] => []
  | [x] => x
  | x :: rest => x ++ sep ++ join sep rest
  end.

(** [s.replace(/pat/g, rep)] for a pattern that is a literal, non-empty
    text: the occurrences are replaced from left to right, without
    overlap.  [skip] counts the code units of an occurrence still to be
    passed over. *)
Fixpoint replaceAllFrom (pat rep : jsstring) (skip : nat) (s : jsstring)
  : jsstring :=
  match s with
  | [] => []
  | c :: s' =>
      match skip with
      | S k => replaceAllFrom pat rep k s'
      | O =>
          if startsWith s pat
          then rep ++ replaceAllFrom pat rep (List.length pat - 1) s'
          else c :: replaceAllFrom pat rep 0 s'
      end
  end.

Definition replaceAll (pat rep s : jsstring) : jsstring :=
  replaceAllFrom pat rep 0 s.

End JS.

Import JS.

(** ** The host: what the scripts take from the runtime

    [toLowerCase] follows the Unicode case mappings and the regular
    expressions are compiled by the engine; both are taken as an interface,
    as are the functions of [node:path].  A compiled regular expression is
    seen through [exec]: from the subject and [lastIndex] it gives the index
    and the text of the next match, or nothing. *)

Module Host.

Definition RegExp := jsstring -> nat -> option (nat * jsstring).

Class Runtime := {
  toLowerCase : jsstring -> jsstring;
  (** [new RegExp(source)]; [None] when the source raises a SyntaxError. *)
  RegExp_new : jsstring -> option RegExp;
  path_join : jsstring -> jsstring -> jsstring;
  path_relative : jsstring -> jsstring -> jsstring;
  path_extname : jsstring -> jsstring
}.

(** [regex.test(s)] of an expression without the [g] flag. *)
Definition test (regex : RegExp) (s : jsstring) : bool :=
  match regex s 0%nat with
  | Some _ => true
  | None => false
  end.

End Host.

Import Host.

(** ** A backtracking matcher, for running the scanner on examples

    The fragment of the regular expressions the built-in patterns use:
    classes, sequence, alternation, greedy repetition and the two anchors.
    [bt r pos s k] matches [r] at the head of [s], the code units from index
    [pos] on, and hands the end index and the rest to [k]. *)

Module Regex.

Inductive regex :=
| Eps
| Chr (p : char -> bool)
| Seq (a b : regex)
| Alt (a b : regex)
| Star (a : regex)
| Bol
| Eol.

Fixpoint bt (r : regex) (pos : nat) (s : jsstring)
  (k : nat -> jsstring -> option nat) {struct r} : option nat :=
  match r with
  | Eps => k pos s
  | Chr p =>
      match s with
      | c :: s' => if p c then k (S pos) s' else None
      | [] => None
      end
  | Seq a b => bt a pos s (fun pos' s' => bt b pos' s' k)
  | Alt a b =>
      match bt a pos s k with
      | Some e => Some e
      | None => bt b pos s k
      end
  | Star a =>
      (fix star (n : nat) (pos : nat) (s : jsstring) {struct n} : option nat :=
         match n with
         | O => k pos s
         | S n' =>
             match bt a pos s
                     (fun pos' s' =>
                        if (pos <? pos')%nat then star n' pos' s' else None)
             with
             | Some e => Some e
             | None => k pos s
             end
         end) (List.length s) pos s
  | Bol => if (pos =? 0)%nat then k pos s else None
  | Eol => match s with [] => k pos s | _ :: _ => None end
  end.

Definition matchAt (r : regex) (content : jsstring) (i : nat)
  : option (nat * jsstring) :=
  match bt r i (skipn i content) (fun e _ => Some e) with
  | Some e => Some (i, firstn (e - i) (skipn i content))
  | None => None
  end.

Fixpoint searchFrom (r : regex) (content : jsstring) (tries i : nat)
  : option (nat * jsstring) :=
  match matchAt r content i with
  | Some m => Some m
  | None =>
      match tries with
      | O => None
      | S tries' => searchFrom r content tries' (S i)
      end
  end.

Definition exec (r : regex) : RegExp :=
  fun content lastIndex =>
    if (List.length content <? lastIndex)%nat then None
    else searchFrom r content (List.length content - lastIndex) lastIndex.

(** Classes and derived forms. *)
Definition oneOf (s : string) : regex :=
  Chr (fun c => existsb (N.eqb c) (str s)).
Definition noneOf (s : string) : regex :=
  Chr (fun c => negb (existsb (N.eqb c) (str s))).
Definition space : regex := Chr isWhiteSpace.
Definition dot : regex := Chr (fun c => negb (isLineTerminator c)).
Definition opt (r : regex) : regex := Alt r Eps.
Definition word_ : regex :=
  Chr (fun c =>
         ((65 <=? c) && (c <=? 90) || (97 <=? c) && (c <=? 122)
          || (48 <=? c) && (c <=? 57) || (c =? 95) || (c =? 45))%N).

Fixpoint seq (rs : list regex) : regex :=
  match rs with
  | [] => Eps
  | [r] => r
  | r :: rs' => Seq r (seq rs')
  end.

Definition lit (s : string) : regex :=
  seq (List.map (fun c => Chr (N.eqb c)) (str s)).

Fixpoint atLeast (n : nat) (r : regex) : regex :=
  match n with
  | O => Star r
  | S n' => Seq r (atLeast n' r)
  end.

(** What an expression matches: at index [pos], [r] takes the code units
    [w] and leaves [rest]. *)
Inductive Den : regex -> nat -> jsstring -> jsstring -> Prop :=
| den_eps pos rest : Den Eps pos [] rest
| den_chr p c pos rest : p c = true -> Den (Chr p) pos [c] rest
| den_seq a b pos w1 w2 rest :
    Den a pos w1 (w2 ++ rest) ->
    Den b (pos + List.length w1) w2 rest ->
    Den (Seq a b) pos (w1 ++ w2) rest
| den_alt_l a b pos w rest : Den a pos w rest -> Den (Alt a b) pos w rest
| den_alt_r a b pos w rest : Den b pos w rest -> Den (Alt a b) pos w rest
| den_star_nil a pos rest : Den (Star a) pos [] rest
| den_star_cons a pos w1 w2 rest :
    Den a pos w1 (w2 ++ rest) ->
    Den (Star a) (pos + List.length w1) w2 rest ->
    Den (Star a) pos (w1 ++ w2) rest
| den_bol rest : Den Bol 0 [] rest
| den_eol pos : Den Eol pos [] [].

End Regex.


(** ** JSON.parse and JSON.stringify(value, null, 2)

    The two built-ins behind [Bun.file(path).json()] and [formatPureJSON],
    after ECMA-262 (JSON.parse, SerializeJSONProperty, QuoteJSONString) and
    the JSON grammar of ECMA-404.  A Number is an IEEE double: the type and
    its two conversions are an interface, [Numbers]. *)

Module JSON.

Class Numbers := {
  number : Type;
  (** the Number a JSON number token denotes *)
  StringToNumber : jsstring -> number;
  (** Number::toString(x, 10) *)
  NumberToString : number -> jsstring;
  isFinite : number -> bool
}.

Definition QUOTE : char := 34%N.
Definition BACKSLASH : char := 92%N.
Definition COMMA : char := 44%N.
Definition COLON : char := 58%N.

Definition isJSONWhiteSpace (c : char) : bool :=
  existsb (N.eqb c) [9; 10; 13; 32]%N.

Definition skipWs (s : jsstring) : jsstring := dropWhile isJSONWhiteSpace s.

Definition isDigit (c : char) : bool := ((48 <=? c) && (c <=? 57))%N.

Fixpoint takeWhile (p : char -> bool) (s : jsstring) : jsstring :=
  match s with
  | [] => []
  | c :: s' => if p c then c :: takeWhile p s' else []
  end.

(** *** Number tokens: [-? int frac? exp?] *)

Definition scanDigits (s : jsstring) : option (jsstring * jsstring) :=
  match takeWhile isDigit s with
  | [] => None
  | d => Some (d, dropWhile isDigit s)
  end.

Definition scanInt (s : jsstring) : option (jsstring * jsstring) :=
  match s with
  | [] => None
  | c :: s' =>
      if (c =? 48)%N then Some ([c], s')
      else if isDigit c
           then Some (c :: takeWhile isDigit s', dropWhile isDigit s')
           else None
  end.

Definition scanFrac (s : jsstring) : jsstring * jsstring :=
  match s with
  | [] => ([], s)
  | c :: s' =>
      if (c =? 46)%N
      then match scanDigits s' with
           | Some (d, r) => (c :: d, r)
           | None => ([], s)
           end
      else ([], s)
  end.

Definition scanSign (s : jsstring) : jsstring * jsstring :=
  match s with
  | [] => ([], s)
  | c :: s' => if ((c =? 43) || (c =? 45))%N then ([c], s') else ([], s)
  end.

Definition scanExp (s : jsstring) : jsstring * jsstring :=
  match s with
  | [] => ([], s)
  | c :: s' =>
      if ((c =? 101) || (c =? 69))%N
      then let (sg, s'') := scanSign s' in
           match scanDigits s'' with
           | Some (d, r) => (c :: sg ++ d, r)
           | None => ([], s)
           end
      else ([], s)
  end.

Definition scanMinus (s : jsstring) : jsstring * jsstring :=
  match s with
  | [] => ([], s)
  | c :: s' => if (c =? 45)%N then ([c], s') else ([], s)
  end.

Definition scanNumber (s : jsstring) : option (jsstring * jsstring) :=
  let (sg, s0) := scanMinus s in
  match scanInt s0 with
  | None => None
  | Some (i, s1) =>
      let (f, s2) := scanFrac s1 in
      let (e, s3) := scanExp s2 in
      Some (sg ++ i ++ f ++ e, s3)
  end.

Definition isNumberToken (tok : jsstring) : bool :=
  match scanNumber tok with
  | Some (t, []) => true
  | _ => false
  end.

(** *** Strings *)

Definition hexValue (c : char) : option N :=
  if isDigit c then Some (c - 48)%N
  else if ((97 <=? c) && (c <=? 102))%N then Some (c - 87)%N
  else if ((65 <=? c) && (c <=? 70))%N then Some (c - 55)%N
  else None.

Definition hex4Value (h1 h2 h3 h4 : char) : option N :=
  match hexValue h1, hexValue h2, hexValue h3, hexValue h4 with
  | Some a, Some b, Some c, Some d => Some (((a * 16 + b) * 16 + c) * 16 + d)%N
  | _, _, _, _ => None
  end.

(** The escapes: quote, backslash, solidus, then b f n r t. *)
Definition unescape (e : char) : option char :=
  if (e =? 34)%N then Some 34%N
  else if (e =? 92)%N then Some 92%N
  else if (e =? 47)%N then Some 47%N
  else if (e =? 98)%N then Some 8%N
  else if (e =? 102)%N then Some 12%N
  else if (e =? 110)%N then Some 10%N
  else if (e =? 114)%N then Some 13%N
  else if (e =? 116)%N then Some 9%N
  else None.

(** The characters of a string after its opening quote, up to and with the
    closing one. *)
Fixpoint parseChars (s : jsstring) : option (jsstring * jsstring) :=
  match s with
  | [] => None
  | c :: s1 =>
      if (c =? QUOTE)%N then Some ([], s1)
      else if (c =? BACKSLASH)%N then
        match s1 with
        | [] => None
        | e :: s2 =>
            if (e =? 117)%N then
              match s2 with
              | h1 :: h2 :: h3 :: h4 :: s3 =>
                  match hex4Value h1 h2 h3 h4 with
                  | Some u =>
                      match parseChars s3 with
                      | Some (t, r) => Some (u :: t, r)
                      | None => None
                      end
                  | None => None
                  end
              | _ => None
              end
            else
              match unescape e with
              | Some u =>
                  match parseChars s2 with
                  | Some (t, r) => Some (u :: t, r)
                  | None => None
                  end
              | None => None
              end
        end
      else if (c <? 32)%N then None
      else match parseChars s1 with
           | Some (t, r) => Some (c :: t, r)
           | None => None
           end
  end.

Definition hexDigit (d : N) : char := if (d <? 10)%N then (48 + d)%N else (87 + d)%N.

Definition hex4 (c : N) : jsstring :=
  [hexDigit ((c / 4096) mod 16); hexDigit ((c / 256) mod 16);
   hexDigit ((c / 16) mod 16); hexDigit (c mod 16)]%N.

Definition isLeadSurrogate (c : char) : bool := ((55296 <=? c) && (c <=? 56319))%N.
Definition isTrailSurrogate (c : char) : bool := ((56320 <=? c) && (c <=? 57343))%N.

(** One code point that is a single code unit, quoted. *)
Definition quoteUnit (c : char) : jsstring :=
  if (c =? 8)%N then str "\b"
  else if (c =? 9)%N then str "\t"
  else if (c =? 10)%N then str "\n"
  else if (c =? 12)%N then str "\f"
  else if (c =? 13)%N then str "\r"
  else if (c =? 34)%N then [BACKSLASH; QUOTE]
  else if (c =? 92)%N then [BACKSLASH; BACKSLASH]
  else if (c <? 32)%N || isLeadSurrogate c || isTrailSurrogate c
       then str "\u" ++ hex4 c
       else [c].

Fixpoint quoteChars (s : jsstring) : jsstring :=
  match s with
  | [] => []
  | c :: s1 =>
      match s1 with
      | d :: s2 =>
          if isLeadSurrogate c && isTrailSurrogate d
          then c :: d :: quoteChars s2
          else quoteUnit c ++ quoteChars s1
      | [] => quoteUnit c
      end
  end.

Definition QuoteJSONString (s : jsstring) : jsstring :=
  QUOTE :: quoteChars s ++ [QUOTE].

(** *** Property keys: array indices come first, in ascending order *)

Definition decimalValue (k : jsstring) : N :=
  fold_left (fun acc d => (acc * 10 + (d - 48))%N) k 0%N.

Definition arrayIndex (k : jsstring) : option N :=
  match k with
  | [] => None
  | c :: rest =>
      if forallb isDigit k
         && (negb (c =? 48)%N || match rest with [] => true | _ => false end)
         && (decimalValue k <? 4294967295)%N
      then Some (decimalValue k)
      else None
  end.

(** A text that cannot continue a number token. *)
Definition inert (rest : jsstring) : bool :=
  match rest with
  | [] => true
  | c :: _ =>
      negb (isDigit c
            || existsb (N.eqb c) [43; 45; 46; 69; 101]%N)
  end.

Section Values.
Context {NUM : Numbers}.

#[warnings="-register-all"] Inductive value :=
| VNull
| VBool (b : bool)
| VNumber (n : number)
| VString (s : jsstring)
| VArray (elements : list value)
| VObject (members : list (jsstring * value)).

(** CreateDataProperty on an ordinary object, whose own keys are listed in
    the order of OrdinaryOwnPropertyKeys: array indices ascending, then the
    other keys in the order of their creation.  An existing key keeps its
    place and takes the new value. *)
Fixpoint hasKey (k : jsstring) (o : list (jsstring * value)) : bool :=
  match o with
  | [] => false
  | (k', _) :: o' => JS.eqb k k' || hasKey k o'
  end.

Fixpoint setExisting (k : jsstring) (v : value) (o : list (jsstring * value))
  : list (jsstring * value) :=
  match o with
  | [] => []
  | (k', v') :: o' =>
      if JS.eqb k k' then (k', v) :: o' else (k', v') :: setExisting k v o'
  end.

Fixpoint insertIndex (i : N) (k : jsstring) (v : value)
  (o : list (jsstring * value)) : list (jsstring * value) :=
  match o with
  | [] => [(k, v)]
  | (k', v') :: o' =>
      match arrayIndex k' with
      | Some j =>
          if (j <? i)%N then (k', v') :: insertIndex i k v o'
          else (k, v) :: o
      | None => (k, v) :: o
      end
  end.

Definition CreateDataProperty (o : list (jsstring * value)) (k : jsstring)
  (v : value) : list (jsstring * value) :=
  if hasKey k o then setExisting k v o
  else match arrayIndex k with
       | Some i => insertIndex i k v o
       | None => o ++ [(k, v)]
       end.

(** *** JSON.parse

    A recursive-descent reading of the grammar; [fuel] bounds the depth of
    the calls and any [fuel] above twice the length of the text is enough
    ([FuelFacts.parse_fuel]).  [parseElements] and [parseMembers] start at an element and at a member
    name, white space skipped, and carry what the array or object holds so
    far. *)
Fixpoint parseValue (fuel : nat) (s : jsstring) {struct fuel}
  : option (value * jsstring) :=
  match fuel with
  | O => None
  | S fuel' =>
      match s with
      | [] => None
      | c :: s' =>
          if (c =? 123)%N then
            match skipWs s' with
            | [] => None
            | d :: s2 =>
                if (d =? 125)%N then Some (VObject [], s2)
                else parseMembers fuel' (d :: s2) []
            end
          else if (c =? 91)%N then
            match skipWs s' with
            | [] => None
            | d :: s2 =>
                if (d =? 93)%N then Some (VArray [], s2)
                else parseElements fuel' (d :: s2) []
            end
          else if (c =? QUOTE)%N then
            match parseChars s' with
            | Some (t, r) => Some (VString t, r)
            | None => None
            end
          else if startsWith s (str "true") then Some (VBool true, skipn 4 s)
          else if startsWith s (str "false") then Some (VBool false, skipn 5 s)
          else if startsWith s (str "null") then Some (VNull, skipn 4 s)
          else
            match scanNumber s with
            | Some (tok, r) => Some (VNumber (StringToNumber tok), r)
            | None => None
            end
      end
  end

with parseElements (fuel : nat) (s : jsstring) (acc : list value)
  {struct fuel} : option (value * jsstring) :=
  match fuel with
  | O => None
  | S fuel' =>
      match parseValue fuel' s with
      | None => None
      | Some (v, s1) =>
          match skipWs s1 with
          | [] => None
          | d :: s2 =>
              if (d =? COMMA)%N
              then parseElements fuel' (skipWs s2) (acc ++ [v])
              else if (d =? 93)%N then Some (VArray (acc ++ [v]), s2)
              else None
          end
      end
  end

with parseMembers (fuel : nat) (s : jsstring) (acc : list (jsstring * value))
  {struct fuel} : option (value * jsstring) :=
  match fuel with
  | O => None
  | S fuel' =>
      match s with
      | [] => None
      | q :: s0 =>
          if (q =? QUOTE)%N then
            match parseChars s0 with
            | None => None
            | Some (k, s1) =>
                match skipWs s1 with
                | [] => None
                | c :: s2 =>
                    if (c =? COLON)%N then
                      match parseValue fuel' (skipWs s2) with
                      | None => None
                      | Some (v, s3) =>
                          match skipWs s3 with
                          | [] => None
                          | d :: s4 =>
                              if (d =? COMMA)%N
                              then parseMembers fuel' (skipWs s4)
                                     (CreateDataProperty acc k v)
                              else if (d =? 125)%N
                              then Some (VObject (CreateDataProperty acc k v), s4)
                              else None
                          end
                      end
                    else None
                end
            end
          else None
      end
  end.

(** [JSON.parse(text)]; [None] stands for the SyntaxError. *)
Definition parse (text : jsstring) : option value :=
  match parseValue (2 * List.length text + 2) (skipWs text) with
  | Some (v, rest) =>
      match skipWs rest with
      | [] => Some v
      | _ :: _ => None
      end
  | None => None
  end.

(** *** JSON.stringify(value, null, 2) *)

Definition gap : jsstring := str "  ".

Definition indentOf (level : nat) : jsstring := repeatN gap level.

Definition wrap (open close : char) (level : nat) (partial : list jsstring)
  : jsstring :=
  match partial with
  | [] => [open; close]
  | _ :: _ =>
      let indent := indentOf (S level) in
      [open; LF] ++ indent ++ join ([COMMA; LF] ++ indent) partial
      ++ [LF] ++ indentOf level ++ [close]
  end.

Fixpoint SerializeJSONProperty (level : nat) (v : value) : jsstring :=
  match v with
  | VNull => str "null"
  | VBool b => if b then str "true" else str "false"
  | VNumber n => if isFinite n then NumberToString n else str "null"
  | VString s => QuoteJSONString s
  | VArray elements =>
      wrap 91%N 93%N level
        (List.map (SerializeJSONProperty (S level)) elements)
  | VObject members =>
      wrap 123%N 125%N level
        (List.map
           (fun kv =>
              QuoteJSONString (fst kv) ++ [COLON; 32%N]
              ++ SerializeJSONProperty (S level) (snd kv))
           members)
  end.

Definition stringify (v : value) : jsstring := SerializeJSONProperty 0 v.

(** *** What the two built-ins do to each other

    [reparsed v] is the value [JSON.parse] reads back from the text of [v]:
    a Number that is not finite was written as [null], a finite one is read
    from its decimal text. *)
Fixpoint reparsed (v : value) : value :=
  match v with
  | VNumber n =>
      if isFinite n then VNumber (StringToNumber (NumberToString n)) else VNull
  | VArray elements => VArray (List.map reparsed elements)
  | VObject members =>
      VObject (List.map (fun kv => (fst kv, reparsed (snd kv))) members)
  | _ => v
  end.

(** The order of the own keys of an object: distinct keys, the array
    indices first and ascending. *)
Definition follows (k k' : jsstring) : Prop :=
  k <> k'
  /\ match arrayIndex k, arrayIndex k' with
     | Some i, Some j => (i < j)%N
     | Some _, None => True
     | None, Some _ => False
     | None, None => True
     end.

Fixpoint keysOrdered (keys : list jsstring) : Prop :=
  match keys with
  | [] => True
  | k :: rest => Forall (follows k) rest /\ keysOrdered rest
  end.

(** The values [JSON.parse] builds: every object lists its keys in that
    order. *)
Fixpoint canonical (v : value) : Prop :=
  match v with
  | VArray elements =>
      (fix all (l : list value) : Prop :=
         match l with
         | [] => True
         | x :: rest => canonical x /\ all rest
         end) elements
  | VObject members =>
      keysOrdered (List.map fst members)
      /\ (fix all (l : list (jsstring * value)) : Prop :=
            match l with
            | [] => True
            | kv :: rest => canonical (snd kv) /\ all rest
            end) members
  | _ => True
  end.

(** A bound on the depth of the calls [parseValue] makes on the text of a
    value. *)
Fixpoint size (v : value) : nat :=
  match v with
  | VArray elements =>
      S (list_sum (List.map (fun x => S (size x)) elements))
  | VObject members =>
      S (list_sum (List.map (fun kv => S (size (snd kv))) members))
  | _ => 1
  end.

(** [JSON.parse] reads the text of [v] back, whatever follows it that
    cannot continue a number. *)
Definition ReadsBack (v : value) : Prop :=
  forall level fuel rest,
    (size v <= fuel)%nat ->
    inert rest = true ->
    parseValue fuel (SerializeJSONProperty level v ++ rest)
    = Some (reparsed v, rest).

End Values.

(** What ECMA-262 grants about the two conversions of a finite Number:
    its decimal text is a JSON number, and reading that text gives a finite
    Number with the same text. *)
Class NumberLaws (NUM : Numbers) : Prop := {
  toString_token :
    forall n, isFinite n = true -> isNumberToken (NumberToString n) = true;
  toString_finite :
    forall n, isFinite n = true ->
              isFinite (StringToNumber (NumberToString n)) = true;
  toString_stable :
    forall n, isFinite n = true ->
              NumberToString (StringToNumber (NumberToString n))
              = NumberToString n
}.

End JSON.

(** ** check-secrets.ts *)

Module SecretPattern.
Record t := {
  name : jsstring;
  pattern : jsstring;
  context : option (list jsstring);
  description : jsstring
}.
End SecretPattern.

Module SecretMatch.
Record t := {
  file : jsstring;
  line : nat;
  column : nat;
  pattern : jsstring;
  patternName : jsstring;
  match_ : jsstring;
  maskedMatch : jsstring;
  context : jsstring
}.
End SecretMatch.

Module Secrets.

Record SecretsConfig := {
  patterns : list SecretPattern.t;
  ignorePatterns : list jsstring;
  fileExtensions : list jsstring
}.

Record ScanResult := {
  totalFiles : nat;
  scannedFiles : nat;
  secretsFound : list SecretMatch.t;
  hasSecrets : bool
}.

(** What [stat] and [readdir] answer for a path: a regular file, a
    directory with its entries ([None] when [readdir] fails), something that
    is neither, or a path [stat] fails on. *)
#[warnings="-register-all"] Inductive Node :=
| File
| Directory (entries : option (list (jsstring * Node)))
| Other
| NoAccess.

Definition STAR : char := ch "*".

(** Mask a secret value for safe display. *)
Definition maskSecret (value : jsstring) : option jsstring :=
  if (len value <=? 8)%Z then JS.repeat [STAR] (len value)
  else
    let visibleStart := slice value 0 (Some 4%Z) in
    let visibleEnd := slice value (-4) None in
    match JS.repeat [STAR] (Z.min (len value - 8) 16) with
    | Some maskedMiddle => Some (visibleStart ++ maskedMiddle ++ visibleEnd)
    | None => None
    end.

(** Get context around a match (the line content). *)
Definition getLineContext (content : jsstring) (matchIndex : nat)
  : nat * nat * jsstring :=
  let lines := split LF (slice content 0 (Some (Z.of_nat matchIndex))) in
  let line := List.length lines in
  let column :=
    (match nth_error lines (List.length lines - 1) with
     | Some l => List.length l
     | None => 0
     end + 1)%nat in
  let allLines := split LF content in
  let context := nth (line - 1) allLines [] in
  (line, column, trim context).

(** [array.some(f)] for a callback that may raise: the elements are tried in
    order, up to the first that holds or raises. *)
Fixpoint someM {A : Type} (f : A -> option bool) (l : list A) : option bool :=
  match l with
  | [] => Some false
  | x :: rest =>
      match f x with
      | None => None
      | Some true => Some true
      | Some false => someM f rest
      end
  end.

(** [s.replace(pat, rep)] for a literal text: the first occurrence only. *)
Fixpoint replaceFirst (pat rep s : jsstring) : jsstring :=
  if startsWith s pat then rep ++ skipn (List.length pat) s
  else match s with
       | [] => []
       | c :: s' => c :: replaceFirst pat rep s'
       end.

(** The position of a match, in the words of the specification: the
    number of newlines before an offset, and the index of the last of them
    ([-1] when there is none). *)
Definition newlinesBefore (content : jsstring) (i : nat) : nat :=
  List.length (filter (N.eqb LF) (firstn i content)).

Fixpoint lastIndexFrom (i : Z) (s : jsstring) (found : Z) : Z :=
  match s with
  | [] => found
  | c :: s' => lastIndexFrom (i + 1) s' (if (c =? LF)%N then i else found)
  end.

Definition lastNewlineBefore (content : jsstring) (i : nat) : Z :=
  lastIndexFrom 0 (firstn i content) (-1).

(** The window of the specification around a match that starts at [start]
    and ends before [stop]: 100 code units on either side, cut at the ends
    of the content. *)
Definition window (content : jsstring) (start stop : nat) : jsstring :=
  firstn ((stop + 100) - (start - 100)) (skipn (start - 100) content).

Definition occursIn (keyword text : jsstring) : Prop :=
  exists before after, text = before ++ keyword ++ after.

(** The successive results of [regex.exec(content)] from [lastIndex] on, up
    to the first [null]. *)
Inductive ExecTrace (regex : RegExp) (content : jsstring)
  : nat -> list (nat * jsstring) -> Prop :=
| trace_null lastIndex :
    regex content lastIndex = None ->
    ExecTrace regex content lastIndex []
| trace_match lastIndex index m0 rest :
    regex content lastIndex = Some (index, m0) ->
    ExecTrace regex content (index + List.length m0) rest ->
    ExecTrace regex content lastIndex ((index, m0) :: rest).

(** From [lastIndex] on, [regex.exec(content)] comes to a match of no code
    units: [lastIndex] then stays where it is. *)
Inductive Stalls (regex : RegExp) (content : jsstring) : nat -> Prop :=
| stalls_here lastIndex :
    regex content lastIndex = Some (lastIndex, []) ->
    Stalls regex content lastIndex
| stalls_later lastIndex index m0 :
    regex content lastIndex = Some (index, m0) ->
    Stalls regex content (index + List.length m0) ->
    Stalls regex content lastIndex.

(** Two nodes behind the entry [name] that differ at most below hidden
    directories, at any depth: a directory is hidden when its name begins
    with a dot and is not [.config]. *)
#[warnings="-register-all"]
Inductive SameOutsideHidden : jsstring -> Node -> Node -> Prop :=
| same_node name n : SameOutsideHidden name n n
| same_hidden name entries1 entries2 :
    startsWith name (str ".") = true ->
    JS.eqb name (str ".config") = false ->
    SameOutsideHidden name (Directory entries1) (Directory entries2)
| same_directory name es1 es2 :
    Forall2
      (fun e1 e2 =>
         fst e1 = fst e2 /\ SameOutsideHidden (fst e1) (snd e1) (snd e2))
      es1 es2 ->
    SameOutsideHidden name (Directory (Some es1)) (Directory (Some es2)).

(** The entries of two directories: the same names in the same order, over
    nodes that differ at most below hidden directories. *)
Definition SameEntriesOutsideHidden (es1 es2 : list (jsstring * Node)) : Prop :=
  Forall2
    (fun e1 e2 =>
       fst e1 = fst e2 /\ SameOutsideHidden (fst e1) (snd e1) (snd e2))
    es1 es2.

Section WithRuntime.
Context {RT : Runtime}.

(** The directory of the running script, [import.meta.dir]. *)
Variable import_meta_dir : jsstring.

Definition ROOT_DIR : jsstring := replaceFirst (str "/scripts") [] import_meta_dir.

(** Simple glob pattern matching; [None] when the expression built from
    the glob does not compile. *)
Definition minimatch (path pattern : jsstring) : option bool :=
  let normalizedPath := replaceAll [92%N] (str "/") path in
  let normalizedPattern := replaceAll [92%N] (str "/") pattern in
  let regexPattern :=
    replaceAll (str "?") (str ".")
      (replaceAll (str "{{GLOBSTAR}}") (str ".*")
         (replaceAll (str "*") (str "[^/]*")
            (replaceAll (str "**") (str "{{GLOBSTAR}}")
               (replaceAll (str ".") (str "\.") normalizedPattern)))) in
  match RegExp_new
          (str "^" ++ regexPattern ++ str "$|/" ++ regexPattern
           ++ str "$|^" ++ regexPattern ++ str "/|/" ++ regexPattern
           ++ str "/")
  with
  | Some regex => Some (test regex normalizedPath)
  | None => None
  end.

(** Check if a file should be ignored. *)
Definition shouldIgnore (filePath : jsstring) (ignorePatterns : list jsstring)
  : option bool :=
  let relativePath := path_relative ROOT_DIR filePath in
  someM (fun pattern => minimatch relativePath pattern) ignorePatterns.

(** Check if file extension is in the allowed list. *)
Definition hasValidExtension (filePath : jsstring) (extensions : list jsstring)
  : bool :=
  let ext := toLowerCase (path_extname filePath) in
  let fileName := last (split (ch "/") filePath) [] in
  existsb
    (fun allowedExt =>
       if startsWith allowedExt (str ".env")
       then startsWith fileName (str ".env")
       else JS.eqb ext allowedExt)
    extensions.

(** Scan a single file for secrets: the [while] loop over the matches of
    one pattern.  [None] when [fuel] iterations did not reach the end; an
    exception in the body is caught around the loop and leaves the pattern
    with the matches found so far. *)
Fixpoint execLoop (fuel : nat) (regex : RegExp) (content relativePath : jsstring)
  (patternConfig : SecretPattern.t) (lastIndex : nat)
  (matches : list SecretMatch.t) : option (list SecretMatch.t) :=
  match fuel with
  | O => None
  | S fuel' =>
      match regex content lastIndex with
      | None => Some matches
      | Some (index, m0) =>
          let lastIndex' := (index + List.length m0)%nat in
          let skipped :=
            match SecretPattern.context patternConfig with
            | Some ctxs =>
                if (0 <? List.length ctxs)%nat then
                  let surroundingText :=
                    toLowerCase
                      (slice content
                         (Z.max 0 (Z.of_nat index - 100))
                         (Some (Z.of_nat index + len m0 + 100)%Z)) in
                  let hasContext :=
                    existsb
                      (fun ctx => includes surroundingText (toLowerCase ctx))
                      ctxs in
                  negb hasContext
                else false
            | None => false
            end in
          if skipped
          then execLoop fuel' regex content relativePath patternConfig
                 lastIndex' matches
          else
            let '(line, column, context) := getLineContext content index in
            match maskSecret m0 with
            | None => Some matches
            | Some masked =>
                execLoop fuel' regex content relativePath patternConfig
                  lastIndex'
                  (matches
                   ++ [{| SecretMatch.file := relativePath;
                          SecretMatch.line := line;
                          SecretMatch.column := column;
                          SecretMatch.pattern :=
                            SecretPattern.pattern patternConfig;
                          SecretMatch.patternName :=
                            SecretPattern.name patternConfig;
                          SecretMatch.match_ := m0;
                          SecretMatch.maskedMatch := masked;
                          SecretMatch.context := context |}])
            end
      end
  end.

Fixpoint forPatterns (fuel : nat) (content relativePath : jsstring)
  (patterns : list SecretPattern.t) (matches : list SecretMatch.t)
  : option (list SecretMatch.t) :=
  match patterns with
  | [] => Some matches
  | patternConfig :: rest =>
      match RegExp_new (SecretPattern.pattern patternConfig) with
      | None => forPatterns fuel content relativePath rest matches
      | Some regex =>
          match execLoop fuel regex content relativePath patternConfig 0
                  matches
          with
          | Some matches' => forPatterns fuel content relativePath rest matches'
          | None => None
          end
      end
  end.

(** [text] is what [Bun.file(filePath).text()] gives, [None] when the file
    cannot be read. *)
Definition scanFile (fuel : nat) (text : option jsstring) (filePath : jsstring)
  (patterns : list SecretPattern.t) : option (list SecretMatch.t) :=
  match text with
  | None => Some []
  | Some content =>
      forPatterns fuel content (path_relative ROOT_DIR filePath) patterns []
  end.

(** Recursively scan directory for files.  The state is the pair of
    [files] and [scanned]; an exception of [shouldIgnore] leaves the loop
    over the entries of the directory it occurs in. *)
Fixpoint visit (config : SecretsConfig) (fullPath entry : jsstring) (n : Node)
  (st : list jsstring * nat) {struct n} : list jsstring * nat :=
  match n with
  | NoAccess => st
  | Other => st
  | File =>
      let (files, scanned) := st in
      if hasValidExtension fullPath (fileExtensions config)
      then (files ++ [fullPath], S scanned)
      else (files, S scanned)
  | Directory entries =>
      if negb (startsWith entry (str ".")) || JS.eqb entry (str ".config")
      then
        match entries with
        | None => st
        | Some es =>
            (fix loop (es : list (jsstring * Node)) (st : list jsstring * nat)
               : list jsstring * nat :=
               match es with
               | [] => st
               | (e, child) :: rest =>
                   let childPath := path_join fullPath e in
                   match shouldIgnore childPath (ignorePatterns config) with
                   | None => st
                   | Some true => loop rest st
                   | Some false =>
                       loop rest (visit config childPath e child st)
                   end
               end) es st
        end
      else st
  end.

(** The loop of [walk] over the entries of [currentDir]. *)
Fixpoint walkEntries (config : SecretsConfig) (currentDir : jsstring)
  (es : list (jsstring * Node)) (st : list jsstring * nat)
  : list jsstring * nat :=
  match es with
  | [] => st
  | (e, child) :: rest =>
      let fullPath := path_join currentDir e in
      match shouldIgnore fullPath (ignorePatterns config) with
      | None => st
      | Some true => walkEntries config currentDir rest st
      | Some false =>
          walkEntries config currentDir rest
            (visit config fullPath e child st)
      end
  end.

Definition walk (config : SecretsConfig) (currentDir : jsstring)
  (entries : option (list (jsstring * Node))) (st : list jsstring * nat)
  : list jsstring * nat :=
  match entries with
  | None => st
  | Some es => walkEntries config currentDir es st
  end.

Definition scanDirectory (dir : jsstring)
  (entries : option (list (jsstring * Node))) (config : SecretsConfig)
  : list jsstring * nat :=
  walk config dir entries ([], 0%nat).

(** The regular files the traversal counts, in the order it meets them:
    the paths behind [scanned] and, through the extension filter, behind
    [files]. *)
Fixpoint counted (config : SecretsConfig) (fullPath entry : jsstring) (n : Node)
  {struct n} : list jsstring :=
  match n with
  | NoAccess => []
  | Other => []
  | File => [fullPath]
  | Directory entries =>
      if negb (startsWith entry (str ".")) || JS.eqb entry (str ".config")
      then
        match entries with
        | None => []
        | Some es =>
            (fix loop (es : list (jsstring * Node)) : list jsstring :=
               match es with
               | [] => []
               | (e, child) :: rest =>
                   let childPath := path_join fullPath e in
                   match shouldIgnore childPath (ignorePatterns config) with
                   | None => []
                   | Some true => loop rest
                   | Some false =>
                       counted config childPath e child ++ loop rest
                   end
               end) es
        end
      else []
  end.

Fixpoint countedEntries (config : SecretsConfig) (currentDir : jsstring)
  (es : list (jsstring * Node)) : list jsstring :=
  match es with
  | [] => []
  | (e, child) :: rest =>
      let fullPath := path_join currentDir e in
      match shouldIgnore fullPath (ignorePatterns config) with
      | None => []
      | Some true => countedEntries config currentDir rest
      | Some false =>
          counted config fullPath e child
          ++ countedEntries config currentDir rest
      end
  end.

Definition countedFrom (config : SecretsConfig) (currentDir : jsstring)
  (entries : option (list (jsstring * Node))) : list jsstring :=
  match entries with
  | None => []
  | Some es => countedEntries config currentDir es
  end.

(** [visit] moves the state by the files counted below the node. *)
Definition Tracks (config : SecretsConfig) (n : Node) : Prop :=
  forall fullPath entry files scanned,
    visit config fullPath entry n (files, scanned)
    = (files
       ++ filter (fun p => hasValidExtension p (fileExtensions config))
            (counted config fullPath entry n),
       (scanned + List.length (counted config fullPath entry n))%nat).

(** A path matches some glob of the ignore list. *)
Definition matchesIgnore (config : SecretsConfig) (filePath : jsstring) : Prop :=
  exists glob,
    In glob (ignorePatterns config)
    /\ minimatch (path_relative ROOT_DIR filePath) glob = Some true.

(** A keyword occurs in a text, both lower-cased. *)
Definition occursNoCase (keyword text : jsstring) : Prop :=
  occursIn (toLowerCase keyword) (toLowerCase text).

(** The test [hasContext] of the loop body, for the match [m]. *)
Definition hasContext (content : jsstring) (ctxs : list jsstring)
  (m : nat * jsstring) : bool :=
  let surroundingText :=
    toLowerCase
      (slice content
         (Z.max 0 (Z.of_nat (fst m) - 100))
         (Some (Z.of_nat (fst m) + len (snd m) + 100)%Z)) in
  existsb (fun ctx => includes surroundingText (toLowerCase ctx)) ctxs.

(** The [SecretMatch] the scanner pushes for a match of [patternConfig]. *)
Definition report (content relativePath : jsstring)
  (patternConfig : SecretPattern.t) (m : nat * jsstring) : SecretMatch.t :=
  let '(line, column, context) := getLineContext content (fst m) in
  {| SecretMatch.file := relativePath;
     SecretMatch.line := line;
     SecretMatch.column := column;
     SecretMatch.pattern := SecretPattern.pattern patternConfig;
     SecretMatch.patternName := SecretPattern.name patternConfig;
     SecretMatch.match_ := snd m;
     SecretMatch.maskedMatch :=
       match maskSecret (snd m) with Some masked => masked | None => [] end;
     SecretMatch.context := context |}.

(** [s] is the report of a match that [regex.exec(content)] gives from
    some [lastIndex]. *)
Definition Reported (regex : RegExp) (content relativePath : jsstring)
  (patternConfig : SecretPattern.t) (s : SecretMatch.t) : Prop :=
  exists lastIndex index m0,
    regex content lastIndex = Some (index, m0)
    /\ s = report content relativePath patternConfig (index, m0).

(** The file system the scan runs on: the entries of the root directory
    and the text of each file by path. *)
Record FileSystem := {
  rootEntries : option (list (jsstring * Node));
  readText : jsstring -> option jsstring
}.

Fixpoint scanFiles (fuel : nat) (fs : FileSystem) (files : list jsstring)
  (patterns : list SecretPattern.t) (allMatches : list SecretMatch.t)
  : option (list SecretMatch.t) :=
  match files with
  | [] => Some allMatches
  | file :: rest =>
      match scanFile fuel (readText fs file) file patterns with
      | None => None
      | Some matches => scanFiles fuel fs rest patterns (allMatches ++ matches)
      end
  end.

(** [main] from the loaded configuration on, up to the [ScanResult]. *)
Definition main (fuel : nat) (config : SecretsConfig) (fs : FileSystem)
  : option ScanResult :=
  let (files, scanned) := scanDirectory ROOT_DIR (rootEntries fs) config in
  match scanFiles fuel fs files (patterns config) [] with
  | None => None
  | Some allMatches =>
      Some {| totalFiles := List.length files;
              scannedFiles := scanned;
              secretsFound := allMatches;
              hasSecrets := (0 <? List.length allMatches)%nat |}
  end.

End WithRuntime.

(** Load secrets patterns configuration.  [file] is the text of the
    configuration file, [None] when it is missing; the parsed content is
    returned as it is. *)
Section LoadConfig.
Context {NUM : JSON.Numbers}.

Definition patternObject (name pattern description : string) : JSON.value :=
  JSON.VObject
    [(str "name", JSON.VString (str name));
     (str "pattern", JSON.VString (str pattern));
     (str "description", JSON.VString (str description))].

Definition apiKeySource : string :=
  "[Aa][Pp][Ii][-_]?[Kk][Ee][Yy][" ++ String (ascii_of_nat 34) "']?\s*[:=]\s*["
  ++ String (ascii_of_nat 34) "'][A-Za-z0-9_-]{16,}["
  ++ String (ascii_of_nat 34) "']".

Definition secretSource : string :=
  "[Ss][Ee][Cc][Rr][Ee][Tt][" ++ String (ascii_of_nat 34) "']?\s*[:=]\s*["
  ++ String (ascii_of_nat 34) "'][A-Za-z0-9_-]{8,}["
  ++ String (ascii_of_nat 34) "']".

Definition passwordSource : string :=
  "[Pp][Aa][Ss][Ss][Ww][Oo][Rr][Dd][" ++ String (ascii_of_nat 34)
  "']?\s*[:=]\s*[" ++ String (ascii_of_nat 34) "'][^"
  ++ String (ascii_of_nat 34) "']{4,}[" ++ String (ascii_of_nat 34) "']".

Definition defaultConfig : JSON.value :=
  JSON.VObject
    [(str "patterns",
      JSON.VArray
        [patternObject "Generic API Key" apiKeySource "Generic API Key pattern";
         patternObject "Generic Secret" secretSource "Generic Secret pattern";
         patternObject "Generic Password" passwordSource
           "Generic Password pattern"]);
     (str "ignorePatterns",
      JSON.VArray
        (List.map (fun g => JSON.VString (str g))
           ["**/node_modules/**"; "**/.git/**"; "**/dist/**"]%string));
     (str "fileExtensions",
      JSON.VArray
        (List.map (fun e => JSON.VString (str e))
           [".json"; ".yaml"; ".yml"; ".toml"; ".env"]%string))].

Definition loadConfig (file : option jsstring) : JSON.value :=
  match file with
  | None => defaultConfig
  | Some text =>
      match JSON.parse text with
      | Some content => content
      | None => defaultConfig
      end
  end.

(** The cast [content as SecretsConfig], for a value of the declared
    shape; the cast checks nothing, and [None] only says that the value has
    another shape. *)
Definition getProperty (o : JSON.value) (k : string) : option JSON.value :=
  match o with
  | JSON.VObject members =>
      option_map snd (find (fun kv => JS.eqb (fst kv) (str k)) members)
  | _ => None
  end.

Definition asString (v : JSON.value) : option jsstring :=
  match v with
  | JSON.VString s => Some s
  | _ => None
  end.

Fixpoint traverse {A B : Type} (f : A -> option B) (l : list A)
  : option (list B) :=
  match l with
  | [] => Some []
  | x :: rest =>
      match f x, traverse f rest with
      | Some y, Some ys => Some (y :: ys)
      | _, _ => None
      end
  end.

Definition asArray {B : Type} (f : JSON.value -> option B) (v : JSON.value)
  : option (list B) :=
  match v with
  | JSON.VArray elements => traverse f elements
  | _ => None
  end.

Definition asSecretPattern (v : JSON.value) : option SecretPattern.t :=
  match getProperty v "name", getProperty v "pattern",
        getProperty v "description" with
  | Some (JSON.VString n), Some (JSON.VString p), Some (JSON.VString d) =>
      match getProperty v "context" with
      | None =>
          Some {| SecretPattern.name := n; SecretPattern.pattern := p;
                  SecretPattern.context := None;
                  SecretPattern.description := d |}
      | Some c =>
          match asArray asString c with
          | Some cs =>
              Some {| SecretPattern.name := n; SecretPattern.pattern := p;
                      SecretPattern.context := Some cs;
                      SecretPattern.description := d |}
          | None => None
          end
      end
  | _, _, _ => None
  end.

Definition asSecretsConfig (v : JSON.value) : option SecretsConfig :=
  match getProperty v "patterns", getProperty v "ignorePatterns",
        getProperty v "fileExtensions" with
  | Some ps, Some gs, Some es =>
      match asArray asSecretPattern ps, asArray asString gs,
            asArray asString es with
      | Some ps', Some gs', Some es' =>
          Some {| patterns := ps'; ignorePatterns := gs';
                  fileExtensions := es' |}
      | _, _, _ => None
      end
  | _, _, _ => None
  end.

End LoadConfig.

(** The grouping of [printResults]: a [Map] from a file to its secrets.
    [byFile.get(key)] and [byFile.set(key, value)]; a [Map] keeps its keys in
    the order of their first insertion. *)
Definition mapGet (key : jsstring) (m : list (jsstring * list SecretMatch.t))
  : option (list SecretMatch.t) :=
  option_map snd (find (fun kv => JS.eqb (fst kv) key) m).

Fixpoint mapSet (key : jsstring) (value : list SecretMatch.t)
  (m : list (jsstring * list SecretMatch.t))
  : list (jsstring * list SecretMatch.t) :=
  match m with
  | [] => [(key, value)]
  | (k, v) :: rest =>
      if JS.eqb k key then (key, value) :: rest
      else (k, v) :: mapSet key value rest
  end.

Definition byFile (secretsFound : list SecretMatch.t)
  : list (jsstring * list SecretMatch.t) :=
  fold_left
    (fun m secret =>
       let existing :=
         match mapGet (SecretMatch.file secret) m with
         | Some l => l
         | None => []
         end in
       mapSet (SecretMatch.file secret) (existing ++ [secret]) m)
    secretsFound [].

(** The distinct elements of a list, each at its first occurrence. *)
Fixpoint firstSeen (seen l : list jsstring) : list jsstring :=
  match l with
  | [] => []
  | x :: rest =>
      if existsb (JS.eqb x) seen then firstSeen seen rest
      else x :: firstSeen (seen ++ [x]) rest
  end.

(** The secrets of one file, in the order they were found. *)
Definition grouped (secrets : list SecretMatch.t) (f : jsstring)
  : list SecretMatch.t :=
  filter (fun s => JS.eqb (SecretMatch.file s) f) secrets.

End Secrets.

(** ** format.ts *)

Module Format.

Definition indentStr : jsstring := str "  ".

(** [/^[}\]]/.test(trimmed)] *)
Definition startsWithClosingRe (trimmed : jsstring) : bool :=
  match trimmed with
  | c :: _ => ((c =? 125) || (c =? 93))%N
  | [] => false
  end.

(** [/[{\[]$/.test(trimmed)] *)
Definition endsWithOpenRe (trimmed : jsstring) : bool :=
  match rev trimmed with
  | c :: _ => ((c =? 123) || (c =? 91))%N
  | [] => false
  end.

(** [.*close] matches at the head of [s]: [close] is reached before any
    line terminator. *)
Fixpoint closesOnLine (close : char) (s : jsstring) : bool :=
  match s with
  | [] => false
  | c :: s' =>
      if (c =? close)%N then true
      else if isLineTerminator c then false
      else closesOnLine close s'
  end.

(** [/\[.*\]/.test(trimmed)] and [/\{.*\}/.test(trimmed)] *)
Fixpoint pairRe (open close : char) (s : jsstring) : bool :=
  match s with
  | [] => false
  | c :: s' => ((c =? open)%N && closesOnLine close s') || pairRe open close s'
  end.

(** The tail of the inline-comment expression, [\s*] then group 2
    [\/\/.*] then [$], matches the whole of [rest]; the result is group 2. *)
Definition commentTail (rest : jsstring) : option jsstring :=
  let r := dropWhile isWhiteSpace rest in
  if startsWith r (str "//")
     && forallb (fun c => negb (isLineTerminator c)) (skipn 2 r)
  then Some r
  else None.

(** The inline-comment expression of [formatJSONC]: group 1 [.+?] is the
    shortest non-empty run of [.] after which the tail matches; [code] holds
    the code units group 1 has taken so far, last first. *)
Fixpoint inlineCommentFrom (code : jsstring) (rest : jsstring)
  : option (jsstring * jsstring) :=
  match commentTail rest with
  | Some comment => Some (rev code, comment)
  | None =>
      match rest with
      | [] => None
      | c :: rest' =>
          if isLineTerminator c then None
          else inlineCommentFrom (c :: code) rest'
      end
  end.

Definition inlineCommentMatch (trimmed : jsstring)
  : option (jsstring * jsstring) :=
  match trimmed with
  | [] => None
  | c :: rest =>
      if isLineTerminator c then None else inlineCommentFrom [c] rest
  end.

(** The body of the loop of [formatJSONC] on one line: the new indent level
    and the line that is pushed. *)
Definition formatLine (indentLevel : nat) (line : jsstring) : nat * jsstring :=
  let trimmed := trim line in
  if JS.eqb trimmed [] then (indentLevel, [])
  else if startsWith trimmed (str "//")
          || startsWith trimmed (str "/*")
          || startsWith trimmed (str "*")
  then (indentLevel, repeatN indentStr indentLevel ++ trimmed)
  else
    let startsWithClosing := startsWithClosingRe trimmed in
    let indentLevel :=
      if startsWithClosing then Nat.max 0 (indentLevel - 1) else indentLevel in
    let currentIndent := repeatN indentStr indentLevel in
    let pushed :=
      match inlineCommentMatch trimmed with
      | Some (code, comment) => currentIndent ++ trim code ++ str " " ++ comment
      | None => currentIndent ++ trimmed
      end in
    let endsWithOpening :=
      endsWithOpenRe trimmed
      && negb (pairRe 91%N 93%N trimmed)
      && negb (pairRe 123%N 125%N trimmed) in
    (if endsWithOpening then S indentLevel else indentLevel, pushed).

Fixpoint formatLines (indentLevel : nat) (lines : list jsstring)
  : list jsstring :=
  match lines with
  | [] => []
  | line :: rest =>
      let (indentLevel', pushed) := formatLine indentLevel line in
      pushed :: formatLines indentLevel' rest
  end.

(** [output.replace(/\n+$/, '\n')] *)
Definition collapseTrailingNewlines (output : jsstring) : jsstring :=
  let body := rev (dropWhile (N.eqb LF) (rev output)) in
  if (List.length body <? List.length output)%nat then body ++ [LF]
  else output.

Definition ensureTrailingNewline (output : jsstring) : jsstring :=
  if endsWith output [LF] then output else output ++ [LF].

(** Format JSONC content - preserves comments while fixing indentation. *)
Definition formatJSONC (content : jsstring) : jsstring :=
  let lines := splitLines content in
  let formattedLines := formatLines 0 lines in
  let output := join [LF] formattedLines in
  ensureTrailingNewline (collapseTrailingNewlines output).

(** [/^\s*\/\/|\/\*/.test(content)]: the first alternative is anchored at
    the start of the content, the second is not anchored. *)
Definition leadingCommentRe (content : jsstring) : bool :=
  startsWith (dropWhile isWhiteSpace content) (str "//")
  || includes content (str "/*").

(** The second test of [hasComments]: two slashes after a code unit that
    is neither a colon nor a double quote. *)
Fixpoint slashesRe (content : jsstring) : bool :=
  match content with
  | [] => false
  | c :: rest =>
      (negb (c =? 58)%N && negb (c =? 34)%N && startsWith rest (str "//"))
      || slashesRe rest
  end.

Definition hasComments (content : jsstring) : bool :=
  leadingCommentRe content || slashesRe content.

(** Remove multiple consecutive empty lines. *)
Fixpoint dropRepeatedEmpty (prevEmpty : bool) (lines : list jsstring)
  : list jsstring :=
  match lines with
  | [] => []
  | line :: rest =>
      let isEmpty := JS.eqb (trim line) [] in
      if isEmpty && prevEmpty then dropRepeatedEmpty prevEmpty rest
      else line :: dropRepeatedEmpty isEmpty rest
  end.

(** Format YAML content (basic formatting). *)
Definition formatYAML (content : jsstring) : jsstring :=
  let lines := splitLines content in
  let formattedLines := List.map trimEnd lines in
  let result := dropRepeatedEmpty false formattedLines in
  ensureTrailingNewline (join [LF] result).

(** The callback of [lines.map] in [formatTOML]. *)
Definition formatTOMLLine (line : jsstring) : jsstring :=
  let formatted := trimEnd line in
  if includes formatted (str "=")
     && negb (startsWith (trim formatted) (str "#"))
  then
    match split (ch "=") formatted with
    | [] => formatted
    | key :: valueParts =>
        let value := join (str "=") valueParts in
        if negb (JS.eqb key [])
        then trimEnd key ++ str " = " ++ trimStart value
        else formatted
    end
  else formatted.

(** Format TOML content (basic formatting). *)
Definition formatTOML (content : jsstring) : jsstring :=
  let lines := splitLines content in
  let formattedLines := List.map formatTOMLLine lines in
  let result := dropRepeatedEmpty false formattedLines in
  ensureTrailingNewline (join [LF] result).

(** The classes of a trimmed line, in the words of the specification. *)
Definition beginsWith (marker : string) (t : jsstring) : Prop :=
  exists rest, t = str marker ++ rest.

Definition CommentOnly (t : jsstring) : Prop :=
  beginsWith "//" t \/ beginsWith "/*" t \/ beginsWith "*" t.

Definition ClosingPrefixed (t : jsstring) : Prop :=
  beginsWith "}" t \/ beginsWith "]" t.

Definition EndsWithOpener (t : jsstring) : Prop :=
  exists front, t = front ++ str "{" \/ t = front ++ str "[".

(** An opening bracket and, later on the same line, its closing one. *)
Definition SameLinePair (open close : char) (t : jsstring) : Prop :=
  exists a b c,
    t = a ++ [open] ++ b ++ [close] ++ c
    /\ Forall (fun x => isLineTerminator x = false) b.

Definition OpensBlock (t : jsstring) : Prop :=
  EndsWithOpener t
  /\ ~ SameLinePair 91%N 93%N t
  /\ ~ SameLinePair 123%N 125%N t.

(** The depth counter of the specification, run over the lines of a
    document: [DepthRun depth lines emitted] holds when, with the counter at
    [depth] before the first of [lines], the lines are emitted as [emitted].
    A blank line becomes an empty line and leaves the depth; a comment-only
    line is emitted at the depth and leaves it; any other line is emitted at
    [emitAt], the depth less one when it is closing-prefixed, and hands
    [next] to the line after it, one more than [emitAt] when it opens a
    block.  What follows the indentation does not start with white space,
    so the emitted line shows the depth it was emitted at. *)
Inductive DepthRun : nat -> list jsstring -> list jsstring -> Prop :=
| run_end depth : DepthRun depth [] []
| run_blank depth line lines emitted :
    trim line = [] ->
    DepthRun depth lines emitted ->
    DepthRun depth (line :: lines) ([] :: emitted)
| run_comment depth line lines emitted :
    trim line <> [] ->
    CommentOnly (trim line) ->
    DepthRun depth lines emitted ->
    DepthRun depth (line :: lines)
      ((repeatN indentStr depth ++ trim line) :: emitted)
| run_code depth emitAt next line body lines emitted :
    trim line <> [] ->
    ~ CommentOnly (trim line) ->
    (ClosingPrefixed (trim line) -> emitAt = (depth - 1)%nat) ->
    (~ ClosingPrefixed (trim line) -> emitAt = depth) ->
    (exists c r, body = c :: r /\ isWhiteSpace c = false) ->
    (OpensBlock (trim line) -> next = S emitAt) ->
    (~ OpensBlock (trim line) -> next = emitAt) ->
    DepthRun next lines emitted ->
    DepthRun depth (line :: lines)
      ((repeatN indentStr emitAt ++ body) :: emitted).

(** What [hasComments] looks for, and the condition the specification
    words it by. *)
Definition LineBeginsWith (marker : string) (content : jsstring) : Prop :=
  exists line,
    In line (split LF content)
    /\ startsWith (trimStart line) (str marker) = true.

Definition ContainsBlockOpener (content : jsstring) : Prop :=
  exists before after, content = before ++ str "/*" ++ after.

Definition SlashesAfterOther (content : jsstring) : Prop :=
  exists before c after,
    content = before ++ c :: str "//" ++ after
    /\ c <> 58%N /\ c <> 34%N.

Definition SlashesNotAfterQuote (content : jsstring) : Prop :=
  exists before after,
    content = before ++ str "//" ++ after
    /\ ~ (exists front, before = front ++ [34%N]).

Definition StatedStrict (content : jsstring) : Prop :=
  ~ LineBeginsWith "//" content
  /\ ~ LineBeginsWith "/*" content
  /\ ~ SlashesNotAfterQuote content.

Definition hasTrailingWhitespace (line : jsstring) : bool :=
  match rev line with
  | c :: _ => isWhiteSpace c
  | [] => false
  end.

Section WithNumbers.
Context {NUM : JSON.Numbers}.

(** Format pure JSON content (no comments); [None] when [JSON.parse]
    raises. *)
Definition formatPureJSON (content : jsstring) : option jsstring :=
  match JSON.parse content with
  | Some parsed => Some (JSON.stringify parsed ++ [LF])
  | None => None
  end.

(** Format JSON/JSONC - detects if file has comments. *)
Definition formatJSON (content : jsstring) : jsstring :=
  if hasComments content then formatJSONC content
  else match formatPureJSON content with
       | Some formatted => formatted
       | None => formatJSONC content
       end.

(** Format file based on its extension. *)
Definition formatContent {RT : Runtime} (content ext : jsstring) : jsstring :=
  let e := toLowerCase ext in
  if JS.eqb e (str ".json") then formatJSON content
  else if JS.eqb e (str ".yaml") || JS.eqb e (str ".yml")
  then formatYAML content
  else if JS.eqb e (str ".toml") then formatTOML content
  else content.

End WithNumbers.

(** *** The files the formatter runs on *)

Definition SUPPORTED_EXTENSIONS : list jsstring :=
  [str ".json"; str ".yaml"; str ".yml"; str ".toml"].
Definition IGNORED_DIRS : list jsstring :=
  [str "node_modules"; str ".git"; str "dist"; str "scripts"].
Definition IGNORED_FILES : list jsstring :=
  [str "package-lock.json"; str "bun.lockb"; str "bun.lock"].

(** [array.includes(x)] for an array of strings. *)
Definition arrayIncludes (l : list jsstring) (x : jsstring) : bool :=
  existsb (JS.eqb x) l.

(** Check if a path should be ignored. *)
Definition shouldIgnore (path : jsstring) : bool :=
  let parts := split (ch "/") path in
  existsb (fun part => arrayIncludes IGNORED_DIRS part) parts
  || existsb (fun ignored => endsWith path ignored) IGNORED_FILES.

(** An entry of [readdir(dir, { withFileTypes: true })]: a regular file, a
    directory with its own entries ([None] when [readdir] raises on it), or
    something that is neither. *)
#[warnings="-register-all"] Inductive Dirent :=
| FileEntry
| DirectoryEntry (entries : option (list (jsstring * Dirent)))
| OtherEntry.

Inductive Status := status_formatted | status_unchanged | status_error.

Record FormatResult := {
  file : jsstring;
  status : Status;
  message : option jsstring
}.

(** What [readFile] and [writeFile] answer: the value, or the message of
    the error that is raised. *)
Inductive Outcome (A : Type) :=
| Returns (value : A)
| Raises (message : jsstring).
Arguments Returns {A} value.
Arguments Raises {A} message.

(** The files on disk, as the script sees them: a state, read by
    [readFile(path, 'utf-8')] and moved by [writeFile(path, text, 'utf-8')]. *)
Class Disk := {
  disk : Type;
  readFile : disk -> jsstring -> Outcome jsstring;
  writeFile : disk -> jsstring -> jsstring -> disk * Outcome unit
}.

(** A text that was written is read back, and the other files stay as
    they are. *)
Class DiskLaws (DISK : Disk) : Prop := {
  read_written :
    forall d p t d',
      writeFile d p t = (d', Returns tt) -> readFile d' p = Returns t;
  read_other :
    forall d p t d' q,
      writeFile d p t = (d', Returns tt) -> q <> p ->
      readFile d' q = readFile d q
}.

Definition statusIs (s : Status) (r : FormatResult) : bool :=
  match s, status r with
  | status_formatted, status_formatted => true
  | status_unchanged, status_unchanged => true
  | status_error, status_error => true
  | _, _ => false
  end.

Section Run.
Context {NUM : JSON.Numbers} {RT : Runtime} {DISK : Disk}.

(** The directory of the running script, [import.meta.dir], and the
    [--check] flag of the command line. *)
Variable import_meta_dir : jsstring.
Variable isCheckMode : bool.

Definition ROOT_DIR : jsstring :=
  Secrets.replaceFirst (str "/scripts") [] import_meta_dir.

(** Recursively get all files in a directory: the body of the loop of
    [walk] for one entry.  [None] when a [readdir] raises: the exception is
    not caught, and [getAllFiles] is rejected. *)
Fixpoint visit (fullPath name : jsstring) (entry : Dirent)
  (files : list jsstring) {struct entry} : option (list jsstring) :=
  match entry with
  | DirectoryEntry None => None
  | DirectoryEntry (Some es) =>
      (fix loop (es : list (jsstring * Dirent)) (files : list jsstring)
         : option (list jsstring) :=
         match es with
         | [] => Some files
         | (childName, child) :: rest =>
             let childPath := path_join fullPath childName in
             let relativePath := path_relative ROOT_DIR childPath in
             if shouldIgnore relativePath then loop rest files
             else match visit childPath childName child files with
                  | None => None
                  | Some files' => loop rest files'
                  end
         end) es files
  | FileEntry =>
      let ext := toLowerCase (path_extname name) in
      if arrayIncludes SUPPORTED_EXTENSIONS ext
      then Some (files ++ [fullPath])
      else Some files
  | OtherEntry => Some files
  end.

(** The loop of [walk] over the entries of [currentDir]. *)
Fixpoint walkEntries (currentDir : jsstring) (es : list (jsstring * Dirent))
  (files : list jsstring) : option (list jsstring) :=
  match es with
  | [] => Some files
  | (name, entry) :: rest =>
      let fullPath := path_join currentDir name in
      let relativePath := path_relative ROOT_DIR fullPath in
      if shouldIgnore relativePath then walkEntries currentDir rest files
      else match visit fullPath name entry files with
           | None => None
           | Some files' => walkEntries currentDir rest files'
           end
  end.

Definition getAllFiles (dir : jsstring)
  (entries : option (list (jsstring * Dirent))) : option (list jsstring) :=
  match entries with
  | None => None
  | Some es => walkEntries dir es []
  end.

(** What [getAllFiles] lists: a path that is not ignored, made of a
    directory and a name with a supported extension. *)
Definition Listed (p : jsstring) : Prop :=
  shouldIgnore (path_relative ROOT_DIR p) = false
  /\ exists dir name,
       p = path_join dir name
       /\ arrayIncludes SUPPORTED_EXTENSIONS (toLowerCase (path_extname name))
          = true.

(** A file that is read, and holds the text the formatter gives for it. *)
Definition AlreadyFormatted (d : disk) (filePath : jsstring) : Prop :=
  exists content,
    readFile d filePath = Returns content
    /\ formatContent content (path_extname filePath) = content.

(** Format a single file. *)
Definition formatFile (d : disk) (filePath : jsstring) : disk * FormatResult :=
  let relativePath := path_relative ROOT_DIR filePath in
  match readFile d filePath with
  | Raises msg =>
      (d, {| file := relativePath; status := status_error; message := Some msg |})
  | Returns content =>
      let ext := path_extname filePath in
      let formatted := formatContent content ext in
      if JS.eqb content formatted
      then (d, {| file := relativePath; status := status_unchanged; message := None |})
      else if isCheckMode
      then (d, {| file := relativePath; status := status_error;
                  message := Some (str "File needs formatting") |})
      else
        match writeFile d filePath formatted with
        | (d', Returns _) =>
            (d', {| file := relativePath; status := status_formatted;
                    message := None |})
        | (d', Raises msg) =>
            (d', {| file := relativePath; status := status_error;
                    message := Some msg |})
        end
  end.

(** The loop of [main] over the files. *)
Fixpoint formatFiles (d : disk) (files : list jsstring)
  (results : list FormatResult) : disk * list FormatResult :=
  match files with
  | [] => (d, results)
  | file_ :: rest =>
      let (d', result) := formatFile d file_ in
      formatFiles d' rest (results ++ [result])
  end.

(** [main], with the handler of its rejection: the disk it leaves, the
    results and the exit code of the process. *)
Definition main (entries : option (list (jsstring * Dirent))) (d : disk)
  : disk * list FormatResult * nat :=
  match getAllFiles ROOT_DIR entries with
  | None => (d, [], 1%nat)
  | Some files =>
      if (List.length files =? 0)%nat then (d, [], 0%nat)
      else
        let (d', results) := formatFiles d files [] in
        let formatted := filter (statusIs status_formatted) results in
        let errors := filter (statusIs status_error) results in
        (d', results,
         if isCheckMode
            && ((0 <? List.length formatted)%nat
                || (0 <? List.length errors)%nat)
         then 1%nat else 0%nat)
  end.

End Run.

(** The steps [formatYAML] and [formatTOML] share, around the callback [g]
    of [lines.map]. *)
Definition formatLinesWith (g : jsstring -> jsstring) (content : jsstring)
  : jsstring :=
  ensureTrailingNewline
    (join [LF] (dropRepeatedEmpty false (List.map g (splitLines content)))).

(** [line.trim() === ''] *)
Definition blank (l : jsstring) : bool := JS.eqb (trim l) [].

(** A line that [split(/\r?\n/)] gives back as it is: it holds no newline
    and does not end with a carriage return. *)
Definition Clean (l : jsstring) : Prop :=
  existsb (N.eqb LF) l = false /\ endsWith l [CR] = false.

(** A text that is empty or ends with a code unit that is not white
    space. *)
Definition Ended (x : jsstring) : Prop :=
  x = [] \/ exists a c, x = a ++ [c] /\ isWhiteSpace c = false.

(** The lines of a text that ends with a newline, and two adjacent lines
    that are both blank. *)
Definition NoAdjacentBlank (lines : list jsstring) : Prop :=
  forall before x y after,
    lines = before ++ x :: y :: after -> ~ (trim x = [] /\ trim y = []).

(** What a formatter must not touch: the code units that are not white
    space, in their order. *)
Definition ink (s : jsstring) : jsstring :=
  filter (fun c => negb (isWhiteSpace c)) s.

End Format.

(** ** A host to run the scripts on examples

    Numbers restricted to the integers, lower-casing restricted to ASCII,
    POSIX paths, and the regular expressions the built-in configuration
    gives rise to, compiled by hand for the matcher of [Module Regex]. *)

Module Demo.

(** *** Integers as Numbers: the decimal digits of [Z] *)

Fixpoint digits (u : Decimal.uint) : jsstring :=
  match u with
  | Decimal.Nil => []
  | Decimal.D0 u => 48%N :: digits u
  | Decimal.D1 u => 49%N :: digits u
  | Decimal.D2 u => 50%N :: digits u
  | Decimal.D3 u => 51%N :: digits u
  | Decimal.D4 u => 52%N :: digits u
  | Decimal.D5 u => 53%N :: digits u
  | Decimal.D6 u => 54%N :: digits u
  | Decimal.D7 u => 55%N :: digits u
  | Decimal.D8 u => 56%N :: digits u
  | Decimal.D9 u => 57%N :: digits u
  end.

(** The leading digits of [s]; what follows them is not read. *)
Fixpoint readDigits (s : jsstring) : Decimal.uint :=
  match s with
  | [] => Decimal.Nil
  | c :: s' =>
      if (c =? 48)%N then Decimal.D0 (readDigits s')
      else if (c =? 49)%N then Decimal.D1 (readDigits s')
      else if (c =? 50)%N then Decimal.D2 (readDigits s')
      else if (c =? 51)%N then Decimal.D3 (readDigits s')
      else if (c =? 52)%N then Decimal.D4 (readDigits s')
      else if (c =? 53)%N then Decimal.D5 (readDigits s')
      else if (c =? 54)%N then Decimal.D6 (readDigits s')
      else if (c =? 55)%N then Decimal.D7 (readDigits s')
      else if (c =? 56)%N then Decimal.D8 (readDigits s')
      else if (c =? 57)%N then Decimal.D9 (readDigits s')
      else Decimal.Nil
  end.

Definition integerToString (z : Z) : jsstring :=
  match Z.to_int z with
  | Decimal.Pos u => digits u
  | Decimal.Neg u => 45%N :: digits u
  end.

Definition integerOfToken (tok : jsstring) : Z :=
  match tok with
  | [] => 0%Z
  | c :: rest =>
      if (c =? 45)%N then Z.of_int (Decimal.Neg (readDigits rest))
      else Z.of_int (Decimal.Pos (readDigits tok))
  end.

#[export] Instance integers : JSON.Numbers := {|
  JSON.number := Z;
  JSON.StringToNumber := integerOfToken;
  JSON.NumberToString := integerToString;
  JSON.isFinite := fun _ => true
|}.

(** *** The runtime *)

Definition asciiLower (c : char) : char :=
  if ((65 <=? c) && (c <=? 90))%N then (c + 32)%N else c.

Definition posixJoin (a b : jsstring) : jsstring := a ++ str "/" ++ b.

Definition posixRelative (from to : jsstring) : jsstring :=
  if startsWith to (from ++ str "/") then skipn (List.length from + 1) to
  else to.

Definition posixExtname (path : jsstring) : jsstring :=
  let base := last (split (ch "/") path) [] in
  match split (ch ".") base with
  | [] | [_] => []
  | [[]; _] => []
  | parts => ch "." :: last parts []
  end.

Import Regex.

Definition anyQuote : regex := Chr (fun c => ((c =? 34) || (c =? 39))%N).
Definition noQuote : regex := Chr (fun c => negb ((c =? 34) || (c =? 39))%N).

(** The common tail of the built-in patterns: an optional quote, [\s*],
    [:] or [=], [\s*], then a quoted value of at least [least] code units. *)
Definition quotedValue (value : regex) (least : nat) : list regex :=
  [opt anyQuote; Star space; oneOf ":="; Star space;
   anyQuote; atLeast least value; anyQuote].

Definition apiKeyRe : regex :=
  seq ([oneOf "Aa"; oneOf "Pp"; oneOf "Ii"; opt (oneOf "-_");
        oneOf "Kk"; oneOf "Ee"; oneOf "Yy"] ++ quotedValue word_ 16).

Definition secretRe : regex :=
  seq (List.map oneOf ["Ss"; "Ee"; "Cc"; "Rr"; "Ee"; "Tt"]%string
       ++ quotedValue word_ 8).

Definition passwordRe : regex :=
  seq (List.map oneOf ["Pp"; "Aa"; "Ss"; "Ss"; "Ww"; "Oo"; "Rr"; "Dd"]%string
       ++ quotedValue noQuote 4).

(** What [minimatch] builds from the glob [**/name/**]. *)
Definition globstarDirRe (name : string) : regex :=
  let p := seq [Star dot; lit "/"; lit name; lit "/"; Star dot] in
  Alt (seq [Bol; p; Eol])
    (Alt (seq [lit "/"; p; Eol])
       (Alt (seq [Bol; p; lit "/"]) (seq [lit "/"; p; lit "/"]))).

Definition compiled : list (jsstring * regex) :=
  [(str Secrets.apiKeySource, apiKeyRe);
   (str Secrets.secretSource, secretRe);
   (str Secrets.passwordSource, passwordRe);
   (str "^.*/node_modules/.*$|/.*/node_modules/.*$|^.*/node_modules/.*/|/.*/node_modules/.*/",
    globstarDirRe "node_modules");
   (str "^.*/\.git/.*$|/.*/\.git/.*$|^.*/\.git/.*/|/.*/\.git/.*/",
    globstarDirRe ".git");
   (str "^.*/dist/.*$|/.*/dist/.*$|^.*/dist/.*/|/.*/dist/.*/",
    globstarDirRe "dist")].

Fixpoint lookup (source : jsstring) (table : list (jsstring * regex))
  : option regex :=
  match table with
  | [] => None
  | (k, r) :: rest => if JS.eqb source k then Some r else lookup source rest
  end.

(** A source outside the table is answered as one that does not compile. *)
Definition compile (source : jsstring) : option RegExp :=
  option_map exec (lookup source compiled).

#[export] Instance runtime : Runtime := {|
  toLowerCase := List.map asciiLower;
  RegExp_new := compile;
  path_join := posixJoin;
  path_relative := posixRelative;
  path_extname := posixExtname
|}.

(** The line of the specification, [secret = ] and the quoted 16 code
    units, and a pattern that asks for the keyword [database] near it. *)
Definition secretLine : jsstring :=
  str "secret = " ++ [JSON.QUOTE] ++ str "abcdefgh12345678" ++ [JSON.QUOTE].

Definition databaseSecret : SecretPattern.t :=
  {| SecretPattern.name := str "Database Secret";
     SecretPattern.pattern := str Secrets.secretSource;
     SecretPattern.context := Some [str "database"];
     SecretPattern.description := str "Secret near a database setting" |}.

Definition positions (found : option (list SecretMatch.t))
  : option (list (nat * nat)) :=
  option_map
    (List.map (fun m => (SecretMatch.line m, SecretMatch.column m))) found.

(** Three documents for the dispatcher: a URL in a string, a block-comment
    opener in a string, and the commented document of the specification. *)
Definition urlDocument : jsstring :=
  str "{" ++ [JSON.QUOTE] ++ str "u" ++ [JSON.QUOTE] ++ str ":"
  ++ [JSON.QUOTE] ++ str "http://x" ++ [JSON.QUOTE] ++ str "}".

(** A commented document whose blocks nest twice, and its layout. *)
Definition nestedDocument : jsstring :=
  str "{" ++ [LF] ++ str "// c" ++ [LF] ++ str "x: [" ++ [LF] ++ str "1"
  ++ [LF] ++ str "]" ++ [LF] ++ str "}".

Definition nestedLayout : jsstring :=
  str "{" ++ [LF] ++ str "  // c" ++ [LF] ++ str "  x: [" ++ [LF]
  ++ str "    1" ++ [LF] ++ str "  ]" ++ [LF] ++ str "}" ++ [LF].

Definition openerDocument : jsstring :=
  str "{" ++ [JSON.QUOTE] ++ str "a" ++ [JSON.QUOTE] ++ str ":"
  ++ [JSON.QUOTE] ++ str "/*" ++ [JSON.QUOTE] ++ str "}".

Definition commentedDocument : jsstring :=
  str "// comment" ++ [LF]
  ++ str "{" ++ [JSON.QUOTE] ++ str "a" ++ [JSON.QUOTE] ++ str ":1}".

(** The document of the specification and its canonical text. *)
Definition sampleDocument : jsstring :=
  str "{" ++ [JSON.QUOTE] ++ str "a" ++ [JSON.QUOTE] ++ str ":1,"
  ++ [JSON.QUOTE] ++ str "b" ++ [JSON.QUOTE] ++ str ":[1,2,3]}".

Definition sampleFormatted : jsstring :=
  join [LF]
    [str "{";
     str "  " ++ [JSON.QUOTE] ++ str "a" ++ [JSON.QUOTE] ++ str ": 1,";
     str "  " ++ [JSON.QUOTE] ++ str "b" ++ [JSON.QUOTE] ++ str ": [";
     str "    1,";
     str "    2,";
     str "    3";
     str "  ]";
     str "}"]
  ++ [LF].

(** A document whose string holds an escaped slash before a slash. *)
Definition escapedSlashDocument : jsstring :=
  str "{" ++ [JSON.QUOTE] ++ str "a" ++ [JSON.QUOTE] ++ str ":"
  ++ [JSON.QUOTE] ++ str "x\u002f/" ++ [JSON.QUOTE] ++ str "}".

(** Two configuration files: one with an empty list of patterns and
    nothing else, one of the declared shape with three empty lists. *)
Definition patternsOnlyFile : jsstring :=
  str "{" ++ [JSON.QUOTE] ++ str "patterns" ++ [JSON.QUOTE] ++ str ": []}".

Definition emptyListsFile : jsstring :=
  str "{" ++ [JSON.QUOTE] ++ str "patterns" ++ [JSON.QUOTE] ++ str ": [], "
  ++ [JSON.QUOTE] ++ str "ignorePatterns" ++ [JSON.QUOTE] ++ str ": [], "
  ++ [JSON.QUOTE] ++ str "fileExtensions" ++ [JSON.QUOTE] ++ str ": []}".

(** The built-in configuration as a [SecretsConfig], and a small tree to
    scan: the script runs from [/repo/scripts]. *)
Definition builtIn : Secrets.SecretsConfig :=
  {| Secrets.patterns :=
       [{| SecretPattern.name := str "Generic API Key";
           SecretPattern.pattern := str Secrets.apiKeySource;
           SecretPattern.context := None;
           SecretPattern.description := str "Generic API Key pattern" |};
        {| SecretPattern.name := str "Generic Secret";
           SecretPattern.pattern := str Secrets.secretSource;
           SecretPattern.context := None;
           SecretPattern.description := str "Generic Secret pattern" |};
        {| SecretPattern.name := str "Generic Password";
           SecretPattern.pattern := str Secrets.passwordSource;
           SecretPattern.context := None;
           SecretPattern.description := str "Generic Password pattern" |}];
     Secrets.ignorePatterns :=
       [str "**/node_modules/**"; str "**/.git/**"; str "**/dist/**"];
     Secrets.fileExtensions :=
       [str ".json"; str ".yaml"; str ".yml"; str ".toml"; str ".env"] |}.

Definition scriptDir : jsstring := str "/repo/scripts".

Definition tree : list (jsstring * Secrets.Node) :=
  [(str "README.md", Secrets.File);
   (str "app.toml", Secrets.File);
   (str ".env", Secrets.File);
   (str ".cache", Secrets.Directory (Some [(str "x.json", Secrets.File)]));
   (str "pkg",
    Secrets.Directory
      (Some [(str "dist",
              Secrets.Directory (Some [(str "out.json", Secrets.File)]));
             (str "main.ts", Secrets.File);
             (str "settings.json", Secrets.File)]))].

Definition fileSystem : Secrets.FileSystem :=
  {| Secrets.rootEntries := Some tree;
     Secrets.readText :=
       fun path =>
         if JS.eqb path (str "/repo/app.toml")
         then Some (str "# Database settings" ++ [LF] ++ secretLine)
         else Some [] |}.

(** The same tree with other contents below the hidden directories, one
    of them inside [pkg]. *)
Definition treeWithCaches (cache : option (list (jsstring * Secrets.Node)))
  : list (jsstring * Secrets.Node) :=
  [(str "app.toml", Secrets.File);
   (str ".cache", Secrets.Directory cache);
   (str "pkg",
    Secrets.Directory
      (Some [(str ".cache", Secrets.Directory cache);
             (str "settings.json", Secrets.File)]))].

(** A second host, whose engine also knows the expression
    [[A-Za-z0-9_-]*]: it matches the empty string. *)
Definition wordRunSource : jsstring := str "[A-Za-z0-9_-]*".

Definition wordRunRuntime : Runtime := {|
  toLowerCase := List.map asciiLower;
  RegExp_new :=
    fun source =>
      option_map exec (lookup source ((wordRunSource, Star word_) :: compiled));
  path_join := posixJoin;
  path_relative := posixRelative;
  path_extname := posixExtname
|}.

Definition wordRun : SecretPattern.t :=
  {| SecretPattern.name := str "Token";
     SecretPattern.pattern := wordRunSource;
     SecretPattern.context := None;
     SecretPattern.description := str "A run of word characters" |}.

(** A pattern whose expression does not compile. *)
Definition unbalanced : SecretPattern.t :=
  {| SecretPattern.name := str "Unbalanced";
     SecretPattern.pattern := str "(";
     SecretPattern.context := None;
     SecretPattern.description := str "An unterminated group" |}.

(** A tree to format, and files in memory: a path that is not among them
    cannot be read. *)
Definition configTree : list (jsstring * Format.Dirent) :=
  [(str "zed",
    Format.DirectoryEntry
      (Some [(str "settings.json", Format.FileEntry);
             (str "notes.txt", Format.FileEntry)]));
   (str "node_modules",
    Format.DirectoryEntry (Some [(str "x.json", Format.FileEntry)]));
   (str "bun.lock", Format.FileEntry);
   (str "app.YAML", Format.FileEntry)].

Fixpoint readMemory (files : list (jsstring * jsstring)) (path : jsstring)
  : Format.Outcome jsstring :=
  match files with
  | [] => Format.Raises (str "ENOENT")
  | (p, text) :: rest =>
      if JS.eqb path p then Format.Returns text else readMemory rest path
  end.

#[export] Instance memory : Format.Disk := {|
  Format.disk := list (jsstring * jsstring);
  Format.readFile := readMemory;
  Format.writeFile :=
    fun files path text => ((path, text) :: files, Format.Returns tt)
|}.

Definition configFiles : list (jsstring * jsstring) :=
  [(str "/repo/zed/settings.json", sampleDocument);
   (str "/repo/app.YAML", str "a: 1  " ++ [LF; LF; LF] ++ str "b: 2")].

End Demo.

(** * Part II: the properties *)

(** ** Properties of the string primitives *)

Module JSFacts.

Lemma concat_repeat_single (A : Type) (x : A) (n : nat) :
  List.concat (List.repeat [x] n) = List.repeat x n.
Proof.
  induction n as [|n IH]; simpl; [reflexivity | now rewrite IH].
Qed.

Lemma repeat_single (c : char) (n : Z) :
  (0 <= n)%Z -> JS.repeat [c] n = Some (List.repeat c (Z.to_nat n)).
Proof.
  intros Hn. unfold JS.repeat.
  destruct (n <? 0)%Z eqn:E; [apply Z.ltb_lt in E; lia|].
  now unfold repeatN; rewrite concat_repeat_single.
Qed.

Lemma slice_prefix (s : jsstring) (n : nat) :
  slice s 0 (Some (Z.of_nat n)) = firstn n s.
Proof.
  unfold slice, clampIndex, len.
  change (0 <? 0)%Z with false. cbv iota.
  destruct (Z.of_nat n <? 0)%Z eqn:E; [apply Z.ltb_lt in E; lia|].
  rewrite (Z.min_l 0) by lia. change (Z.to_nat 0) with 0%nat.
  rewrite skipn_O, Z.sub_0_r.
  destruct (Nat.le_gt_cases n (List.length s)) as [H|H].
  - rewrite Z.min_l, Z.max_l by lia. now rewrite Nat2Z.id.
  - rewrite Z.min_r, Z.max_l by lia. rewrite Nat2Z.id.
    now rewrite !firstn_all2 by lia.
Qed.

Lemma slice_suffix (s : jsstring) (n : nat) :
  (0 < n)%nat -> (n <= List.length s)%nat ->
  slice s (- Z.of_nat n) None = skipn (List.length s - n) s.
Proof.
  intros Hpos Hle. unfold slice, clampIndex, len.
  destruct (- Z.of_nat n <? 0)%Z eqn:E; [|apply Z.ltb_ge in E; lia].
  rewrite (Z.max_l (_ + _) 0) by lia.
  replace (Z.to_nat (Z.of_nat (List.length s) + - Z.of_nat n))
    with (List.length s - n)%nat by lia.
  rewrite Z.max_l by lia.
  apply firstn_all2. rewrite length_skipn. lia.
Qed.

Lemma split_not_nil (sep : char) (s : jsstring) : split sep s <> [].
Proof.
  destruct s as [|c s]; simpl; [discriminate|].
  destruct (c =? sep)%N; [discriminate|].
  destruct (split sep s); discriminate.
Qed.

Lemma split_no_sep (sep : char) (s : jsstring) :
  existsb (N.eqb sep) s = false -> split sep s = [s].
Proof.
  induction s as [|c s IH]; simpl; intros Hs; [reflexivity|].
  apply orb_false_iff in Hs. destruct Hs as [Hc Hs].
  rewrite N.eqb_sym, Hc. now rewrite (IH Hs).
Qed.

Lemma split_length (sep : char) (s : jsstring) :
  List.length (split sep s) = S (List.length (filter (N.eqb sep) s)).
Proof.
  induction s as [|c s IH]; simpl; [reflexivity|].
  rewrite (N.eqb_sym sep c).
  destruct (c =? sep)%N; simpl; [now rewrite IH|].
  destruct (split sep s) as [|h t] eqn:E; [now destruct (split_not_nil _ _ E)|].
  simpl in *. exact IH.
Qed.

Lemma split_length_gt1 (sep : char) (s : jsstring) :
  existsb (N.eqb sep) s = true -> (1 < List.length (split sep s))%nat.
Proof.
  intros Hs. rewrite split_length.
  apply existsb_exists in Hs. destruct Hs as [x [Hin Hx]].
  assert (In x (filter (N.eqb sep) s)) as Hf by (apply filter_In; auto).
  destruct (filter (N.eqb sep) s); [destruct Hf | simpl; lia].
Qed.

(** The last piece of a split. *)
Lemma last_split_cons (sep c : char) (s : jsstring) :
  last (split sep (c :: s)) [] =
  if (c =? sep)%N || existsb (N.eqb sep) s then last (split sep s) []
  else c :: s.
Proof.
  simpl. destruct (c =? sep)%N; simpl.
  - destruct (split sep s) as [|h t] eqn:E; [now destruct (split_not_nil _ _ E)|].
    reflexivity.
  - destruct (existsb (N.eqb sep) s) eqn:Hs.
    + pose proof (split_length_gt1 _ _ Hs) as Hlen.
      destruct (split sep s) as [|h [|h' t]]; simpl in Hlen; try lia.
      reflexivity.
    + now rewrite (split_no_sep _ _ Hs).
Qed.

Lemma nth_error_last (A : Type) (l : list A) (d : A) :
  l <> [] -> nth_error l (List.length l - 1) = Some (last l d).
Proof.
  intros Hl. destruct (exists_last Hl) as [l' [a ->]].
  rewrite last_last, length_app, nth_error_app2 by (simpl; lia).
  simpl. replace (List.length l' + 1 - 1 - List.length l')%nat with 0%nat by lia.
  reflexivity.
Qed.

Lemma startsWith_spec (s p : jsstring) :
  startsWith s p = true <-> exists rest, s = p ++ rest.
Proof.
  revert s. induction p as [|c p IH]; intros s; simpl.
  - split; [intros _; now exists s | reflexivity].
  - destruct s as [|d s].
    + split; [discriminate | intros [rest H]; discriminate].
    + rewrite andb_true_iff, N.eqb_eq, IH. split.
      * intros [-> [rest ->]]. now exists rest.
      * intros [rest H]. injection H as -> ->. split; [reflexivity|].
        now exists rest.
Qed.

Lemma startsWith_app (p rest : jsstring) : startsWith (p ++ rest) p = true.
Proof. apply startsWith_spec. now exists rest. Qed.

Lemma includes_spec (s p : jsstring) :
  includes s p = true <-> exists before after, s = before ++ p ++ after.
Proof.
  induction s as [|c s IH].
  - simpl. rewrite orb_false_r, startsWith_spec. split.
    + intros [rest H]. now exists [], rest.
    + intros [before [after H]].
      destruct before; [now exists after|discriminate].
  - cbn [includes]. rewrite orb_true_iff, startsWith_spec, IH. split.
    + intros [[rest H]|[before [after H]]].
      * now exists [], rest.
      * exists (c :: before), after. now rewrite H.
    + intros [before [after H]]. destruct before as [|b before].
      * left. now exists after.
      * right. injection H as _ H. now exists before, after.
Qed.

(** [slice] between two indices that are not negative. *)
Lemma slice_between (s : jsstring) (a b : nat) :
  slice s (Z.of_nat a) (Some (Z.of_nat b)) = firstn (b - a) (skipn a s).
Proof.
  unfold slice, clampIndex, len.
  destruct (Z.of_nat a <? 0)%Z eqn:Ea; [apply Z.ltb_lt in Ea; lia|].
  destruct (Z.of_nat b <? 0)%Z eqn:Eb; [apply Z.ltb_lt in Eb; lia|].
  destruct (Nat.le_gt_cases a (List.length s)) as [Ha|Ha].
  - rewrite (Z.min_l (Z.of_nat a)) by lia. rewrite Nat2Z.id.
    destruct (Nat.le_gt_cases b (List.length s)) as [Hb|Hb].
    + rewrite Z.min_l by lia. f_equal. lia.
    + rewrite Z.min_r by lia.
      rewrite !firstn_all2; [reflexivity| |]; rewrite length_skipn; lia.
  - rewrite (Z.min_r (Z.of_nat a)) by lia. rewrite Nat2Z.id.
    rewrite !skipn_all2 by lia. now rewrite !firstn_nil.
Qed.

Lemma eqb_eq (a b : jsstring) : JS.eqb a b = true <-> a = b.
Proof.
  unfold JS.eqb. destruct (list_eq_dec N.eq_dec a b); split; congruence.
Qed.

Lemma eqb_neq (a b : jsstring) : JS.eqb a b = false <-> a <> b.
Proof.
  unfold JS.eqb. destruct (list_eq_dec N.eq_dec a b); split; congruence.
Qed.

Lemma dropWhile_head (p : char -> bool) (s : jsstring) (c : char)
  (r : jsstring) :
  dropWhile p s = c :: r -> p c = false.
Proof.
  induction s as [|x s IH]; cbn; [discriminate|].
  destruct (p x) eqn:E; [exact IH|].
  intros H. injection H as -> _. exact E.
Qed.

Lemma dropWhile_app_stop (p : char -> bool) (a : jsstring) (c : char) :
  p c = false -> dropWhile p (a ++ [c]) = dropWhile p a ++ [c].
Proof.
  intros Hc. induction a as [|x a IH]; cbn; [now rewrite Hc|].
  destruct (p x); [exact IH | reflexivity].
Qed.

Lemma trimEnd_cons (c : char) (x : jsstring) :
  isWhiteSpace c = false -> trimEnd (c :: x) = c :: trimEnd x.
Proof.
  intros Hc. unfold trimEnd. cbn [rev].
  rewrite dropWhile_app_stop by exact Hc.
  now rewrite rev_app_distr.
Qed.

Lemma trim_head (s : jsstring) (c : char) (r : jsstring) :
  trim s = c :: r -> isWhiteSpace c = false.
Proof.
  unfold trim, trimStart.
  destruct (dropWhile isWhiteSpace s) as [|x d] eqn:E; [discriminate|].
  pose proof (dropWhile_head _ _ _ _ E) as Hx.
  rewrite trimEnd_cons by exact Hx. intros H. injection H as <- _. exact Hx.
Qed.

Lemma trim_cons (c : char) (x : jsstring) :
  isWhiteSpace c = false -> trim (c :: x) = c :: trimEnd x.
Proof.
  intros Hc. unfold trim, trimStart. cbn [dropWhile]. rewrite Hc.
  now apply trimEnd_cons.
Qed.

Lemma snoc_cases (w : jsstring) : w = [] \/ exists w0 x0, w = w0 ++ [x0].
Proof.
  destruct w as [|x w] using rev_ind; [now left | right; now exists w, x].
Qed.

Lemma dropWhile_split (p : char -> bool) (s : jsstring) :
  exists w, s = w ++ dropWhile p s /\ Forall (fun c => p c = true) w.
Proof.
  induction s as [|c s [w [Hs Hw]]]; cbn.
  - exists []. split; [reflexivity | constructor].
  - destruct (p c) eqn:E.
    + exists (c :: w). split; [cbn; now f_equal | now constructor].
    + exists []. split; [reflexivity | constructor].
Qed.

Lemma join_cons2 (sep p q : jsstring) (ps : list jsstring) :
  join sep (p :: q :: ps) = p ++ sep ++ join sep (q :: ps).
Proof. reflexivity. Qed.

End JSFacts.

(** ** The masking engine *)

Module MaskingSpec.
Import Secrets JSFacts.

(** The general rule of the masking engine (shared by the results below). *)
Lemma maskSecret_rule (v : jsstring) :
  maskSecret v =
  Some (if (List.length v <=? 8)%nat
        then List.repeat STAR (List.length v)
        else firstn 4 v
             ++ List.repeat STAR (Nat.min (List.length v - 8) 16)
             ++ skipn (List.length v - 4) v).
Proof.
  unfold maskSecret.
  destruct (List.length v <=? 8)%nat eqn:E.
  - apply Nat.leb_le in E.
    replace (len v <=? 8)%Z with true
      by (symmetry; apply Z.leb_le; unfold len; lia).
    rewrite repeat_single by (unfold len; lia).
    unfold len. now rewrite Nat2Z.id.
  - apply Nat.leb_gt in E.
    replace (len v <=? 8)%Z with false
      by (symmetry; apply Z.leb_gt; unfold len; lia).
    rewrite repeat_single by (unfold len; lia).
    change (slice v 0 (Some 4%Z)) with (slice v 0 (Some (Z.of_nat 4))).
    change (slice v (-4) None) with (slice v (- Z.of_nat 4) None).
    rewrite (slice_prefix v 4).
    rewrite (slice_suffix v 4) by lia.
    replace (Z.to_nat (Z.min (len v - 8) 16))
      with (Nat.min (List.length v - 8) 16) by (unfold len; lia).
    reflexivity.
Qed.

(** C1, as stated, fails on its second instance: the last four code units
    of ["123456789012345678901"] are ["8901"], not ["7890"]. *)
Lemma maskSecret_21_not_7890 :
  maskSecret (str "123456789012345678901")
  <> Some (str "1234" ++ List.repeat STAR 13 ++ str "7890").
Proof. vm_compute. discriminate. Qed.

(** C1 (amended).  [maskSecret] returns on every input (it never raises).
    A value of at most 8 code units becomes as many asterisks; a longer one
    keeps its first 4 and last 4 code units around [min (length - 8) 16]
    asterisks.  On ["abcd1234"] the result is eight asterisks, and on the
    21 code units ["123456789012345678901"] it is ["1234"], 13 asterisks,
    then ["8901"]. *)
Theorem maskSecret_spec :
  (forall v : jsstring,
      maskSecret v =
      Some (if (List.length v <=? 8)%nat
            then List.repeat STAR (List.length v)
            else firstn 4 v
                 ++ List.repeat STAR (Nat.min (List.length v - 8) 16)
                 ++ skipn (List.length v - 4) v))
  /\ maskSecret (str "abcd1234") = Some (str "********")
  /\ maskSecret (str "123456789012345678901")
     = Some (str "1234" ++ List.repeat STAR 13 ++ str "8901").
Proof.
  split; [exact maskSecret_rule | split; reflexivity].
Qed.

End MaskingSpec.

(** ** Line and column of a match *)

Module PositionSpec.
Import Secrets JSFacts.

Lemma lastIndexFrom_spec (s : jsstring) :
  forall i found,
    lastIndexFrom i s found =
    if existsb (N.eqb LF) s
    then (i + len s - 1 - len (last (split LF s) []))%Z
    else found.
Proof.
  induction s as [|c s IH]; intros i found; [reflexivity|].
  cbn [lastIndexFrom existsb]. rewrite IH, last_split_cons.
  rewrite (N.eqb_sym LF c).
  destruct (c =? LF)%N; cbn [orb].
  - destruct (existsb (N.eqb LF) s) eqn:Hs.
    + unfold len. cbn [List.length]. lia.
    + rewrite (split_no_sep _ _ Hs). cbn [last].
      unfold len. cbn [List.length]. lia.
  - destruct (existsb (N.eqb LF) s) eqn:Hs; [|reflexivity].
    unfold len. cbn [List.length]. lia.
Qed.

Lemma getLineContext_line (content : jsstring) (i : nat) :
  fst (fst (getLineContext content i)) = (newlinesBefore content i + 1)%nat.
Proof.
  unfold getLineContext, newlinesBefore. cbn [fst].
  rewrite slice_prefix, split_length. lia.
Qed.

Lemma getLineContext_column (content : jsstring) (i : nat) :
  (i <= List.length content)%nat ->
  Z.of_nat (snd (fst (getLineContext content i)))
  = (Z.of_nat i - lastNewlineBefore content i)%Z.
Proof.
  intros Hi. unfold getLineContext, lastNewlineBefore. cbn [fst snd].
  rewrite slice_prefix.
  rewrite (nth_error_last _ (split LF (firstn i content)) [])
    by apply split_not_nil.
  rewrite lastIndexFrom_spec.
  assert (len (firstn i content) = Z.of_nat i) as Hlen
      by (unfold len; rewrite length_firstn; lia).
  destruct (existsb (N.eqb LF) (firstn i content)) eqn:Hs.
  - rewrite Hlen. unfold len. lia.
  - rewrite (split_no_sep _ _ Hs). cbn [last].
    unfold len in Hlen. lia.
Qed.

(** The 28 code units of the content of the specification: [a], a newline,
    then the line with the key and a final newline. *)
Lemma position_example :
  option_map
    (List.map (fun m => (SecretMatch.line m, SecretMatch.column m)))
    (forPatterns (RT := Demo.runtime) 100
       (str "a" ++ [LF] ++ str "apiKey: " ++ [JSON.QUOTE]
        ++ str "0123456789abcdef" ++ [JSON.QUOTE; LF])
       (str "config.json")
       [{| SecretPattern.name := str "Generic API Key";
           SecretPattern.pattern := str apiKeySource;
           SecretPattern.context := None;
           SecretPattern.description := str "Generic API Key pattern" |}]
       [])
  = Some [(2%nat, 1%nat)].
Proof. vm_compute. reflexivity. Qed.

(** C6.  For a match that starts at offset [i] of the content, the line
    [getLineContext] reports is the number of newlines before [i] plus 1,
    and the column is [i] minus the index of the last newline before [i]
    (an index of -1 when there is none), both 1-based.  On the content of
    the specification the scanner reports the key on line 2, column 1. *)
Theorem getLineContext_position :
  forall (content : jsstring) (i : nat),
    (i <= List.length content)%nat ->
    fst (fst (getLineContext content i)) = (newlinesBefore content i + 1)%nat
    /\ Z.of_nat (snd (fst (getLineContext content i)))
       = (Z.of_nat i - lastNewlineBefore content i)%Z
    /\ option_map
         (List.map (fun m => (SecretMatch.line m, SecretMatch.column m)))
         (forPatterns (RT := Demo.runtime) 100
            (str "a" ++ [LF] ++ str "apiKey: " ++ [JSON.QUOTE]
             ++ str "0123456789abcdef" ++ [JSON.QUOTE; LF])
            (str "config.json")
            [{| SecretPattern.name := str "Generic API Key";
                SecretPattern.pattern := str apiKeySource;
                SecretPattern.context := None;
                SecretPattern.description := str "Generic API Key pattern" |}]
            [])
       = Some [(2%nat, 1%nat)].
Proof.
  intros content i Hi. split; [apply getLineContext_line|].
  split; [now apply getLineContext_column | exact position_example].
Qed.

Lemma getLineContext_position_witness :
  (7 <= List.length (str "ab" ++ [LF] ++ str "cd" ++ [LF] ++ str "key=1"))%nat
  /\ fst (fst (getLineContext
                 (str "ab" ++ [LF] ++ str "cd" ++ [LF] ++ str "key=1") 7))
     = (newlinesBefore (str "ab" ++ [LF] ++ str "cd" ++ [LF] ++ str "key=1") 7
        + 1)%nat.
Proof.
  split.
  - vm_compute. lia.
  - apply (getLineContext_position
             (str "ab" ++ [LF] ++ str "cd" ++ [LF] ++ str "key=1") 7).
    vm_compute. lia.
Defined.

End PositionSpec.

(** ** Context gating *)

Module GatingSpec.
Import Secrets JSFacts.

Section Gating.
Context {RT : Runtime}.

Lemma window_slice (content : jsstring) (index : nat) (m0 : jsstring) :
  slice content (Z.max 0 (Z.of_nat index - 100))
    (Some (Z.of_nat index + len m0 + 100)%Z)
  = window content index (index + List.length m0).
Proof.
  unfold window.
  replace (Z.max 0 (Z.of_nat index - 100)) with (Z.of_nat (index - 100))
    by lia.
  replace (Z.of_nat index + len m0 + 100)%Z
    with (Z.of_nat (index + List.length m0 + 100)) by (unfold len; lia).
  apply slice_between.
Qed.

Lemma hasContext_spec (content : jsstring) (ctxs : list jsstring)
  (m : nat * jsstring) :
  hasContext content ctxs m = true <->
  exists keyword,
    In keyword ctxs
    /\ occursNoCase keyword
         (window content (fst m) (fst m + List.length (snd m))).
Proof.
  unfold hasContext, occursNoCase, occursIn.
  rewrite window_slice, existsb_exists.
  split; intros [kw [Hin H]]; exists kw; (split; [exact Hin|]);
    now apply includes_spec.
Qed.

(** The loop pushes, in order, the reports of the matches that pass the
    test, and it ends as soon as [exec] has answered [null]. *)
Lemma execLoop_trace (regex : RegExp) (content relativePath : jsstring)
  (pc : SecretPattern.t) (ctxs : list jsstring) :
  SecretPattern.context pc = Some ctxs ->
  ctxs <> [] ->
  forall lastIndex ms,
    ExecTrace regex content lastIndex ms ->
    forall fuel matches,
      (List.length ms < fuel)%nat ->
      execLoop fuel regex content relativePath pc lastIndex matches
      = Some (matches
              ++ List.map (report content relativePath pc)
                   (filter (hasContext content ctxs) ms)).
Proof.
  intros Hctx Hne lastIndex ms Htrace.
  induction Htrace as [lastIndex Hnull|lastIndex index m0 rest Hexec _ IH];
    intros [|fuel] matches Hfuel; cbn [List.length] in Hfuel; try lia.
  - cbn [execLoop]. rewrite Hnull. cbn. now rewrite app_nil_r.
  - cbn [execLoop]. rewrite Hexec, Hctx.
    destruct ctxs as [|c0 ctxs']; [congruence|].
    change (0 <? List.length (c0 :: ctxs'))%nat with true. cbv iota.
    match goal with
    | |- context [negb ?e] =>
        change e with (hasContext content (c0 :: ctxs') (index, m0))
    end.
    cbn [filter].
    destruct (hasContext content (c0 :: ctxs') (index, m0)) eqn:Hk;
      cbn [negb]; cbv iota.
    + destruct (getLineContext content index) as [[line column] context]
        eqn:Hg.
      rewrite MaskingSpec.maskSecret_rule.
      rewrite IH by lia. cbn [List.map]. rewrite <- app_assoc.
      do 2 f_equal. cbn [app]. f_equal.
      unfold report. cbn [fst snd].
      now rewrite Hg, MaskingSpec.maskSecret_rule.
    + apply IH. lia.
Qed.

End Gating.

(** C2.  For a pattern with a non-empty list of context keywords, the
    matches [exec] yields on the content are kept exactly when some keyword
    occurs, both lower-cased, in the window from 100 code units before the
    start of the match to 100 code units after its end; the loop returns
    the reports of the kept matches in order.  With the keyword [database],
    the line of the specification alone gives no match; it gives one when
    the word stands on the line before, or 92 code units before the match,
    and none when the word starts more than 100 code units before it. *)
Theorem context_gating :
  forall (RT : Runtime) (regex : RegExp) (content relativePath : jsstring)
         (pc : SecretPattern.t) (ctxs : list jsstring)
         (ms : list (nat * jsstring)),
    SecretPattern.context pc = Some ctxs ->
    ctxs <> [] ->
    ExecTrace regex content 0 ms ->
    (exists keep : nat * jsstring -> bool,
        (forall m,
            keep m = true <->
            exists keyword,
              In keyword ctxs
              /\ occursNoCase keyword
                   (window content (fst m) (fst m + List.length (snd m))))
        /\ exists fuel,
            execLoop fuel regex content relativePath pc 0 []
            = Some (List.map (report content relativePath pc) (filter keep ms)))
    /\ forPatterns (RT := Demo.runtime) 100 Demo.secretLine (str "app.toml")
         [Demo.databaseSecret] [] = Some []
    /\ Demo.positions
         (forPatterns (RT := Demo.runtime) 100
            (str "# Database settings" ++ [LF] ++ Demo.secretLine)
            (str "app.toml") [Demo.databaseSecret] [])
       = Some [(2%nat, 1%nat)]
    /\ Demo.positions
         (forPatterns (RT := Demo.runtime) 100
            (str "database" ++ List.repeat 32%N 92 ++ Demo.secretLine)
            (str "app.toml") [Demo.databaseSecret] [])
       = Some [(1%nat, 101%nat)]
    /\ forPatterns (RT := Demo.runtime) 100
         (str "database" ++ List.repeat 32%N 93 ++ Demo.secretLine)
         (str "app.toml") [Demo.databaseSecret] [] = Some [].
Proof.
  intros RT regex content relativePath pc ctxs ms Hctx Hne Htrace.
  split; [|repeat split; vm_compute; reflexivity].
  exists (hasContext content ctxs). split.
  - intros m. apply hasContext_spec.
  - exists (S (List.length ms)).
    now rewrite (execLoop_trace regex content relativePath pc ctxs Hctx Hne
                   0 ms Htrace) by lia.
Qed.

Lemma context_gating_witness :
  exists keep : nat * jsstring -> bool,
    (forall m,
        keep m = true <->
        exists keyword,
          In keyword [str "database"]
          /\ occursNoCase (RT := Demo.runtime) keyword
               (window (str "# Database settings" ++ [LF] ++ Demo.secretLine)
                  (fst m) (fst m + List.length (snd m))))
    /\ exists fuel,
        execLoop (RT := Demo.runtime) fuel (Regex.exec Demo.secretRe)
          (str "# Database settings" ++ [LF] ++ Demo.secretLine)
          (str "app.toml") Demo.databaseSecret 0 []
        = Some (List.map
                  (report (str "# Database settings" ++ [LF] ++ Demo.secretLine)
                     (str "app.toml") Demo.databaseSecret)
                  (filter keep [(20%nat, Demo.secretLine)])).
Proof.
  apply (context_gating Demo.runtime (Regex.exec Demo.secretRe)
           (str "# Database settings" ++ [LF] ++ Demo.secretLine)
           (str "app.toml") Demo.databaseSecret [str "database"]
           [(20%nat, Demo.secretLine)]).
  - reflexivity.
  - discriminate.
  - apply trace_match; [vm_compute; reflexivity|].
    apply trace_null. vm_compute. reflexivity.
Defined.

End GatingSpec.

(** ** The directory traversal *)

Module TraversalSpec.
Import Secrets JSFacts.

(** Induction on a tree of nodes, through the entries of a directory. *)
Lemma Node_induction (P : Node -> Prop) :
  P File -> P Other -> P NoAccess -> P (Directory None) ->
  (forall es, Forall (fun e => P (snd e)) es -> P (Directory (Some es))) ->
  forall n, P n.
Proof.
  intros HFile HOther HNo HNone HSome.
  fix IH 1. intros [|[es|]| |]; try assumption.
  apply HSome.
  induction es as [|[e child] es IHes]; constructor.
  - exact (IH child).
  - exact IHes.
Qed.

Section Traversal.
Context {RT : Runtime}.
Variable import_meta_dir : jsstring.
Variable config : SecretsConfig.

Lemma walkEntries_counted (currentDir : jsstring) (es : list (jsstring * Node)) :
  Forall (fun e => Tracks import_meta_dir config (snd e)) es ->
  forall files scanned,
    walkEntries import_meta_dir config currentDir es (files, scanned)
    = (files
       ++ filter (fun p => hasValidExtension p (fileExtensions config))
            (countedEntries import_meta_dir config currentDir es),
       (scanned
        + List.length (countedEntries import_meta_dir config currentDir es))%nat).
Proof.
  induction 1 as [|[e child] es Hchild _ IH]; intros files scanned.
  - cbn. now rewrite app_nil_r, Nat.add_0_r.
  - cbn [walkEntries countedEntries].
    destruct (shouldIgnore import_meta_dir (path_join currentDir e)
                (ignorePatterns config)) as [[|]|].
    + apply IH.
    + cbn [snd] in Hchild. rewrite Hchild, IH.
      rewrite filter_app, length_app, app_assoc. f_equal. lia.
    + cbn. now rewrite app_nil_r, Nat.add_0_r.
Qed.

(** The loop inside [visit] is the loop of [walk]. *)
Lemma visit_directory (fullPath entry : jsstring)
  (es : list (jsstring * Node)) (st : list jsstring * nat) :
  visit import_meta_dir config fullPath entry (Directory (Some es)) st
  = if negb (startsWith entry (str ".")) || JS.eqb entry (str ".config")
    then walkEntries import_meta_dir config fullPath es st
    else st.
Proof.
  cbn [visit].
  destruct (negb (startsWith entry (str ".")) || JS.eqb entry (str ".config"));
    [|reflexivity].
  revert st. induction es as [|[e child] es IH]; intros st; [reflexivity|].
  cbn [walkEntries].
  destruct (shouldIgnore import_meta_dir (path_join fullPath e)
              (ignorePatterns config)) as [[|]|]; try reflexivity; apply IH.
Qed.

Lemma counted_directory (fullPath entry : jsstring)
  (es : list (jsstring * Node)) :
  counted import_meta_dir config fullPath entry (Directory (Some es))
  = if negb (startsWith entry (str ".")) || JS.eqb entry (str ".config")
    then countedEntries import_meta_dir config fullPath es
    else [].
Proof.
  cbn [counted].
  destruct (negb (startsWith entry (str ".")) || JS.eqb entry (str ".config"));
    [|reflexivity].
  induction es as [|[e child] es IH]; [reflexivity|].
  cbn [countedEntries].
  destruct (shouldIgnore import_meta_dir (path_join fullPath e)
              (ignorePatterns config)) as [[|]|]; try reflexivity.
  - apply IH.
  - f_equal. apply IH.
Qed.

Lemma visit_counted (n : Node) : Tracks import_meta_dir config n.
Proof.
  induction n as [| | | |es IH] using Node_induction;
    intros fullPath entry files scanned.
  - cbn [visit counted].
    destruct (hasValidExtension fullPath (fileExtensions config)) eqn:E;
      cbn [filter]; rewrite E; cbn [List.length].
    + f_equal. lia.
    + rewrite app_nil_r. f_equal. lia.
  - cbn. now rewrite app_nil_r, Nat.add_0_r.
  - cbn. now rewrite app_nil_r, Nat.add_0_r.
  - cbn. destruct (_ || _); cbn; now rewrite app_nil_r, Nat.add_0_r.
  - rewrite visit_directory, counted_directory.
    destruct (negb (startsWith entry (str ".")) || JS.eqb entry (str ".config")).
    + now apply walkEntries_counted.
    + cbn. now rewrite app_nil_r, Nat.add_0_r.
Qed.

Lemma scanDirectory_counted (dir : jsstring)
  (entries : option (list (jsstring * Node))) :
  scanDirectory import_meta_dir dir entries config
  = (filter (fun p => hasValidExtension p (fileExtensions config))
       (countedFrom import_meta_dir config dir entries),
     List.length (countedFrom import_meta_dir config dir entries)).
Proof.
  unfold scanDirectory, walk, countedFrom. destruct entries as [es|].
  - rewrite walkEntries_counted; [reflexivity|].
    apply Forall_forall. intros e _. apply visit_counted.
  - reflexivity.
Qed.

(** No glob of the list matches a path [shouldIgnore] answers [false] on. *)
Lemma someM_false (A : Type) (f : A -> option bool) (l : list A) :
  someM f l = Some false -> forall x, In x l -> f x = Some false.
Proof.
  induction l as [|y l IH]; intros H x Hin; [destruct Hin|].
  cbn in H. destruct (f y) as [[|]|] eqn:Ey; try discriminate.
  destruct Hin as [->|Hin]; [exact Ey | now apply IH].
Qed.

Lemma shouldIgnore_false (filePath : jsstring) :
  shouldIgnore import_meta_dir filePath (ignorePatterns config) = Some false ->
  ~ matchesIgnore import_meta_dir config filePath.
Proof.
  intros H [glob [Hin Hm]]. unfold shouldIgnore in H.
  pose proof (someM_false _ _ _ H glob Hin) as Hf. cbv beta in Hf. congruence.
Qed.

(** Every counted path was answered [false] by [shouldIgnore]; below a
    node, it may also be the path the node itself was reached by. *)
Lemma countedEntries_checked_from (currentDir : jsstring)
  (es : list (jsstring * Node)) :
  Forall
    (fun e =>
       forall fullPath entry p,
         In p (counted import_meta_dir config fullPath entry (snd e)) ->
         p = fullPath
         \/ shouldIgnore import_meta_dir p (ignorePatterns config) = Some false)
    es ->
  forall p,
    In p (countedEntries import_meta_dir config currentDir es) ->
    shouldIgnore import_meta_dir p (ignorePatterns config) = Some false.
Proof.
  induction 1 as [|[e child] es Hchild _ IHes]; intros p Hin; [destruct Hin|].
  cbn [countedEntries] in Hin.
  destruct (shouldIgnore import_meta_dir (path_join currentDir e)
              (ignorePatterns config)) as [[|]|] eqn:Hs.
  - now apply IHes.
  - apply in_app_or in Hin. destruct Hin as [Hin|Hin]; [|now apply IHes].
    cbn [snd] in Hchild. destruct (Hchild _ _ _ Hin) as [->|H]; assumption.
  - destruct Hin.
Qed.

Lemma counted_checked (n : Node) :
  forall fullPath entry p,
    In p (counted import_meta_dir config fullPath entry n) ->
    p = fullPath
    \/ shouldIgnore import_meta_dir p (ignorePatterns config) = Some false.
Proof.
  induction n as [| | | |es IH] using Node_induction;
    intros fullPath entry p Hin; try (now destruct Hin).
  - destruct Hin as [<-|[]]. now left.
  - cbn in Hin. now destruct (_ || _).
  - rewrite counted_directory in Hin.
    destruct (negb (startsWith entry (str ".")) || JS.eqb entry (str ".config"));
      [|destruct Hin].
    right. now apply (countedEntries_checked_from fullPath es IH).
Qed.

Lemma countedFrom_checked (dir : jsstring)
  (entries : option (list (jsstring * Node))) (p : jsstring) :
  In p (countedFrom import_meta_dir config dir entries) ->
  shouldIgnore import_meta_dir p (ignorePatterns config) = Some false.
Proof.
  destruct entries as [es|]; [|intros []].
  apply countedEntries_checked_from.
  apply Forall_forall. intros e _. apply counted_checked.
Qed.

(** The two counts of the [ScanResult] are those of [scanDirectory]. *)
Lemma main_counts (fuel : nat) (fs : FileSystem) (r : ScanResult) :
  main import_meta_dir fuel config fs = Some r ->
  totalFiles r
  = List.length
      (fst (scanDirectory import_meta_dir (ROOT_DIR import_meta_dir)
              (rootEntries fs) config))
  /\ scannedFiles r
     = snd (scanDirectory import_meta_dir (ROOT_DIR import_meta_dir)
              (rootEntries fs) config).
Proof.
  unfold main.
  destruct (scanDirectory import_meta_dir (ROOT_DIR import_meta_dir)
              (rootEntries fs) config) as [files scanned].
  destruct (scanFiles import_meta_dir fuel fs files (patterns config) []);
    [|discriminate].
  intros H. injection H as <-. now split.
Qed.

End Traversal.

(** C8.  A file whose path matches a glob of [ignorePatterns] is not
    among the files the traversal counts, whatever its extension: in the
    [ScanResult], [scannedFiles] is the number of the counted files and
    [totalFiles] the number of those that pass the extension filter, and
    the path is none of them. *)
Theorem ignore_precedence :
  forall (RT : Runtime) (import_meta_dir : jsstring) (config : SecretsConfig)
         (fuel : nat) (fs : FileSystem) (r : ScanResult) (filePath : jsstring),
    matchesIgnore import_meta_dir config filePath ->
    main import_meta_dir fuel config fs = Some r ->
    ~ In filePath
        (countedFrom import_meta_dir config (ROOT_DIR import_meta_dir)
           (rootEntries fs))
    /\ ~ In filePath
          (fst (scanDirectory import_meta_dir (ROOT_DIR import_meta_dir)
                  (rootEntries fs) config))
    /\ scannedFiles r
       = List.length
           (countedFrom import_meta_dir config (ROOT_DIR import_meta_dir)
              (rootEntries fs))
    /\ totalFiles r
       = List.length
           (filter (fun p => hasValidExtension p (fileExtensions config))
              (countedFrom import_meta_dir config (ROOT_DIR import_meta_dir)
                 (rootEntries fs))).
Proof.
  intros RT imd config fuel fs r filePath Hign Hmain.
  destruct (main_counts imd config fuel fs r Hmain) as [Htotal Hscanned].
  rewrite scanDirectory_counted in *. cbn [fst snd] in *.
  assert (~ In filePath
            (countedFrom imd config (ROOT_DIR imd) (rootEntries fs))) as Hout.
  { intros Hin. apply countedFrom_checked in Hin.
    now apply (shouldIgnore_false imd config filePath Hin). }
  repeat split; try assumption.
  intros Hin. apply filter_In in Hin. now destruct Hin.
Qed.

Lemma ignore_precedence_witness :
  hasValidExtension (RT := Demo.runtime) (str "/repo/pkg/dist/out.json")
    (fileExtensions Demo.builtIn) = true
  /\ ~ In (str "/repo/pkg/dist/out.json")
         (countedFrom (RT := Demo.runtime) Demo.scriptDir Demo.builtIn
            (ROOT_DIR Demo.scriptDir) (rootEntries Demo.fileSystem)).
Proof.
  split; [vm_compute; reflexivity|].
  destruct (main (RT := Demo.runtime) Demo.scriptDir 100 Demo.builtIn
              Demo.fileSystem) as [r|] eqn:Hmain;
    [|vm_compute in Hmain; discriminate].
  refine (proj1 (ignore_precedence Demo.runtime Demo.scriptDir Demo.builtIn
                   100 Demo.fileSystem r (str "/repo/pkg/dist/out.json")
                   _ Hmain)).
  exists (str "**/dist/**"). split; [cbn; auto | vm_compute; reflexivity].
Defined.

(** C10.  In the [ScanResult] of a run, [totalFiles] is at most
    [scannedFiles]: [scannedFiles] is the number of regular files the
    traversal reaches, each of them answered [false] by [shouldIgnore],
    whatever their extension, and [totalFiles] is the number of those whose
    extension passes the filter. *)
Theorem totalFiles_le_scannedFiles :
  forall (RT : Runtime) (import_meta_dir : jsstring) (config : SecretsConfig)
         (fuel : nat) (fs : FileSystem) (r : ScanResult),
    main import_meta_dir fuel config fs = Some r ->
    (totalFiles r <= scannedFiles r)%nat
    /\ scannedFiles r
       = List.length
           (countedFrom import_meta_dir config (ROOT_DIR import_meta_dir)
              (rootEntries fs))
    /\ totalFiles r
       = List.length
           (filter (fun p => hasValidExtension p (fileExtensions config))
              (countedFrom import_meta_dir config (ROOT_DIR import_meta_dir)
                 (rootEntries fs)))
    /\ forall p,
         In p (countedFrom import_meta_dir config (ROOT_DIR import_meta_dir)
                 (rootEntries fs)) ->
         shouldIgnore import_meta_dir p (ignorePatterns config) = Some false.
Proof.
  intros RT imd config fuel fs r Hmain.
  destruct (main_counts imd config fuel fs r Hmain) as [Htotal Hscanned].
  rewrite scanDirectory_counted in *. cbn [fst snd] in *.
  repeat split; try assumption.
  - rewrite Htotal, Hscanned. apply filter_length_le.
  - intros p. apply countedFrom_checked.
Qed.

Lemma totalFiles_le_scannedFiles_witness :
  exists r,
    main (RT := Demo.runtime) Demo.scriptDir 100 Demo.builtIn Demo.fileSystem
    = Some r
    /\ totalFiles r = 3%nat /\ scannedFiles r = 5%nat
    /\ (totalFiles r <= scannedFiles r)%nat.
Proof.
  eexists. split; [vm_compute; reflexivity|].
  split; [reflexivity|]. split; [reflexivity|].
  eapply (totalFiles_le_scannedFiles Demo.runtime Demo.scriptDir Demo.builtIn
            100 Demo.fileSystem).
  vm_compute. reflexivity.
Defined.

End TraversalSpec.

(** ** The JSONC reformatter: one line at a time *)

Module IndentSpec.
Import Format JSFacts.

Lemma startsWithClosingRe_spec (t : jsstring) :
  startsWithClosingRe t = true <-> ClosingPrefixed t.
Proof.
  unfold startsWithClosingRe, ClosingPrefixed, beginsWith.
  destruct t as [|c t].
  - split; [discriminate | intros [[r H]|[r H]]; discriminate].
  - rewrite orb_true_iff, !N.eqb_eq. split.
    + intros [->| ->]; [left|right]; now exists t.
    + intros [[r H]|[r H]]; injection H as -> _; auto.
Qed.

Lemma endsWithOpenRe_spec (t : jsstring) :
  endsWithOpenRe t = true <-> EndsWithOpener t.
Proof.
  unfold endsWithOpenRe, EndsWithOpener.
  destruct (rev t) as [|c r] eqn:E.
  - apply (f_equal (@rev char)) in E. rewrite rev_involutive in E.
    subst t. split; [discriminate|].
    intros [front [H|H]]; destruct front; discriminate.
  - apply (f_equal (@rev char)) in E. rewrite rev_involutive in E.
    cbn in E. subst t. rewrite orb_true_iff, !N.eqb_eq. split.
    + intros [->| ->]; exists (rev r); [left|right]; reflexivity.
    + intros [front [H|H]]; apply app_inj_tail in H; destruct H as [_ ->];
        auto.
Qed.

Lemma closesOnLine_spec (close : char) (s : jsstring) :
  closesOnLine close s = true <->
  exists b rest,
    s = b ++ [close] ++ rest /\ Forall (fun x => isLineTerminator x = false) b.
Proof.
  induction s as [|c s IH]; cbn [closesOnLine].
  - split; [discriminate|]. intros [b [rest [H _]]]. destruct b; discriminate.
  - destruct (c =? close)%N eqn:Ec.
    + apply N.eqb_eq in Ec. subst c. split; [|reflexivity].
      intros _. exists [], s. split; [reflexivity | constructor].
    + apply N.eqb_neq in Ec.
      destruct (isLineTerminator c) eqn:Elt.
      * split; [discriminate|]. intros [b [rest [H Hb]]].
        destruct b as [|x b]; injection H as -> H; [congruence|].
        inversion Hb; congruence.
      * rewrite IH. split.
        -- intros [b [rest [-> Hb]]]. exists (c :: b), rest.
           split; [reflexivity | now constructor].
        -- intros [b [rest [H Hb]]].
           destruct b as [|x b]; injection H as -> H; [congruence|].
           exists b, rest. split; [exact H | now inversion Hb].
Qed.

Lemma pairRe_spec (open close : char) (s : jsstring) :
  pairRe open close s = true <-> SameLinePair open close s.
Proof.
  unfold SameLinePair. induction s as [|c s IH]; cbn [pairRe].
  - split; [discriminate|]. intros [a [b [r [H _]]]]. destruct a; discriminate.
  - rewrite orb_true_iff, andb_true_iff, N.eqb_eq, closesOnLine_spec, IH.
    split.
    + intros [[-> [b [rest [-> Hb]]]]|[a [b [r [-> Hb]]]]].
      * now exists [], b, rest.
      * now exists (c :: a), b, r.
    + intros [a [b [r [H Hb]]]]. destruct a as [|x a]; injection H as -> H.
      * left. split; [reflexivity|]. now exists b, r.
      * right. now exists a, b, r.
Qed.

Lemma inlineCommentFrom_code (rest : jsstring) :
  forall acc code comment,
    inlineCommentFrom acc rest = Some (code, comment) ->
    exists more, code = rev acc ++ more.
Proof.
  induction rest as [|c rest IH]; intros acc code comment; cbn [inlineCommentFrom].
  - destruct (commentTail []); [|discriminate].
    intros H. injection H as <- _. exists []. now rewrite app_nil_r.
  - destruct (commentTail (c :: rest)).
    + intros H. injection H as <- _. exists []. now rewrite app_nil_r.
    + destruct (isLineTerminator c); [discriminate|].
      intros H. apply IH in H. destruct H as [more ->].
      exists (c :: more). cbn [rev]. now rewrite <- app_assoc.
Qed.

(** What is pushed for a line that is not a comment starts with the first
    code unit of the trimmed line, which is not white space. *)
Lemma pushed_body (t : jsstring) :
  t <> [] ->
  (forall c r, t = c :: r -> isWhiteSpace c = false) ->
  exists c r,
    match inlineCommentMatch t with
    | Some (code, comment) => trim code ++ str " " ++ comment
    | None => t
    end = c :: r
    /\ isWhiteSpace c = false.
Proof.
  intros Hne Hhead. destruct t as [|c0 t0]; [congruence|].
  pose proof (Hhead c0 t0 eq_refl) as Hc0.
  cbn [inlineCommentMatch].
  destruct (isLineTerminator c0); [now exists c0, t0|].
  destruct (inlineCommentFrom [c0] t0) as [[code comment]|] eqn:E;
    [|now exists c0, t0].
  apply inlineCommentFrom_code in E. destruct E as [more ->].
  cbn [rev app]. rewrite trim_cons by exact Hc0.
  cbn [app]. now eexists _, _.
Qed.

(** The body of the loop on a line that is not blank, with [t] its trimmed
    text: a comment-only line is emitted at the current depth and leaves the
    depth as it is.  Any other line is emitted at [depth - 1], floored at 0,
    when [t] begins with a closing bracket and at [depth] when it does not;
    what follows the indentation does not start with white space; and the
    depth after the line is one more than the depth of emission exactly
    when [t] ends with an opening bracket and holds no bracket pair on the
    same line. *)
Lemma formatLine_depth :
  forall (depth : nat) (line : jsstring),
    trim line <> [] ->
    (CommentOnly (trim line) ->
     formatLine depth line = (depth, repeatN indentStr depth ++ trim line))
    /\ (~ CommentOnly (trim line) ->
        exists (emitAt next : nat) (body : jsstring),
          formatLine depth line = (next, repeatN indentStr emitAt ++ body)
          /\ (exists c r, body = c :: r /\ isWhiteSpace c = false)
          /\ (ClosingPrefixed (trim line) -> emitAt = (depth - 1)%nat)
          /\ (~ ClosingPrefixed (trim line) -> emitAt = depth)
          /\ (OpensBlock (trim line) -> next = S emitAt)
          /\ (~ OpensBlock (trim line) -> next = emitAt)).
Proof.
  intros depth line Hne. unfold formatLine.
  pose proof (trim_head line) as Hhead.
  revert Hne Hhead. generalize (trim line). intros t Hne Hhead.
  assert (JS.eqb t [] = false) as Hblank.
  { now apply eqb_neq. }
  rewrite Hblank.
  assert (startsWith t (str "//") || startsWith t (str "/*")
          || startsWith t (str "*") = true <-> CommentOnly t) as Hcomment.
  { unfold CommentOnly, beginsWith.
    rewrite !orb_true_iff, !startsWith_spec. tauto. }
  destruct (startsWith t (str "//") || startsWith t (str "/*")
            || startsWith t (str "*")) eqn:Ec.
  - split; [reflexivity|]. intros Hn. exfalso. apply Hn. now apply Hcomment.
  - split; [intros Hc; apply Hcomment in Hc; discriminate|]. intros _.
    pose proof (startsWithClosingRe_spec t) as Hclose.
    assert (endsWithOpenRe t && negb (pairRe 91%N 93%N t) && negb (pairRe 123%N 125%N t)
            = true <-> OpensBlock t) as Hopen.
    { unfold OpensBlock.
      rewrite !andb_true_iff, !negb_true_iff, endsWithOpenRe_spec.
      rewrite <- !pairRe_spec, !not_true_iff_false. tauto. }
    destruct (pushed_body t Hne Hhead) as [c [r [Hbody Hc]]].
    exists (if startsWithClosingRe t then Nat.max 0 (depth - 1) else depth).
    eexists.
    exists (match inlineCommentMatch t with
            | Some (code, comment) => trim code ++ str " " ++ comment
            | None => t
            end).
    split; [|split; [|split; [|split; [|split]]]].
    + f_equal. destruct (inlineCommentMatch t) as [[code comment]|];
        reflexivity.
    + now exists c, r.
    + intros H. apply Hclose in H. rewrite H. lia.
    + intros H. destruct (startsWithClosingRe t); [|reflexivity].
      exfalso. apply H. now apply Hclose.
    + intros H. apply Hopen in H. now rewrite H.
    + intros H.
      destruct (endsWithOpenRe t && negb (pairRe 91%N 93%N t)
                && negb (pairRe 123%N 125%N t)); [|reflexivity].
      exfalso. apply H. now apply Hopen.
Qed.

Lemma CommentOnly_dec (t : jsstring) : CommentOnly t \/ ~ CommentOnly t.
Proof.
  assert (startsWith t (str "//") || startsWith t (str "/*")
          || startsWith t (str "*") = true <-> CommentOnly t) as Hcomment.
  { unfold CommentOnly, beginsWith.
    rewrite !orb_true_iff, !startsWith_spec. tauto. }
  destruct (startsWith t (str "//") || startsWith t (str "/*")
            || startsWith t (str "*")).
  - left. now apply Hcomment.
  - right. intros H. apply Hcomment in H. discriminate.
Qed.

Lemma formatLine_blank (depth : nat) (line : jsstring) :
  trim line = [] -> formatLine depth line = (depth, []).
Proof.
  intros H. unfold formatLine. rewrite H. reflexivity.
Qed.

(** The loop hands the depth after a line to the line that follows. *)
Lemma formatLines_run (lines : list jsstring) :
  forall depth, DepthRun depth lines (formatLines depth lines).
Proof.
  induction lines as [|line lines IH]; intros depth; [constructor|].
  cbn [formatLines].
  destruct (list_eq_dec N.eq_dec (trim line) []) as [Hblank|Hblank].
  - rewrite (formatLine_blank depth line Hblank).
    now apply run_blank.
  - destruct (formatLine_depth depth line Hblank) as [Hcomment Hcode].
    destruct (CommentOnly_dec (trim line)) as [Hc|Hc].
    + rewrite (Hcomment Hc). now apply run_comment.
    + destruct (Hcode Hc)
        as [emitAt [next [body [E [Hbody [Hcl [Hncl [Hop Hnop]]]]]]]].
      rewrite E. now apply (run_code depth emitAt next).
Qed.

(** C5.  For every input, the lines [formatJSONC] joins are the lines of the
    input run through the depth counter, from depth 0 and each line handing
    its depth to the next: a comment-only line (trimmed text beginning with
    [//], [/*] or [*]) is emitted at the current depth and leaves it; a line
    whose trimmed text begins with a closing bracket is emitted at the depth
    less one, floored at 0; and after a line that is not comment-only the
    depth is one more than the depth of emission exactly when the trimmed
    line ends with an opening bracket and holds no bracket pair on the same
    line.  On a document that nests twice the depths are 0, 1, 1, 2, 1
    and 0. *)
Theorem formatJSONC_depth :
  (forall content : jsstring,
      exists formattedLines,
        DepthRun 0 (splitLines content) formattedLines
        /\ formatJSONC content
           = ensureTrailingNewline
               (collapseTrailingNewlines (join [LF] formattedLines)))
  /\ formatJSONC Demo.nestedDocument = Demo.nestedLayout.
Proof.
  split.
  - intros content. exists (formatLines 0 (splitLines content)).
    split; [apply formatLines_run | reflexivity].
  - vm_compute. reflexivity.
Qed.

End IndentSpec.

(** ** The line formatters: YAML and TOML *)

Module TomlSpec.
Import Format JSFacts.

(** The YAML formatter, which shares the steps of the TOML formatter but
    for the spacing around the equals sign. *)
Lemma splitLines_no_newline (s : jsstring) :
  Forall (fun l => existsb (N.eqb LF) l = false) (splitLines s).
Proof.
  induction s as [|c s IH]; cbn [splitLines].
  - now repeat constructor.
  - destruct (c =? LF)%N eqn:Ec; [now constructor|].
    destruct ((c =? CR)%N && startsWith s [LF]); [exact IH|].
    destruct (splitLines s) as [|h t];
      [constructor; [cbn [existsb]; now rewrite N.eqb_sym, Ec | constructor]|].
    inversion IH as [|? ? Hh Ht]; subst. constructor; [|exact Ht].
    cbn [existsb]. now rewrite N.eqb_sym, Ec, Hh.
Qed.

Lemma trimEnd_prefix (l : jsstring) : exists w, l = trimEnd l ++ w.
Proof.
  unfold trimEnd.
  destruct (dropWhile_split isWhiteSpace (rev l)) as [w [H _]].
  exists (rev w). apply (f_equal (@rev char)) in H.
  now rewrite rev_involutive, rev_app_distr in H.
Qed.

Lemma trimEnd_no_newline (l : jsstring) :
  existsb (N.eqb LF) l = false -> existsb (N.eqb LF) (trimEnd l) = false.
Proof.
  destruct (trimEnd_prefix l) as [w H]. intros Hl. rewrite H in Hl.
  rewrite existsb_app in Hl. now apply orb_false_iff in Hl.
Qed.

Lemma trimEnd_clean (l : jsstring) : hasTrailingWhitespace (trimEnd l) = false.
Proof.
  unfold hasTrailingWhitespace, trimEnd. rewrite rev_involutive.
  destruct (dropWhile isWhiteSpace (rev l)) as [|c r] eqn:E; [reflexivity|].
  exact (dropWhile_head _ _ _ _ E).
Qed.

Lemma dropRepeatedEmpty_In (b : bool) (ls : list jsstring) (x : jsstring) :
  In x (dropRepeatedEmpty b ls) -> In x ls.
Proof.
  revert b. induction ls as [|l ls IH]; intros b; cbn [dropRepeatedEmpty];
    [auto|].
  destruct (JS.eqb (trim l) [] && b).
  - intros H. right. now apply (IH b).
  - intros [<-|H]; [now left | right; now apply (IH _ H)].
Qed.

Lemma split_app_sep (x t : jsstring) :
  existsb (N.eqb LF) x = false -> split LF (x ++ LF :: t) = x :: split LF t.
Proof.
  induction x as [|c x IH]; intros Hx.
  - cbn. reflexivity.
  - cbn [existsb] in Hx. apply orb_false_iff in Hx. destruct Hx as [Hc Hx].
    cbn [app split]. rewrite N.eqb_sym, Hc. now rewrite (IH Hx).
Qed.

Lemma split_join (ls : list jsstring) :
  ls <> [] ->
  Forall (fun l => existsb (N.eqb LF) l = false) ls ->
  split LF (join [LF] ls) = ls.
Proof.
  induction ls as [|x [|y r] IH]; intros Hne Hall; [congruence| |].
  - inversion Hall; subst. cbn [join]. now apply split_no_sep.
  - inversion Hall as [|? ? Hx Hr]; subst.
    rewrite join_cons2. cbn [app].
    rewrite split_app_sep by exact Hx. f_equal. apply IH; [discriminate|].
    exact Hr.
Qed.

Lemma join_snoc (ls : list jsstring) (x : jsstring) :
  ls <> [] -> join [LF] (ls ++ [x]) = join [LF] ls ++ [LF] ++ x.
Proof.
  induction ls as [|a [|b r] IH]; intros Hne; [congruence|reflexivity|].
  change ((a :: b :: r) ++ [x]) with (a :: b :: (r ++ [x])).
  rewrite !join_cons2.
  change (b :: r ++ [x]) with ((b :: r) ++ [x]).
  rewrite IH by discriminate. now rewrite <- !app_assoc.
Qed.

(** The lines of the text [ensureTrailingNewline] returns for joined lines
    are those lines, and an empty one. *)
Lemma lines_of_output (ls : list jsstring) (line : jsstring) :
  Forall (fun l => existsb (N.eqb LF) l = false) ls ->
  In line (split LF (ensureTrailingNewline (join [LF] ls))) ->
  line = [] \/ In line ls.
Proof.
  intros Hall. unfold ensureTrailingNewline.
  destruct ls as [|a r].
  - cbn. intros [<-|[<-|[]]]; now left.
  - destruct (endsWith (join [LF] (a :: r)) [LF]).
    + rewrite split_join by (discriminate || exact Hall). now right.
    + change (join [LF] (a :: r) ++ [LF])
        with (join [LF] (a :: r) ++ [LF] ++ []).
      rewrite <- join_snoc by discriminate.
      rewrite split_join.
      * intros H. apply in_app_or in H. destruct H as [H|[<-|[]]]; auto.
      * now destruct r.
      * apply Forall_app. split; [exact Hall | now repeat constructor].
Qed.

(** X15.  The YAML formatter leaves no white space at the end of a line. *)
Lemma formatYAML_no_trailing_whitespace (content line : jsstring) :
  In line (split LF (formatYAML content)) ->
  hasTrailingWhitespace line = false.
Proof.
  unfold formatYAML. intros H.
  assert (Forall (fun l => existsb (N.eqb LF) l = false)
            (dropRepeatedEmpty false (List.map trimEnd (splitLines content))))
    as Hall.
  { apply Forall_forall. intros l Hl. apply dropRepeatedEmpty_In in Hl.
    apply in_map_iff in Hl. destruct Hl as [l0 [<- Hl0]].
    apply trimEnd_no_newline.
    pose proof (splitLines_no_newline content) as Hs.
    rewrite Forall_forall in Hs. now apply Hs. }
  destruct (lines_of_output _ _ Hall H) as [->|Hin]; [reflexivity|].
  apply dropRepeatedEmpty_In in Hin. apply in_map_iff in Hin.
  destruct Hin as [l0 [<- _]]. apply trimEnd_clean.
Qed.


(** C9, on the code: a key with an empty value.  The line [key =] comes
    out as [key = ], with a space at its end. *)
Theorem formatTOML_trailing_space :
  formatTOML (str "key =") = str "key = " ++ [LF]
  /\ List.map hasTrailingWhitespace (split LF (formatTOML (str "key =")))
     = [true; false].
Proof. split; vm_compute; reflexivity. Qed.

End TomlSpec.

(** ** The JSON dispatcher *)

Module DispatchSpec.
Import Format JSFacts.

Lemma slashesRe_spec (content : jsstring) :
  slashesRe content = true <-> SlashesAfterOther content.
Proof.
  unfold SlashesAfterOther. induction content as [|c s IH]; cbn [slashesRe].
  - split; [discriminate|]. intros [b [c [a [H _]]]]. destruct b; discriminate.
  - rewrite orb_true_iff, !andb_true_iff, !negb_true_iff, !N.eqb_neq.
    rewrite startsWith_spec, IH. split.
    + intros [[[H1 H2] [rest ->]]|[b [x [a [-> H]]]]].
      * exists [], c, rest. auto.
      * exists (c :: b), x, a. auto.
    + intros [b [x [a [H [H1 H2]]]]]. destruct b as [|y b]; injection H as -> H.
      * left. split; [auto|]. now exists a.
      * right. now exists b, x, a.
Qed.

Lemma dropWhile_skip (p : char -> bool) (w rest : jsstring) :
  Forall (fun c => p c = true) w -> dropWhile p (w ++ rest) = dropWhile p rest.
Proof.
  induction 1 as [|c w Hc _ IH]; cbn; [reflexivity|]. now rewrite Hc.
Qed.

Lemma whitespace_other (c : char) :
  isWhiteSpace c = true -> c <> 58%N /\ c <> 34%N.
Proof. intros H. split; intros ->; vm_compute in H; discriminate. Qed.

(** The head of a split is a prefix; every other piece follows a
    separator. *)
Lemma split_pieces (s : jsstring) :
  forall h t,
    split LF s = h :: t ->
    (exists post, s = h ++ post)
    /\ forall line,
         In line t -> exists pre post, s = pre ++ [LF] ++ line ++ post.
Proof.
  induction s as [|c s IH]; intros h t; cbn [split].
  - intros H. injection H as <- <-. split; [now exists []|intros l []].
  - destruct (c =? LF)%N eqn:Ec.
    + apply N.eqb_eq in Ec. subst c. intros H. injection H as <- <-.
      split; [now exists (LF :: s)|]. intros line Hin.
      destruct (split LF s) as [|h' t'] eqn:E;
        [now destruct (split_not_nil _ _ E)|].
      destruct (IH h' t' eq_refl) as [[post Hh] Ht].
      destruct Hin as [<-|Hin].
      * exists [], post. cbn. now f_equal.
      * destruct (Ht line Hin) as [pre [post' ->]].
        now exists (LF :: pre), post'.
    + destruct (split LF s) as [|h' t'] eqn:E;
        [now destruct (split_not_nil _ _ E)|].
      intros H. injection H as <- <-.
      destruct (IH h' t' eq_refl) as [[post Hh] Ht]. split.
      * exists post. cbn. now f_equal.
      * intros line Hin. destruct (Ht line Hin) as [pre [post' ->]].
        now exists (c :: pre), post'.
Qed.

Lemma leading_or_after_other (content : jsstring) :
  startsWith (dropWhile isWhiteSpace content) (str "//") = true
  \/ SlashesAfterOther content
  <-> LineBeginsWith "//" content \/ SlashesAfterOther content.
Proof.
  split; (intros [H|H]; [|now right]).
  - destruct (dropWhile_split isWhiteSpace content) as [w [Hs Hw]].
    apply startsWith_spec in H. destruct H as [rest Hrest].
    rewrite Hrest in Hs.
    destruct (snoc_cases w) as [->|[w0 [x0 ->]]].
    + left. cbn [app] in Hs. subst content. unfold LineBeginsWith.
      cbn [str List.map list_ascii_of_string app split].
      change (N_of_ascii "/" =? LF)%N with false. cbv iota.
      destruct (split LF rest) as [|h t].
      * exists (str "//"). split; [now left | reflexivity].
      * exists (str "//" ++ h). split; [now left | reflexivity].
    + right. apply Forall_app in Hw. destruct Hw as [_ Hx].
      inversion Hx as [|? ? Hx0 _]; subst.
      destruct (whitespace_other _ Hx0) as [H1 H2].
      exists w0, x0, rest. rewrite <- app_assoc. now split.
  - destruct H as [line [Hin Hline]].
    destruct (dropWhile_split isWhiteSpace line) as [w [Hs Hw]].
    unfold trimStart in Hline.
    apply startsWith_spec in Hline. destruct Hline as [rest Hrest].
    rewrite Hrest in Hs.
    destruct (split LF content) as [|h t] eqn:E; [destruct Hin|].
    destruct (split_pieces content h t E) as [[post Hh] Ht].
    destruct Hin as [->|Hin].
    + left. rewrite Hh, Hs, <- !app_assoc, dropWhile_skip by exact Hw.
      reflexivity.
    + right. destruct (Ht line Hin) as [pre [post' ->]]. rewrite Hs.
      destruct (snoc_cases w) as [->|[w0 [x0 ->]]].
      * exists pre, LF, (rest ++ post'). cbn [app].
        rewrite <- !app_assoc. cbn [app].
        repeat split; discriminate.
      * apply Forall_app in Hw. destruct Hw as [_ Hx].
        inversion Hx as [|? ? Hx0 _]; subst.
        destruct (whitespace_other _ Hx0) as [H1 H2].
        exists (pre ++ [LF] ++ w0), x0, (rest ++ post').
        repeat (rewrite <- app_assoc; cbn [app]).
        now repeat split.
Qed.

Lemma hasComments_spec (content : jsstring) :
  hasComments content = false <->
  ~ LineBeginsWith "//" content
  /\ ~ ContainsBlockOpener content
  /\ ~ SlashesAfterOther content.
Proof.
  unfold hasComments, leadingCommentRe, ContainsBlockOpener.
  rewrite !orb_false_iff, <- !not_true_iff_false.
  rewrite includes_spec, slashesRe_spec.
  pose proof (leading_or_after_other content) as H. tauto.
Qed.

(** C3, as stated, fails on a URL inside a string: the two slashes follow a
    colon, not a quote, and the content still goes to the strict formatter. *)
Lemma url_goes_to_strict :
  ~ (hasComments Demo.urlDocument = false <-> StatedStrict Demo.urlDocument).
Proof.
  intros [H _]. destruct (H eq_refl) as [_ [_ Hs]]. apply Hs.
  exists (str "{" ++ [JSON.QUOTE] ++ str "u" ++ [JSON.QUOTE] ++ str ":"
          ++ [JSON.QUOTE] ++ str "http:"),
    (str "x" ++ [JSON.QUOTE] ++ str "}").
  split; [reflexivity|].
  intros [front Hf].
  change (str "{" ++ [JSON.QUOTE] ++ str "u" ++ [JSON.QUOTE] ++ str ":"
          ++ [JSON.QUOTE] ++ str "http:")
    with ((str "{" ++ [JSON.QUOTE] ++ str "u" ++ [JSON.QUOTE] ++ str ":"
           ++ [JSON.QUOTE] ++ str "http") ++ [58%N]) in Hf.
  apply app_inj_tail in Hf. destruct Hf as [_ Hf]. discriminate.
Qed.

(** And on a block-comment opener inside a string: no line begins with it
    and there are no two slashes, yet the content goes to the JSONC
    reformatter. *)
Lemma opener_goes_to_jsonc :
  hasComments Demo.openerDocument = true /\ StatedStrict Demo.openerDocument.
Proof.
  split; [reflexivity|]. unfold StatedStrict, LineBeginsWith.
  repeat split.
  - intros [line [[<-|[]] H]]. vm_compute in H. discriminate.
  - intros [line [[<-|[]] H]]. vm_compute in H. discriminate.
  - intros [before [after [H _]]].
    assert (includes Demo.openerDocument (str "//") = true) as Hi
        by (apply includes_spec; now exists before, after).
    vm_compute in Hi. discriminate.
Qed.

(** C3 (amended).  The content goes to the strict formatter exactly when
    no line begins, after leading white space, with [//], the content holds
    no [/*] anywhere, and it holds no [//] that follows a code unit other
    than a colon or a double quote; when the strict parse then fails, the
    result is that of the JSONC reformatter.  The commented document of the
    specification is detected, goes to the JSONC reformatter, and keeps its
    comment line as it is. *)
Theorem formatJSON_routing :
  forall (NUM : JSON.Numbers) (content : jsstring),
    (hasComments content = false <->
     ~ LineBeginsWith "//" content
     /\ ~ ContainsBlockOpener content
     /\ ~ SlashesAfterOther content)
    /\ (hasComments content = true -> formatJSON content = formatJSONC content)
    /\ (hasComments content = false ->
        formatJSON content
        = match formatPureJSON content with
          | Some formatted => formatted
          | None => formatJSONC content
          end)
    /\ hasComments Demo.commentedDocument = true
    /\ formatJSON Demo.commentedDocument = Demo.commentedDocument ++ [LF].
Proof.
  intros NUM content. split; [apply hasComments_spec|].
  unfold formatJSON.
  split; [now intros ->|]. split; [now intros ->|].
  split; vm_compute; reflexivity.
Qed.

Lemma formatJSON_routing_witness :
  formatJSON (NUM := Demo.integers) Demo.urlDocument
  = match formatPureJSON (NUM := Demo.integers) Demo.urlDocument with
    | Some formatted => formatted
    | None => formatJSONC Demo.urlDocument
    end.
Proof.
  apply (formatJSON_routing Demo.integers Demo.urlDocument). reflexivity.
Defined.

End DispatchSpec.

(** ** Loading the configuration *)

Module LoadSpec.
Import Secrets.

(** C7, as stated, fails on a file that holds JSON of another shape: the
    content is returned as parsed, here with an empty list of patterns; and
    a file of the declared shape may hold an empty list as well. *)
Lemma loadConfig_keeps_other_shapes :
  asSecretsConfig (loadConfig (NUM := Demo.integers) (Some Demo.patternsOnlyFile))
  = None
  /\ loadConfig (NUM := Demo.integers) (Some Demo.patternsOnlyFile)
     <> defaultConfig
  /\ getProperty (loadConfig (NUM := Demo.integers) (Some Demo.patternsOnlyFile))
       "patterns" = Some (JSON.VArray [])
  /\ option_map patterns
       (asSecretsConfig
          (loadConfig (NUM := Demo.integers) (Some Demo.emptyListsFile)))
     = Some [].
Proof.
  split; [vm_compute; reflexivity|].
  split; [|split; vm_compute; reflexivity].
  intros H.
  apply (f_equal
           (fun v =>
              match getProperty v "patterns" with
              | Some (JSON.VArray []) => true
              | _ => false
              end)) in H.
  vm_compute in H. discriminate.
Qed.

(** C7 (amended).  When the configuration file is missing or is not JSON,
    [loadConfig] returns, without raising, the built-in configuration: the
    three patterns Generic API Key, Generic Secret and Generic Password,
    whose sources ask for a quoted value of at least 16, 8 and 4 code
    units.  A file that parses is returned as parsed, whatever its shape. *)
Theorem loadConfig_fallback :
  forall (NUM : JSON.Numbers) (file : option jsstring),
    (file = None \/ exists text, file = Some text /\ JSON.parse text = None) ->
    loadConfig file = defaultConfig
    /\ asSecretsConfig (loadConfig file) = Some Demo.builtIn
    /\ List.map SecretPattern.name (patterns Demo.builtIn)
       = [str "Generic API Key"; str "Generic Secret"; str "Generic Password"]
    /\ List.map
         (fun p => (includes (SecretPattern.pattern p) (str "{16,}"),
                    includes (SecretPattern.pattern p) (str "{8,}"),
                    includes (SecretPattern.pattern p) (str "{4,}")))
         (patterns Demo.builtIn)
       = [(true, false, false); (false, true, false); (false, false, true)]
    /\ forall text content,
         JSON.parse text = Some content -> loadConfig (Some text) = content.
Proof.
  intros NUM file Hfail.
  assert (loadConfig file = defaultConfig) as Hd.
  { destruct Hfail as [->|[text [-> Hp]]]; [reflexivity|].
    unfold loadConfig. now rewrite Hp. }
  split; [exact Hd|]. rewrite Hd.
  split; [vm_compute; reflexivity|].
  split; [vm_compute; reflexivity|].
  split; [vm_compute; reflexivity|].
  intros text content Hp. unfold loadConfig. now rewrite Hp.
Qed.

Lemma loadConfig_fallback_witness :
  loadConfig (NUM := Demo.integers) (Some (str "{ patterns: [ }"))
  = defaultConfig.
Proof.
  refine (proj1 (loadConfig_fallback Demo.integers
                   (Some (str "{ patterns: [ }")) _)).
  right. exists (str "{ patterns: [ }"). split; [reflexivity|].
  vm_compute. reflexivity.
Defined.

End LoadSpec.

(** ** JSON: reading back what was written *)

Module StringFacts.
Import JSON JSFacts.

Lemma hexValue_hexDigit (d : N) : (d < 16)%N -> hexValue (hexDigit d) = Some d.
Proof.
  intros Hd.
  assert (d = 0 \/ d = 1 \/ d = 2 \/ d = 3 \/ d = 4 \/ d = 5 \/ d = 6 \/ d = 7
          \/ d = 8 \/ d = 9 \/ d = 10 \/ d = 11 \/ d = 12 \/ d = 13 \/ d = 14
          \/ d = 15)%N as H by lia.
  repeat (destruct H as [->|H]; [reflexivity|]). now subst d.
Qed.

Lemma hex4Value_hex4 (c : N) :
  (c < 65536)%N ->
  match hex4 c with
  | [h1; h2; h3; h4] => hex4Value h1 h2 h3 h4 = Some c
  | _ => False
  end.
Proof.
  intros Hc. unfold hex4, hex4Value.
  rewrite !hexValue_hexDigit by (apply N.mod_lt; discriminate).
  f_equal.
  pose proof (N.div_mod c 16). pose proof (N.div_mod (c / 16) 16).
  pose proof (N.div_mod (c / 256) 16).
  assert (c / 4096 < 16)%N by (apply N.Div0.div_lt_upper_bound; lia).
  rewrite (N.mod_small (c / 4096) 16) by assumption.
  replace (c / 256)%N with (c / 16 / 16)%N in *
    by (rewrite N.Div0.div_div; reflexivity).
  replace (c / 4096)%N with (c / 16 / 16 / 16)%N in *
    by (rewrite !N.Div0.div_div; reflexivity).
  pose proof (N.div_mod (c / 16 / 16) 16).
  assert (c / 16 / 16 / 16 < 16)%N by assumption.
  pose proof (N.mod_small (c / 16 / 16 / 16) 16).
  lia.
Qed.

Lemma parseChars_u (h1 h2 h3 h4 : char) (tail : jsstring) :
  parseChars (92 :: 117 :: h1 :: h2 :: h3 :: h4 :: tail)%N
  = match hex4Value h1 h2 h3 h4 with
    | Some u =>
        match parseChars tail with
        | Some (t, r) => Some (u :: t, r)
        | None => None
        end
    | None => None
    end.
Proof. reflexivity. Qed.

Lemma parseChars_plain (c : char) (tail : jsstring) :
  c <> 34%N -> c <> 92%N -> (32 <= c)%N ->
  parseChars (c :: tail)
  = match parseChars tail with
    | Some (t, r) => Some (c :: t, r)
    | None => None
    end.
Proof.
  intros H1 H2 H3. cbn [parseChars]. unfold QUOTE, BACKSLASH.
  apply N.eqb_neq in H1, H2. rewrite H1, H2.
  apply N.ltb_ge in H3. now rewrite H3.
Qed.

Lemma parseChars_unit (c : char) (tail t r : jsstring) :
  parseChars tail = Some (t, r) ->
  parseChars (quoteUnit c ++ tail) = Some (c :: t, r).
Proof.
  intros Ht. unfold quoteUnit.
  destruct (c =? 8)%N eqn:E8;
    [apply N.eqb_eq in E8; subst c; cbn; now rewrite Ht|].
  destruct (c =? 9)%N eqn:E9;
    [apply N.eqb_eq in E9; subst c; cbn; now rewrite Ht|].
  destruct (c =? 10)%N eqn:E10;
    [apply N.eqb_eq in E10; subst c; cbn; now rewrite Ht|].
  destruct (c =? 12)%N eqn:E12;
    [apply N.eqb_eq in E12; subst c; cbn; now rewrite Ht|].
  destruct (c =? 13)%N eqn:E13;
    [apply N.eqb_eq in E13; subst c; cbn; now rewrite Ht|].
  destruct (c =? 34)%N eqn:E34;
    [apply N.eqb_eq in E34; subst c; cbn; now rewrite Ht|].
  destruct (c =? 92)%N eqn:E92;
    [apply N.eqb_eq in E92; subst c; cbn; now rewrite Ht|].
  destruct ((c <? 32)%N || isLeadSurrogate c || isTrailSurrogate c) eqn:Eh.
  - assert (c < 65536)%N as Hc.
    { unfold isLeadSurrogate, isTrailSurrogate in Eh.
      apply orb_true_iff in Eh. destruct Eh as [Eh|Eh].
      - apply orb_true_iff in Eh. destruct Eh as [Eh|Eh].
        + apply N.ltb_lt in Eh. lia.
        + apply andb_true_iff in Eh. destruct Eh as [_ Eh].
          apply N.leb_le in Eh. lia.
      - apply andb_true_iff in Eh. destruct Eh as [_ Eh].
        apply N.leb_le in Eh. lia. }
    pose proof (hex4Value_hex4 c Hc) as Hh. unfold hex4 in *.
    change (str "\u") with [92; 117]%N. cbn [app].
    rewrite parseChars_u, Hh, Ht. reflexivity.
  - apply orb_false_iff in Eh. destruct Eh as [Eh _].
    apply orb_false_iff in Eh. destruct Eh as [Eh _].
    apply N.ltb_ge in Eh. apply N.eqb_neq in E34, E92.
    cbn [app]. now rewrite parseChars_plain, Ht.
Qed.

Lemma quoteChars_cons2 (c d : char) (s2 : jsstring) :
  quoteChars (c :: d :: s2)
  = if isLeadSurrogate c && isTrailSurrogate d
    then c :: d :: quoteChars s2
    else quoteUnit c ++ quoteChars (d :: s2).
Proof. reflexivity. Qed.

Lemma parseChars_quoteChars_bounded (n : nat) :
  forall s rest,
    (List.length s <= n)%nat ->
    parseChars (quoteChars s ++ QUOTE :: rest) = Some (s, rest).
Proof.
  induction n as [|n IH]; intros s rest Hn.
  - destruct s; [reflexivity | cbn in Hn; lia].
  - destruct s as [|c [|d s2]].
    + reflexivity.
    + cbn [quoteChars]. now apply parseChars_unit.
    + rewrite quoteChars_cons2.
      destruct (isLeadSurrogate c && isTrailSurrogate d) eqn:Ep.
      * apply andb_true_iff in Ep. destruct Ep as [Hc Hd].
        unfold isLeadSurrogate in Hc. unfold isTrailSurrogate in Hd.
        apply andb_true_iff in Hc, Hd.
        destruct Hc as [Hc _]. destruct Hd as [Hd _].
        apply N.leb_le in Hc, Hd.
        cbn [app]. rewrite parseChars_plain by lia.
        rewrite parseChars_plain by lia.
        rewrite IH by (cbn in Hn; lia). reflexivity.
      * rewrite <- app_assoc. apply parseChars_unit. apply IH.
        cbn in Hn |- *. lia.
Qed.

Lemma parseChars_quoteChars (s rest : jsstring) :
  parseChars (quoteChars s ++ QUOTE :: rest) = Some (s, rest).
Proof. now apply (parseChars_quoteChars_bounded (List.length s)). Qed.

End StringFacts.

Module NumberFacts.
Import JSON JSFacts.

Lemma inert_head (rest : jsstring) :
  inert rest = true ->
  forall c r,
    rest = c :: r ->
    isDigit c = false
    /\ (c =? 43)%N = false /\ (c =? 45)%N = false /\ (c =? 46)%N = false
    /\ (c =? 69)%N = false /\ (c =? 101)%N = false.
Proof.
  intros H c r ->. cbn in H. apply negb_true_iff in H.
  repeat (apply orb_false_iff in H; destruct H as [? H]).
  repeat split; assumption.
Qed.

Lemma takeWhile_inert (a rest : jsstring) :
  inert rest = true ->
  takeWhile isDigit (a ++ rest) = takeWhile isDigit a.
Proof.
  intros H. induction a as [|x a IH]; cbn.
  - destruct rest as [|c r]; [reflexivity|].
    destruct (inert_head _ H c r eq_refl) as [Hd _]. cbn. now rewrite Hd.
  - destruct (isDigit x); [now rewrite IH | reflexivity].
Qed.

Lemma dropWhile_inert (a rest : jsstring) :
  inert rest = true ->
  dropWhile isDigit (a ++ rest) = dropWhile isDigit a ++ rest.
Proof.
  intros H. induction a as [|x a IH]; cbn.
  - destruct rest as [|c r]; [reflexivity|].
    destruct (inert_head _ H c r eq_refl) as [Hd _]. cbn. now rewrite Hd.
  - destruct (isDigit x); [exact IH | reflexivity].
Qed.

Lemma scanDigits_inert (a rest : jsstring) :
  inert rest = true ->
  scanDigits (a ++ rest)
  = match scanDigits a with
    | Some (d, r) => Some (d, r ++ rest)
    | None => None
    end.
Proof.
  intros H. unfold scanDigits.
  rewrite takeWhile_inert, dropWhile_inert by exact H.
  now destruct (takeWhile isDigit a).
Qed.

Lemma scanInt_inert (a rest : jsstring) :
  inert rest = true ->
  scanInt (a ++ rest)
  = match scanInt a with
    | Some (d, r) => Some (d, r ++ rest)
    | None => None
    end.
Proof.
  intros H. destruct a as [|x a]; cbn [app scanInt].
  - destruct rest as [|c r]; [reflexivity|].
    destruct (inert_head _ H c r eq_refl) as [Hd _]. cbn.
    rewrite Hd. destruct (c =? 48)%N eqn:E; [|reflexivity].
    apply N.eqb_eq in E. subst c. discriminate.
  - destruct (x =? 48)%N; [reflexivity|].
    destruct (isDigit x); [|reflexivity].
    now rewrite takeWhile_inert, dropWhile_inert.
Qed.

Lemma scanFrac_inert (a rest : jsstring) :
  inert rest = true ->
  scanFrac (a ++ rest) = (fst (scanFrac a), snd (scanFrac a) ++ rest).
Proof.
  intros H. destruct a as [|x a]; cbn [app scanFrac].
  - destruct rest as [|c r]; [reflexivity|].
    destruct (inert_head _ H c r eq_refl) as [_ [_ [_ [Hd _]]]]. cbn.
    now rewrite Hd.
  - destruct (x =? 46)%N; [|reflexivity].
    rewrite scanDigits_inert by exact H.
    now destruct (scanDigits a) as [[d r]|].
Qed.

Lemma scanSign_inert (a rest : jsstring) :
  inert rest = true ->
  scanSign (a ++ rest) = (fst (scanSign a), snd (scanSign a) ++ rest).
Proof.
  intros H. destruct a as [|x a]; cbn [app scanSign].
  - destruct rest as [|c r]; [reflexivity|].
    destruct (inert_head _ H c r eq_refl) as [_ [H1 [H2 _]]]. cbn.
    now rewrite H1, H2.
  - now destruct ((x =? 43) || (x =? 45))%N.
Qed.

Lemma scanMinus_inert (a rest : jsstring) :
  inert rest = true ->
  scanMinus (a ++ rest) = (fst (scanMinus a), snd (scanMinus a) ++ rest).
Proof.
  intros H. destruct a as [|x a]; cbn [app scanMinus].
  - destruct rest as [|c r]; [reflexivity|].
    destruct (inert_head _ H c r eq_refl) as [_ [_ [H2 _]]]. cbn.
    now rewrite H2.
  - now destruct (x =? 45)%N.
Qed.

Lemma scanExp_inert (a rest : jsstring) :
  inert rest = true ->
  scanExp (a ++ rest) = (fst (scanExp a), snd (scanExp a) ++ rest).
Proof.
  intros H. destruct a as [|x a]; cbn [app scanExp].
  - destruct rest as [|c r]; [reflexivity|].
    destruct (inert_head _ H c r eq_refl) as [_ [_ [_ [_ [H1 H2]]]]]. cbn.
    now rewrite H1, H2.
  - destruct ((x =? 101) || (x =? 69))%N; [|reflexivity].
    rewrite scanSign_inert by exact H.
    destruct (scanSign a) as [sg s'']. cbn [fst snd].
    rewrite scanDigits_inert by exact H.
    now destruct (scanDigits s'') as [[d r]|].
Qed.

Lemma scanNumber_inert (a rest : jsstring) :
  inert rest = true ->
  scanNumber (a ++ rest)
  = match scanNumber a with
    | Some (t, r) => Some (t, r ++ rest)
    | None => None
    end.
Proof.
  intros H. unfold scanNumber.
  rewrite scanMinus_inert by exact H.
  destruct (scanMinus a) as [sg s0]. cbn [fst snd].
  rewrite scanInt_inert by exact H.
  destruct (scanInt s0) as [[i s1]|]; [|reflexivity].
  rewrite scanFrac_inert by exact H.
  destruct (scanFrac s1) as [f s2]. cbn [fst snd].
  rewrite scanExp_inert by exact H.
  now destruct (scanExp s2) as [e s3].
Qed.

Lemma takeWhile_dropWhile (p : char -> bool) (s : jsstring) :
  takeWhile p s ++ dropWhile p s = s.
Proof.
  induction s as [|c s IH]; cbn; [reflexivity|].
  destruct (p c); cbn; [now rewrite IH | reflexivity].
Qed.

Lemma scanDigits_split (s d r : jsstring) :
  scanDigits s = Some (d, r) -> s = d ++ r.
Proof.
  unfold scanDigits. pose proof (takeWhile_dropWhile isDigit s) as H.
  destruct (takeWhile isDigit s); [discriminate|].
  intros E. injection E as <- <-. now symmetry.
Qed.

Lemma scanInt_split (s d r : jsstring) :
  scanInt s = Some (d, r) -> s = d ++ r.
Proof.
  destruct s as [|c s]; cbn [scanInt]; [discriminate|].
  destruct (c =? 48)%N; [intros E; now injection E as <- <-|].
  destruct (isDigit c); [|discriminate].
  intros E. injection E as <- <-. cbn. now rewrite takeWhile_dropWhile.
Qed.

Lemma scanFrac_split (s : jsstring) :
  s = fst (scanFrac s) ++ snd (scanFrac s).
Proof.
  destruct s as [|c s]; cbn [scanFrac]; [reflexivity|].
  destruct (c =? 46)%N; [|reflexivity].
  destruct (scanDigits s) as [[d r]|] eqn:E; [|reflexivity].
  cbn. now rewrite (scanDigits_split _ _ _ E).
Qed.

Lemma scanSign_split (s : jsstring) :
  s = fst (scanSign s) ++ snd (scanSign s).
Proof.
  destruct s as [|c s]; cbn [scanSign]; [reflexivity|].
  now destruct ((c =? 43) || (c =? 45))%N.
Qed.

Lemma scanMinus_split (s : jsstring) :
  s = fst (scanMinus s) ++ snd (scanMinus s).
Proof.
  destruct s as [|c s]; cbn [scanMinus]; [reflexivity|].
  now destruct (c =? 45)%N.
Qed.

Lemma scanExp_split (s : jsstring) :
  s = fst (scanExp s) ++ snd (scanExp s).
Proof.
  destruct s as [|c s]; cbn [scanExp]; [reflexivity|].
  destruct ((c =? 101) || (c =? 69))%N; [|reflexivity].
  pose proof (scanSign_split s) as Hs.
  destruct (scanSign s) as [sg s'']. cbn [fst snd] in Hs.
  destruct (scanDigits s'') as [[d r]|] eqn:E; [|reflexivity].
  cbn. rewrite Hs, (scanDigits_split _ _ _ E). now rewrite <- app_assoc.
Qed.

Lemma scanNumber_split (s t r : jsstring) :
  scanNumber s = Some (t, r) -> s = t ++ r.
Proof.
  unfold scanNumber.
  pose proof (scanMinus_split s) as H0.
  destruct (scanMinus s) as [sg s0]. cbn [fst snd] in H0.
  destruct (scanInt s0) as [[i s1]|] eqn:E1; [|discriminate].
  apply scanInt_split in E1.
  pose proof (scanFrac_split s1) as H2.
  destruct (scanFrac s1) as [f s2]. cbn [fst snd] in H2.
  pose proof (scanExp_split s2) as H3.
  destruct (scanExp s2) as [e s3]. cbn [fst snd] in H3.
  intros E. injection E as <- <-.
  rewrite H0, E1, H2, H3. now rewrite <- !app_assoc.
Qed.

Lemma scanNumber_token (tok rest : jsstring) :
  isNumberToken tok = true ->
  inert rest = true ->
  scanNumber (tok ++ rest) = Some (tok, rest).
Proof.
  intros Htok H. rewrite scanNumber_inert by exact H.
  unfold isNumberToken in Htok.
  destruct (scanNumber tok) as [[t [|x r]]|] eqn:E; try discriminate.
  apply scanNumber_split in E. rewrite app_nil_r in E. now subst t.
Qed.

(** A number token starts with a digit or a minus sign. *)
Lemma token_head (tok : jsstring) :
  isNumberToken tok = true ->
  exists c r, tok = c :: r /\ (isDigit c = true \/ c = 45%N).
Proof.
  unfold isNumberToken, scanNumber.
  destruct tok as [|c r]; [discriminate|]. intros H.
  exists c, r. split; [reflexivity|].
  cbn [scanMinus] in H. destruct (c =? 45)%N eqn:E.
  - right. now apply N.eqb_eq.
  - left. cbn [scanInt] in H.
    destruct (c =? 48)%N eqn:E0; [apply N.eqb_eq in E0; now subst c|].
    destruct (isDigit c); [reflexivity | discriminate].
Qed.

End NumberFacts.

Module KeyFacts.
Import JSON JSFacts.

(** The digits of an array index determine it. *)
Lemma decimalValue_snoc (k : jsstring) (d : char) :
  decimalValue (k ++ [d]) = (decimalValue k * 10 + (d - 48))%N.
Proof. unfold decimalValue. now rewrite fold_left_app. Qed.

Lemma fold_digits_pos (r : jsstring) (a : N) :
  (0 < a)%N ->
  (0 < fold_left (fun acc d => acc * 10 + (d - 48)) r a)%N.
Proof.
  revert a. induction r as [|d r IH]; intros a Ha; cbn; [exact Ha|].
  apply IH. lia.
Qed.

Lemma decimalValue_pos (c : char) (r : jsstring) :
  isDigit c = true -> c <> 48%N -> (0 < decimalValue (c :: r))%N.
Proof.
  intros Hd Hc. unfold decimalValue. cbn [fold_left].
  apply fold_digits_pos.
  unfold isDigit in Hd. apply andb_true_iff in Hd. destruct Hd as [Hd _].
  apply N.leb_le in Hd. lia.
Qed.

Lemma digit_bounds (d : char) :
  isDigit d = true -> (48 <= d /\ d <= 57)%N.
Proof.
  unfold isDigit. rewrite andb_true_iff, !N.leb_le. tauto.
Qed.

Lemma decimalValue_inj (k : jsstring) :
  forall k',
    forallb isDigit k = true -> forallb isDigit k' = true ->
    (forall c r, k = c :: r -> c <> 48%N) ->
    (forall c r, k' = c :: r -> c <> 48%N) ->
    decimalValue k = decimalValue k' ->
    k = k'.
Proof.
  induction k as [|d k0 IH] using rev_ind; intros k' Hk Hk' Hz Hz' Hv.
  - destruct k' as [|c' r']; [reflexivity|].
    cbn [forallb] in Hk'. apply andb_true_iff in Hk'. destruct Hk' as [Hc' _].
    pose proof (decimalValue_pos c' r' Hc' (Hz' c' r' eq_refl)) as Hp.
    rewrite <- Hv in Hp. cbn in Hp. lia.
  - destruct (snoc_cases k') as [->|[k0' [d' ->]]].
    + exfalso. destruct (k0 ++ [d]) as [|c r] eqn:E;
        [now destruct k0|].
      cbn [forallb] in Hk. apply andb_true_iff in Hk. destruct Hk as [Hc _].
      pose proof (decimalValue_pos c r Hc (Hz c r eq_refl)) as Hp.
      rewrite Hv in Hp. cbn in Hp. lia.
    + rewrite !decimalValue_snoc in Hv.
      rewrite forallb_app in Hk, Hk'. cbn [forallb] in Hk, Hk'.
      rewrite !andb_true_iff in Hk, Hk'.
      destruct Hk as [Hk0 [Hd _]]. destruct Hk' as [Hk0' [Hd' _]].
      apply digit_bounds in Hd, Hd'.
      assert (decimalValue k0 = decimalValue k0' /\ d = d') as [Hv0 ->] by lia.
      f_equal. apply IH; try assumption.
      * intros c r ->. apply (Hz c (r ++ [d'])). reflexivity.
      * intros c r ->. apply (Hz' c (r ++ [d'])). reflexivity.
Qed.

Lemma arrayIndex_Some (k : jsstring) (i : N) :
  arrayIndex k = Some i ->
  forallb isDigit k = true
  /\ decimalValue k = i
  /\ (k = [48%N] \/ forall c r, k = c :: r -> c <> 48%N).
Proof.
  unfold arrayIndex. destruct k as [|c rest]; [discriminate|].
  destruct (forallb isDigit (c :: rest)) eqn:Hd; [|discriminate].
  cbn [andb].
  destruct (negb (c =? 48)%N || match rest with [] => true | _ => false end)
    eqn:Hz; [|discriminate].
  cbn [andb].
  destruct (decimalValue (c :: rest) <? 4294967295)%N; [|discriminate].
  intros E. injection E as <-. split; [reflexivity|]. split; [reflexivity|].
  apply orb_true_iff in Hz. destruct Hz as [Hz|Hz].
  - right. intros c' r' E. injection E as <- <-.
    apply negb_true_iff, N.eqb_neq in Hz. exact Hz.
  - destruct rest; [|discriminate].
    destruct (N.eq_dec c 48) as [->|Hc]; [now left|].
    right. intros c' r' E. now injection E as <- <-.
Qed.

Lemma arrayIndex_inj (k k' : jsstring) (i : N) :
  arrayIndex k = Some i -> arrayIndex k' = Some i -> k = k'.
Proof.
  intros H H'.
  destruct (arrayIndex_Some k i H) as [Hd [Hv Hz]].
  destruct (arrayIndex_Some k' i H') as [Hd' [Hv' Hz']].
  assert (forall a b,
             forallb isDigit b = true -> decimalValue a = decimalValue b ->
             a = [48%N] -> (forall c r, b = c :: r -> c <> 48%N) -> b <> [] ->
             False) as Hclash.
  { intros a b Hb Hab -> Hnz Hne. destruct b as [|c r]; [congruence|].
    cbn [forallb] in Hb. apply andb_true_iff in Hb. destruct Hb as [Hc _].
    pose proof (decimalValue_pos c r Hc (Hnz c r eq_refl)) as Hp.
    rewrite <- Hab in Hp. cbn in Hp. lia. }
  assert (k <> [] /\ k' <> []) as [Hne Hne'].
  { split; intros ->; discriminate. }
  destruct Hz as [->|Hz]; destruct Hz' as [->|Hz']; try reflexivity.
  - exfalso. apply (Hclash [48%N] k'); try assumption; congruence.
  - exfalso. apply (Hclash [48%N] k); try assumption; congruence.
  - apply decimalValue_inj; try assumption. congruence.
Qed.

End KeyFacts.

Module ObjectFacts.
Import JSON JSFacts KeyFacts.

Section Objects.
Context {NUM : Numbers}.

Lemma keysOrdered_snoc (ks : list jsstring) (k : jsstring) :
  keysOrdered (ks ++ [k]) <->
  keysOrdered ks /\ Forall (fun k' => follows k' k) ks.
Proof.
  induction ks as [|x ks IH]; cbn [app keysOrdered].
  - split; [intros _; split; [exact I | constructor] | intros _; now split].
  - rewrite IH, Forall_app. split.
    + intros [[Hx Hk] [Ho Hf]]. split; [now split|].
      constructor; [now inversion Hk | exact Hf].
    + intros [[Hx Ho] Hf]. inversion Hf as [|? ? H1 H2]; subst.
      repeat split; try assumption. constructor; [exact H1 | constructor].
Qed.

Lemma hasKey_false (k : jsstring) (o : list (jsstring * value)) :
  hasKey k o = false <-> Forall (fun k' => k' <> k) (List.map fst o).
Proof.
  induction o as [|[k' v'] o IH]; cbn [hasKey List.map fst].
  - split; [constructor | reflexivity].
  - rewrite orb_false_iff, IH, eqb_neq. split.
    + intros [H1 H2]. constructor; [congruence | exact H2].
    + intros H. inversion H; subst. split; [congruence | assumption].
Qed.

Lemma insertIndex_append (i : N) (k : jsstring) (v : value)
  (o : list (jsstring * value)) :
  Forall (fun k' => exists j, arrayIndex k' = Some j /\ (j < i)%N)
    (List.map fst o) ->
  insertIndex i k v o = o ++ [(k, v)].
Proof.
  induction o as [|[k' v'] o IH]; cbn [insertIndex List.map fst app];
    intros H; [reflexivity|].
  inversion H as [|? ? [j [Hj Hlt]] Hrest]; subst.
  rewrite Hj. apply N.ltb_lt in Hlt. rewrite Hlt. now rewrite IH.
Qed.

(** A key that comes after all the keys of the object is added at the
    end. *)
Lemma CreateDataProperty_append (o : list (jsstring * value))
  (k : jsstring) (v : value) :
  keysOrdered (List.map fst (o ++ [(k, v)])) ->
  CreateDataProperty o k v = o ++ [(k, v)].
Proof.
  rewrite map_app. cbn [List.map fst]. rewrite keysOrdered_snoc.
  intros [_ Hf]. unfold CreateDataProperty.
  assert (hasKey k o = false) as ->.
  { apply hasKey_false. eapply Forall_impl; [|exact Hf].
    intros k' [Hne _]. exact Hne. }
  destruct (arrayIndex k) as [i|] eqn:Ei; [|reflexivity].
  apply insertIndex_append. eapply Forall_impl; [|exact Hf].
  intros k' [_ Hm]. rewrite Ei in Hm.
  destruct (arrayIndex k') as [j|]; [now exists j | destruct Hm].
Qed.

Lemma setExisting_keys (k : jsstring) (v : value)
  (o : list (jsstring * value)) :
  List.map fst (setExisting k v o) = List.map fst o.
Proof.
  induction o as [|[k' v'] o IH]; cbn [setExisting List.map fst];
    [reflexivity|].
  destruct (JS.eqb k k'); cbn [List.map fst]; [reflexivity | now rewrite IH].
Qed.

Lemma insertIndex_keys (i : N) (k : jsstring) (v : value)
  (o : list (jsstring * value)) (x : jsstring) :
  In x (List.map fst (insertIndex i k v o)) ->
  x = k \/ In x (List.map fst o).
Proof.
  induction o as [|[k' v'] o IH]; cbn [insertIndex List.map fst].
  - intros [<-|[]]. now left.
  - destruct (arrayIndex k') as [j|].
    + destruct (j <? i)%N; cbn [List.map fst In].
      * intros [<-|H]; [right; now left|].
        destruct (IH H) as [->|H']; [now left | right; now right].
      * intros [<-|H]; [now left | right; exact H].
    + cbn [List.map fst In]. intros [<-|H]; [now left | right; exact H].
Qed.

Lemma follows_trans_index (k k' x : jsstring) (i : N) :
  arrayIndex k = Some i ->
  k <> x ->
  (match arrayIndex k' with Some j => (i < j)%N | None => True end) ->
  follows k' x ->
  follows k x.
Proof.
  intros Hi Hne Hk' [_ Hf]. split; [exact Hne|]. rewrite Hi.
  destruct (arrayIndex k') as [j|], (arrayIndex x) as [j'|]; try exact I.
  - lia.
  - destruct Hf.
Qed.

Lemma insertIndex_ordered (i : N) (k : jsstring) (v : value)
  (o : list (jsstring * value)) :
  arrayIndex k = Some i ->
  Forall (fun k' => k' <> k) (List.map fst o) ->
  keysOrdered (List.map fst o) ->
  keysOrdered (List.map fst (insertIndex i k v o)).
Proof.
  intros Hi. induction o as [|[k' v'] o IH];
    cbn [insertIndex List.map fst keysOrdered]; intros Hne Hord.
  - split; [constructor | exact I].
  - destruct Hord as [Hf Ho]. inversion Hne as [|? ? Hk' Hne']; subst.
    assert (forall (bound : match arrayIndex k' with
                            | Some j => (i < j)%N
                            | None => True
                            end),
               keysOrdered (k :: k' :: List.map fst o)) as Hfront.
    { intros Hb. cbn [keysOrdered]. split; [|now split].
      constructor.
      - split; [congruence|]. rewrite Hi.
        destruct (arrayIndex k'); [exact Hb | exact I].
      - rewrite Forall_forall in *. intros x Hx.
        apply (follows_trans_index k k' x i Hi);
          [intros ->; now apply (Hne' x) | exact Hb | now apply Hf]. }
    destruct (arrayIndex k') as [j|] eqn:Ej; [|now apply Hfront].
    destruct (j <? i)%N eqn:Elt.
    + apply N.ltb_lt in Elt. cbn [List.map fst keysOrdered].
      split; [|now apply IH].
      rewrite Forall_forall in *. intros x Hx.
      destruct (insertIndex_keys _ _ _ _ _ Hx) as [->|Hin]; [|now apply Hf].
      split; [exact Hk'|]. now rewrite Ej, Hi.
    + apply N.ltb_ge in Elt. apply Hfront.
      destruct (N.eq_dec i j) as [->|Hij]; [|lia].
      exfalso. apply Hk'. symmetry. exact (arrayIndex_inj _ _ _ Hi Ej).
Qed.

(** [CreateDataProperty] keeps the order of the keys. *)
Lemma CreateDataProperty_ordered (o : list (jsstring * value))
  (k : jsstring) (v : value) :
  keysOrdered (List.map fst o) ->
  keysOrdered (List.map fst (CreateDataProperty o k v)).
Proof.
  intros Ho. unfold CreateDataProperty.
  destruct (hasKey k o) eqn:Hk; [now rewrite setExisting_keys|].
  apply hasKey_false in Hk.
  destruct (arrayIndex k) as [i|] eqn:Ei.
  - now apply insertIndex_ordered.
  - rewrite map_app. cbn [List.map fst]. apply keysOrdered_snoc.
    split; [exact Ho|]. eapply Forall_impl; [|exact Hk].
    intros k' Hne. split; [exact Hne|]. rewrite Ei.
    now destruct (arrayIndex k').
Qed.

(** The values of the object after [CreateDataProperty]. *)
Lemma setExisting_values (P : value -> Prop) (k : jsstring) (v : value)
  (o : list (jsstring * value)) :
  P v -> Forall (fun kv => P (snd kv)) o ->
  Forall (fun kv => P (snd kv)) (setExisting k v o).
Proof.
  intros Hv. induction 1 as [|[k' v'] o Hkv Ho IH]; cbn [setExisting];
    [constructor|].
  destruct (JS.eqb k k'); constructor; assumption.
Qed.

Lemma insertIndex_values (P : value -> Prop) (i : N) (k : jsstring)
  (v : value) (o : list (jsstring * value)) :
  P v -> Forall (fun kv => P (snd kv)) o ->
  Forall (fun kv => P (snd kv)) (insertIndex i k v o).
Proof.
  intros Hv. induction 1 as [|[k' v'] o Hkv Ho IH]; cbn [insertIndex].
  - now repeat constructor.
  - destruct (arrayIndex k') as [j|]; [destruct (j <? i)%N|];
      repeat constructor; assumption.
Qed.

Lemma CreateDataProperty_values (P : value -> Prop)
  (o : list (jsstring * value)) (k : jsstring) (v : value) :
  P v -> Forall (fun kv => P (snd kv)) o ->
  Forall (fun kv => P (snd kv)) (CreateDataProperty o k v).
Proof.
  intros Hv Ho. unfold CreateDataProperty.
  destruct (hasKey k o); [now apply setExisting_values|].
  destruct (arrayIndex k); [now apply insertIndex_values|].
  apply Forall_app. split; [exact Ho | now repeat constructor].
Qed.

Lemma canonical_array (l : list value) :
  canonical (VArray l) <-> Forall canonical l.
Proof.
  cbn [canonical]. induction l as [|x l IH].
  - split; [constructor | intros _; exact I].
  - rewrite IH. split; [intros [H1 H2]; now constructor|].
    intros H. now inversion H.
Qed.

Lemma canonical_object (ms : list (jsstring * value)) :
  canonical (VObject ms) <->
  keysOrdered (List.map fst ms) /\ Forall (fun kv => canonical (snd kv)) ms.
Proof.
  cbn [canonical].
  assert ((fix all (l : list (jsstring * value)) : Prop :=
             match l with
             | [] => True
             | kv :: rest => canonical (snd kv) /\ all rest
             end) ms <-> Forall (fun kv => canonical (snd kv)) ms) as H.
  { induction ms as [|kv ms IH].
    - split; [constructor | intros _; exact I].
    - rewrite IH. split; [intros [H1 H2]; now constructor|].
      intros H. now inversion H. }
  now rewrite H.
Qed.

End Objects.

End ObjectFacts.

Module FuelFacts.
Import JSON JSFacts NumberFacts.

Lemma dropWhile_length (p : char -> bool) (s : jsstring) :
  (List.length (dropWhile p s) <= List.length s)%nat.
Proof.
  induction s as [|c s IH]; cbn; [lia|]. destruct (p c); cbn; lia.
Qed.

Lemma skipWs_length (s : jsstring) :
  (List.length (skipWs s) <= List.length s)%nat.
Proof. apply dropWhile_length. Qed.

Lemma parseChars_shorter_bounded (n : nat) :
  forall s t r,
    (List.length s <= n)%nat ->
    parseChars s = Some (t, r) -> (List.length r < List.length s)%nat.
Proof.
  induction n as [|n IH]; intros s t r Hn.
  - destruct s; [discriminate | cbn in Hn; lia].
  - destruct s as [|c s1]; [discriminate|]. cbn [parseChars].
    destruct (c =? QUOTE)%N.
    { intros E. injection E as _ <-. cbn. lia. }
    destruct (c =? BACKSLASH)%N.
    { destruct s1 as [|e s2]; [discriminate|].
      destruct (e =? 117)%N.
      - destruct s2 as [|h1 [|h2 [|h3 [|h4 s3]]]]; try discriminate.
        destruct (hex4Value h1 h2 h3 h4); [|discriminate].
        destruct (parseChars s3) as [[t' r']|] eqn:E3; [|discriminate].
        intros E. injection E as _ <-.
        apply IH in E3; cbn in Hn |- *; lia.
      - destruct (unescape e); [|discriminate].
        destruct (parseChars s2) as [[t' r']|] eqn:E2; [|discriminate].
        intros E. injection E as _ <-.
        apply IH in E2; cbn in Hn |- *; lia. }
    destruct (c <? 32)%N; [discriminate|].
    destruct (parseChars s1) as [[t' r']|] eqn:E1; [|discriminate].
    intros E. injection E as _ <-.
    apply IH in E1; cbn in Hn |- *; lia.
Qed.

Lemma parseChars_shorter (s t r : jsstring) :
  parseChars s = Some (t, r) -> (List.length r < List.length s)%nat.
Proof. now apply (parseChars_shorter_bounded (List.length s)). Qed.

Lemma scanNumber_shorter (s t r : jsstring) :
  scanNumber s = Some (t, r) -> (List.length r < List.length s)%nat.
Proof.
  intros E. pose proof (scanNumber_split _ _ _ E) as Hs.
  assert (t <> []) as Ht.
  { revert E. unfold scanNumber.
    destruct (scanMinus s) as [sg s0].
    destruct (scanInt s0) as [[i s1]|] eqn:Ei; [|discriminate].
    destruct (scanFrac s1) as [f s2]. destruct (scanExp s2) as [e s3].
    intros E. injection E as <- _.
    assert (i <> []) as Hi.
    { destruct s0 as [|c s0']; [discriminate|]. cbn [scanInt] in Ei.
      destruct (c =? 48)%N; [injection Ei as <- _; discriminate|].
      destruct (isDigit c); [injection Ei as <- _; discriminate|discriminate]. }
    destruct sg; [destruct i; [congruence | discriminate] | discriminate]. }
  subst s. rewrite length_app. destruct t; [congruence | cbn; lia].
Qed.

Lemma skipn_shorter (n : nat) (c : char) (s : jsstring) :
  (List.length (skipn (S n) (c :: s)) < List.length (c :: s))%nat.
Proof. rewrite length_skipn. cbn [List.length]. lia. Qed.

Section Fuel.
Context {NUM : Numbers}.

(** A value takes at least one code unit of the text. *)
Lemma parse_shorter (fuel : nat) :
  (forall s v r,
      parseValue fuel s = Some (v, r) -> (List.length r < List.length s)%nat)
  /\ (forall s acc v r,
         parseElements fuel s acc = Some (v, r) ->
         (List.length r < List.length s)%nat)
  /\ (forall s acc v r,
         parseMembers fuel s acc = Some (v, r) ->
         (List.length r < List.length s)%nat).
Proof.
  induction fuel as [|fuel [IHv [IHe IHm]]];
    [repeat split; intros; discriminate|].
  split; [|split].
  - intros s v r. cbn [parseValue]. destruct s as [|c s']; [discriminate|].
    pose proof (skipWs_length s') as Hws.
    destruct (c =? 123)%N.
    { destruct (skipWs s') as [|d s2]; [discriminate|].
      destruct (d =? 125)%N.
      - intros E. injection E as _ <-. cbn in *. lia.
      - intros E. apply IHm in E. cbn in *. lia. }
    destruct (c =? 91)%N.
    { destruct (skipWs s') as [|d s2]; [discriminate|].
      destruct (d =? 93)%N.
      - intros E. injection E as _ <-. cbn in *. lia.
      - intros E. apply IHe in E. cbn in *. lia. }
    destruct (c =? QUOTE)%N.
    { destruct (parseChars s') as [[t r0]|] eqn:Ec; [|discriminate].
      intros E. injection E as _ <-. apply parseChars_shorter in Ec.
      cbn. lia. }
    destruct (startsWith (c :: s') (str "true")) eqn:Et.
    { intros E. injection E as _ <-. apply (skipn_shorter 3) || apply (skipn_shorter 4). }
    destruct (startsWith (c :: s') (str "false")) eqn:Ef.
    { intros E. injection E as _ <-. apply (skipn_shorter 3) || apply (skipn_shorter 4). }
    destruct (startsWith (c :: s') (str "null")) eqn:En.
    { intros E. injection E as _ <-. apply (skipn_shorter 3) || apply (skipn_shorter 4). }
    destruct (scanNumber (c :: s')) as [[tok r0]|] eqn:Es; [|discriminate].
    intros E. injection E as _ <-. now apply scanNumber_shorter in Es.
  - intros s acc v r. cbn [parseElements].
    destruct (parseValue fuel s) as [[x s1]|] eqn:Ex; [|discriminate].
    apply IHv in Ex. pose proof (skipWs_length s1) as Hws.
    destruct (skipWs s1) as [|d s2]; [discriminate|].
    pose proof (skipWs_length s2) as Hws2.
    destruct (d =? COMMA)%N.
    + intros E. apply IHe in E. cbn in *. lia.
    + destruct (d =? 93)%N; [|discriminate].
      intros E. injection E as _ <-. cbn in *. lia.
  - intros s acc v r. cbn [parseMembers].
    destruct s as [|q s0]; [discriminate|].
    destruct (q =? QUOTE)%N; [|discriminate].
    destruct (parseChars s0) as [[k s1]|] eqn:Ek; [|discriminate].
    apply parseChars_shorter in Ek. pose proof (skipWs_length s1) as Hws1.
    destruct (skipWs s1) as [|c s2]; [discriminate|].
    pose proof (skipWs_length s2) as Hws2.
    destruct (c =? COLON)%N; [|discriminate].
    destruct (parseValue fuel (skipWs s2)) as [[x s3]|] eqn:Ex; [|discriminate].
    apply IHv in Ex. pose proof (skipWs_length s3) as Hws3.
    destruct (skipWs s3) as [|d s4]; [discriminate|].
    pose proof (skipWs_length s4) as Hws4.
    destruct (d =? COMMA)%N.
    + intros E. apply IHm in E. cbn in *. lia.
    + destruct (d =? 125)%N; [|discriminate].
      intros E. injection E as _ <-. cbn in *. lia.
Qed.

(** The fuel only bounds the recursion: a value of [n] code units is read
    the same by every fuel above [2 * n], a list of elements or members by
    every fuel above [2 * n + 1]. *)
Lemma fuel_irrelevant_below (n : nat) :
  forall s, (List.length s < n)%nat ->
    (forall f1 f2,
        (2 * List.length s + 1 <= f1)%nat ->
        (2 * List.length s + 1 <= f2)%nat ->
        parseValue f1 s = parseValue f2 s)
    /\ (forall f1 f2 acc,
           (2 * List.length s + 2 <= f1)%nat ->
           (2 * List.length s + 2 <= f2)%nat ->
           parseElements f1 s acc = parseElements f2 s acc)
    /\ (forall f1 f2 acc,
           (2 * List.length s + 2 <= f1)%nat ->
           (2 * List.length s + 2 <= f2)%nat ->
           parseMembers f1 s acc = parseMembers f2 s acc).
Proof.
  induction n as [|n IH]; intros s Hn; [lia|].
  assert (forall f1 f2,
             (2 * List.length s + 1 <= f1)%nat ->
             (2 * List.length s + 1 <= f2)%nat ->
             parseValue f1 s = parseValue f2 s) as HV.
  { intros [|f1] [|f2] H1 H2; try lia. cbn [parseValue].
    destruct s as [|c s']; [reflexivity|].
    pose proof (skipWs_length s') as Hws. cbn [List.length] in *.
    destruct (c =? 123)%N.
    { destruct (skipWs s') as [|d s2]; [reflexivity|].
      destruct (d =? 125)%N; [reflexivity|].
      apply (IH (d :: s2)); lia. }
    destruct (c =? 91)%N.
    { destruct (skipWs s') as [|d s2]; [reflexivity|].
      destruct (d =? 93)%N; [reflexivity|].
      apply (IH (d :: s2)); lia. }
    reflexivity. }
  split; [exact HV|split].
  - intros [|f1] [|f2] acc H1 H2; try lia. cbn [parseElements].
    rewrite (HV f1 f2) by lia.
    destruct (parseValue f2 s) as [[v s1]|] eqn:Ev; [|reflexivity].
    apply parse_shorter in Ev. pose proof (skipWs_length s1) as Hws.
    destruct (skipWs s1) as [|d s2]; [reflexivity|].
    pose proof (skipWs_length s2) as Hws2. cbn [List.length] in *.
    destruct (d =? COMMA)%N; [|reflexivity].
    apply (IH (skipWs s2)); lia.
  - intros [|f1] [|f2] acc H1 H2; try lia. cbn [parseMembers].
    destruct s as [|q s0]; [reflexivity|].
    destruct (q =? QUOTE)%N; [|reflexivity].
    destruct (parseChars s0) as [[k s1]|] eqn:Ek; [|reflexivity].
    apply parseChars_shorter in Ek. pose proof (skipWs_length s1) as Hws1.
    destruct (skipWs s1) as [|c s2]; [reflexivity|].
    pose proof (skipWs_length s2) as Hws2. cbn [List.length] in *.
    destruct (c =? COLON)%N; [|reflexivity].
    replace (parseValue f1 (skipWs s2)) with (parseValue f2 (skipWs s2))
      by (apply (IH (skipWs s2)); lia).
    destruct (parseValue f2 (skipWs s2)) as [[v s3]|] eqn:Ev; [|reflexivity].
    apply parse_shorter in Ev. pose proof (skipWs_length s3) as Hws3.
    destruct (skipWs s3) as [|d s4]; [reflexivity|].
    pose proof (skipWs_length s4) as Hws4. cbn [List.length] in *.
    destruct (d =? COMMA)%N; [|reflexivity].
    apply (IH (skipWs s4)); lia.
Qed.

Lemma parseValue_fuel (s : jsstring) (f1 f2 : nat) :
  (2 * List.length s + 1 <= f1)%nat ->
  (2 * List.length s + 1 <= f2)%nat ->
  parseValue f1 s = parseValue f2 s.
Proof.
  intros H1 H2.
  now apply (fuel_irrelevant_below (S (List.length s)) s (Nat.lt_succ_diag_r _)).
Qed.

(** [parse] gives its parser enough fuel: more changes nothing. *)
Lemma parse_fuel (text : jsstring) (fuel : nat) :
  (2 * List.length text + 2 <= fuel)%nat ->
  parse text =
  match parseValue fuel (skipWs text) with
  | Some (v, rest) =>
      match skipWs rest with
      | [] => Some v
      | _ :: _ => None
      end
  | None => None
  end.
Proof.
  intros H. pose proof (skipWs_length text) as Hws. unfold parse.
  now rewrite (parseValue_fuel (skipWs text) (2 * List.length text + 2) fuel)
    by lia.
Qed.

End Fuel.

End FuelFacts.

Module ParseFacts.
Import JSON JSFacts StringFacts NumberFacts KeyFacts ObjectFacts.

Section Parsing.
Context {NUM : Numbers}.

(** Induction on a value, through the elements and the members. *)
Lemma value_induction (P : value -> Prop) :
  P VNull -> (forall b, P (VBool b)) -> (forall n, P (VNumber n)) ->
  (forall s, P (VString s)) ->
  (forall l, Forall P l -> P (VArray l)) ->
  (forall ms, Forall (fun kv => P (snd kv)) ms -> P (VObject ms)) ->
  forall v, P v.
Proof.
  intros HNull HBool HNumber HString HArray HObject.
  fix IH 1. intros [|b|n|s|l|ms].
  - exact HNull.
  - apply HBool.
  - apply HNumber.
  - apply HString.
  - apply HArray. induction l as [|x l IHl]; constructor.
    + exact (IH x).
    + exact IHl.
  - apply HObject. induction ms as [|[k x] ms IHms]; constructor.
    + exact (IH x).
    + exact IHms.
Qed.

(** What [JSON.parse] builds is canonical. *)
Lemma parse_canonical_fuel (fuel : nat) :
  (forall s v r, parseValue fuel s = Some (v, r) -> canonical v)
  /\ (forall s acc v r,
         parseElements fuel s acc = Some (v, r) ->
         Forall canonical acc -> canonical v)
  /\ (forall s acc v r,
         parseMembers fuel s acc = Some (v, r) ->
         keysOrdered (List.map fst acc) ->
         Forall (fun kv => canonical (snd kv)) acc ->
         canonical v).
Proof.
  induction fuel as [|fuel [IHv [IHe IHm]]];
    [repeat split; intros; discriminate|].
  split; [|split].
  - intros s v r. cbn [parseValue]. destruct s as [|c s']; [discriminate|].
    destruct (c =? 123)%N.
    { destruct (skipWs s') as [|d s2]; [discriminate|].
      destruct (d =? 125)%N.
      - intros E. injection E as <- _. apply canonical_object.
        split; [exact I | constructor].
      - intros E. apply (IHm _ _ _ _ E); [exact I | constructor]. }
    destruct (c =? 91)%N.
    { destruct (skipWs s') as [|d s2]; [discriminate|].
      destruct (d =? 93)%N.
      - intros E. injection E as <- _. exact I.
      - intros E. apply (IHe _ _ _ _ E). constructor. }
    destruct (c =? QUOTE)%N.
    { destruct (parseChars s') as [[t r0]|]; [|discriminate].
      intros E. injection E as <- _. exact I. }
    destruct (startsWith (c :: s') (str "true"));
      [intros E; injection E as <- _; exact I|].
    destruct (startsWith (c :: s') (str "false"));
      [intros E; injection E as <- _; exact I|].
    destruct (startsWith (c :: s') (str "null"));
      [intros E; injection E as <- _; exact I|].
    destruct (scanNumber (c :: s')) as [[tok r0]|]; [|discriminate].
    intros E. injection E as <- _. exact I.
  - intros s acc v r. cbn [parseElements].
    destruct (parseValue fuel s) as [[x s1]|] eqn:Ex; [|discriminate].
    pose proof (IHv _ _ _ Ex) as Hx.
    destruct (skipWs s1) as [|d s2]; [discriminate|].
    destruct (d =? COMMA)%N.
    + intros E Hacc. apply (IHe _ _ _ _ E).
      apply Forall_app. split; [exact Hacc | now repeat constructor].
    + destruct (d =? 93)%N; [|discriminate].
      intros E Hacc. injection E as <- _. apply canonical_array.
      apply Forall_app. split; [exact Hacc | now repeat constructor].
  - intros s acc v r. cbn [parseMembers].
    destruct s as [|q s0]; [discriminate|].
    destruct (q =? QUOTE)%N; [|discriminate].
    destruct (parseChars s0) as [[k s1]|]; [|discriminate].
    destruct (skipWs s1) as [|c s2]; [discriminate|].
    destruct (c =? COLON)%N; [|discriminate].
    destruct (parseValue fuel (skipWs s2)) as [[x s3]|] eqn:Ex; [|discriminate].
    pose proof (IHv _ _ _ Ex) as Hx.
    destruct (skipWs s3) as [|d s4]; [discriminate|].
    destruct (d =? COMMA)%N.
    + intros E Hk Hacc. apply (IHm _ _ _ _ E).
      * now apply CreateDataProperty_ordered.
      * now apply CreateDataProperty_values.
    + destruct (d =? 125)%N; [|discriminate].
      intros E Hk Hacc. injection E as <- _. apply canonical_object. split.
      * now apply CreateDataProperty_ordered.
      * now apply CreateDataProperty_values.
Qed.

Lemma parse_canonical (text : jsstring) (v : value) :
  parse text = Some v -> canonical v.
Proof.
  unfold parse.
  destruct (parseValue (2 * List.length text + 2) (skipWs text))
    as [[x rest]|] eqn:E; [|discriminate].
  destruct (skipWs rest); [|discriminate].
  intros H. injection H as <-.
  exact (proj1 (parse_canonical_fuel _) _ _ _ E).
Qed.

(** *** Reading back what [JSON.stringify] wrote *)

Lemma skipWs_indent (n : nat) (s : jsstring) :
  skipWs (indentOf n ++ s) = skipWs s.
Proof.
  unfold indentOf, repeatN. induction n as [|n IH]; [reflexivity|].
  cbn [List.repeat List.concat]. rewrite <- app_assoc. exact IH.
Qed.

Lemma skipWs_newline_indent (n : nat) (s : jsstring) :
  skipWs (LF :: indentOf n ++ s) = skipWs s.
Proof. exact (skipWs_indent n s). Qed.

Lemma skipWs_head (c : char) (s : jsstring) :
  isJSONWhiteSpace c = false -> skipWs (c :: s) = c :: s.
Proof. intros H. unfold skipWs. cbn [dropWhile]. now rewrite H. Qed.

Context {LAWS : NumberLaws NUM}.

(** The text of a value starts with a code unit that is neither white
    space nor a closing bracket. *)
Lemma serialized_head (level : nat) (v : value) :
  exists c r,
    SerializeJSONProperty level v = c :: r
    /\ isJSONWhiteSpace c = false /\ (c =? 93)%N = false.
Proof.
  destruct v as [|[|]|n|s|l|ms]; cbn [SerializeJSONProperty].
  - now eexists _, _.
  - now eexists _, _.
  - now eexists _, _.
  - destruct (isFinite n) eqn:Hf; [|now eexists _, _].
    destruct (token_head _ (toString_token n Hf)) as [c [r [-> Hc]]].
    exists c, r. split; [reflexivity|].
    destruct Hc as [Hd| ->]; [|now split].
    apply digit_bounds in Hd. unfold isJSONWhiteSpace. cbn [existsb].
    split; [|apply N.eqb_neq; lia].
    rewrite !orb_false_iff, !N.eqb_neq. repeat split; lia.
  - now eexists _, _.
  - unfold wrap. destruct (List.map _ l); now eexists _, _.
  - unfold wrap. destruct (List.map _ ms); now eexists _, _.
Qed.

Lemma parseValue_token (fuel : nat) (tok rest : jsstring) :
  isNumberToken tok = true ->
  inert rest = true ->
  parseValue (S fuel) (tok ++ rest) = Some (VNumber (StringToNumber tok), rest).
Proof.
  intros Htok Hrest.
  destruct (token_head _ Htok) as [c [r [E Hc]]].
  pose proof (scanNumber_token tok rest Htok Hrest) as Hscan.
  subst tok. cbn [app] in *. cbn [parseValue].
  assert ((c =? 123)%N = false /\ (c =? 91)%N = false
          /\ (c =? QUOTE)%N = false /\ (116 =? c)%N = false
          /\ (102 =? c)%N = false /\ (110 =? c)%N = false)
    as [H1 [H2 [H3 [H4 [H5 H6]]]]].
  { destruct Hc as [Hd| ->]; [|now repeat split].
    apply digit_bounds in Hd. unfold QUOTE.
    repeat split; apply N.eqb_neq; lia. }
  rewrite H1, H2, H3.
  cbn [startsWith str List.map list_ascii_of_string].
  change (N_of_ascii "t") with 116%N. change (N_of_ascii "f") with 102%N.
  change (N_of_ascii "n") with 110%N.
  rewrite H4, H5, H6. cbn [andb].
  now rewrite Hscan.
Qed.

Lemma join_head (sep p : jsstring) (ps : list jsstring) (c : char)
  (r : jsstring) :
  p = c :: r -> exists r', join sep (p :: ps) = c :: r'.
Proof.
  intros ->. destruct ps as [|q ps]; [now exists r|].
  rewrite join_cons2. now eexists.
Qed.

Lemma skipWs_join (sep p : jsstring) (ps : list jsstring) (tail : jsstring) :
  match p with
  | c :: _ => negb (isJSONWhiteSpace c)
  | [] => false
  end = true ->
  skipWs (join sep (p :: ps) ++ tail) = join sep (p :: ps) ++ tail.
Proof.
  destruct p as [|c r]; [discriminate|]. intros H.
  apply negb_true_iff in H.
  destruct (join_head sep (c :: r) ps c r eq_refl) as [r' ->].
  now apply skipWs_head.
Qed.

Lemma parseElements_join (level : nat) (rest : jsstring) :
  forall xs,
    Forall ReadsBack xs ->
    xs <> [] ->
    forall acc fuel,
      (list_sum (List.map (fun x => S (size x)) xs) <= fuel)%nat ->
      parseElements fuel
        (join ([COMMA; LF] ++ indentOf (S level))
           (List.map (SerializeJSONProperty (S level)) xs)
         ++ [LF] ++ indentOf level ++ 93%N :: rest) acc
      = Some (VArray (acc ++ List.map reparsed xs), rest).
Proof.
  induction xs as [|x xs IH]; intros Hall Hne acc fuel Hfuel; [congruence|].
  inversion Hall as [|? ? Hx Hxs]; subst.
  cbn [List.map list_sum fold_right] in Hfuel.
  destruct fuel as [|f]; [lia|].
  destruct xs as [|y ys].
  - cbn [List.map join parseElements].
    rewrite (Hx (S level) f) by (cbn in Hfuel; lia || reflexivity).
    cbn [app]. rewrite skipWs_newline_indent, skipWs_head by reflexivity.
    reflexivity.
  - change (List.map (SerializeJSONProperty (S level)) (x :: y :: ys))
      with (SerializeJSONProperty (S level) x
            :: List.map (SerializeJSONProperty (S level)) (y :: ys)).
    cbn [List.map] in IH |- *. rewrite join_cons2.
    rewrite <- !app_assoc. cbn [app parseElements].
    rewrite (Hx (S level) f) by (lia || reflexivity).
    rewrite skipWs_head by reflexivity.
    change (COMMA =? COMMA)%N with true. cbv iota.
    rewrite skipWs_newline_indent.
    destruct (serialized_head (S level) y) as [c [r [Ey [Hws _]]]].
    destruct (join_head ([COMMA; LF] ++ indentOf (S level)) _
                (List.map (SerializeJSONProperty (S level)) ys) c r Ey)
      as [r' Ej].
    cbn [app] in Ej.
    assert (forall tail,
               skipWs
                 (join (COMMA :: LF :: indentOf (S level))
                    (SerializeJSONProperty (S level) y
                     :: List.map (SerializeJSONProperty (S level)) ys)
                  ++ tail)
               = join (COMMA :: LF :: indentOf (S level))
                   (SerializeJSONProperty (S level) y
                    :: List.map (SerializeJSONProperty (S level)) ys)
                 ++ tail) as Hskip.
    { intros tail. rewrite Ej. cbn [app]. now apply skipWs_head. }
    rewrite Hskip.
    specialize (IH Hxs ltac:(discriminate) (acc ++ [reparsed x]) f).
    cbn [app] in IH. rewrite IH by (cbn [List.map list_sum fold_right] in *; lia).
    now rewrite <- app_assoc.
Qed.

Lemma keysOrdered_prefix (a b : list jsstring) :
  keysOrdered (a ++ b) -> keysOrdered a.
Proof.
  induction a as [|k a IH]; cbn [app keysOrdered]; [intros _; exact I|].
  rewrite Forall_app. intros [[Ha _] Hr]. split; [exact Ha | now apply IH].
Qed.

Lemma member_text (k : jsstring) (body tail : jsstring) :
  (QuoteJSONString k ++ [COLON; 32%N] ++ body) ++ tail
  = QUOTE :: quoteChars k ++ QUOTE :: COLON :: 32%N :: body ++ tail.
Proof.
  unfold QuoteJSONString. cbn [app]. rewrite <- !app_assoc. reflexivity.
Qed.

Lemma parseMembers_member (f : nat) (k : jsstring) (x : value) (level : nat)
  (tail : jsstring) (acc : list (jsstring * value)) :
  ReadsBack x ->
  (size x <= f)%nat ->
  inert tail = true ->
  parseMembers (S f)
    ((QuoteJSONString k ++ [COLON; 32%N] ++ SerializeJSONProperty level x)
     ++ tail) acc
  = match skipWs tail with
    | [] => None
    | d :: s4 =>
        if (d =? COMMA)%N
        then parseMembers f (skipWs s4) (CreateDataProperty acc k (reparsed x))
        else if (d =? 125)%N
             then Some (VObject (CreateDataProperty acc k (reparsed x)), s4)
             else None
    end.
Proof.
  intros Hx Hf Htail. rewrite member_text. cbn [parseMembers].
  change (QUOTE =? QUOTE)%N with true. cbv iota.
  rewrite parseChars_quoteChars.
  rewrite skipWs_head by reflexivity.
  change (COLON =? COLON)%N with true. cbv iota.
  assert (skipWs (32%N :: SerializeJSONProperty level x ++ tail)
          = SerializeJSONProperty level x ++ tail) as ->.
  { destruct (serialized_head level x) as [c [r [-> [Hws _]]]].
    change (skipWs (32%N :: (c :: r) ++ tail)) with (skipWs (c :: r ++ tail)).
    now apply skipWs_head. }
  now rewrite (Hx level f tail Hf Htail).
Qed.

Lemma parseMembers_join (level : nat) (rest : jsstring) :
  forall ms,
    Forall (fun kv => ReadsBack (snd kv)) ms ->
    ms <> [] ->
    forall acc fuel,
      keysOrdered (List.map fst acc ++ List.map fst ms) ->
      (list_sum (List.map (fun kv => S (size (snd kv))) ms) <= fuel)%nat ->
      parseMembers fuel
        (join ([COMMA; LF] ++ indentOf (S level))
           (List.map
              (fun kv =>
                 QuoteJSONString (fst kv) ++ [COLON; 32%N]
                 ++ SerializeJSONProperty (S level) (snd kv)) ms)
         ++ [LF] ++ indentOf level ++ 125%N :: rest) acc
      = Some (VObject
                (acc ++ List.map (fun kv => (fst kv, reparsed (snd kv))) ms),
              rest).
Proof.
  induction ms as [|[k x] ms IH]; intros Hall Hne acc fuel Hkeys Hfuel;
    [congruence|].
  inversion Hall as [|? ? Hx Hms]; subst. cbn [snd] in Hx.
  cbn [List.map list_sum fold_right fst snd] in Hfuel, Hkeys.
  destruct fuel as [|f]; [lia|].
  assert (CreateDataProperty acc k (reparsed x) = acc ++ [(k, reparsed x)])
    as Hcreate.
  { apply CreateDataProperty_append. rewrite map_app. cbn [List.map fst].
    apply (keysOrdered_prefix _ (List.map fst ms)).
    now rewrite <- app_assoc. }
  destruct ms as [|[k' y] ms'].
  - cbn [List.map join fst snd].
    rewrite parseMembers_member by (assumption || lia || reflexivity).
    cbn [app]. rewrite skipWs_newline_indent, skipWs_head by reflexivity.
    change (125 =? COMMA)%N with false. change (125 =? 125)%N with true.
    cbv iota. now rewrite Hcreate.
  - cbn [List.map fst snd] in IH |- *. rewrite join_cons2.
    rewrite <- !app_assoc.
    rewrite (app_assoc (QuoteJSONString k)), (app_assoc (QuoteJSONString k ++ _)).
    rewrite <- (app_assoc (QuoteJSONString k)).
    rewrite parseMembers_member by (assumption || lia || reflexivity).
    cbn [app]. rewrite skipWs_head by reflexivity.
    change (COMMA =? COMMA)%N with true. cbv iota.
    rewrite skipWs_newline_indent, Hcreate.
    match goal with
    | |- context [skipWs (join ?sep (?p :: ?ps) ++ ?t)] =>
        rewrite (skipWs_join sep p ps t) by reflexivity
    end.
    match goal with
    | |- _ = Some (VObject (?a ++ ?e :: ?m), _) =>
        replace (a ++ e :: m) with ((a ++ [e]) ++ m)
          by (now rewrite <- app_assoc)
    end.
    apply IH.
    + exact Hms.
    + discriminate.
    + rewrite map_app, <- app_assoc. exact Hkeys.
    + cbn [List.map list_sum fold_right fst snd] in *. lia.
Qed.

Lemma wrap_nonempty (open close : char) (level : nat) (p : jsstring)
  (ps : list jsstring) (rest : jsstring) :
  wrap open close level (p :: ps) ++ rest
  = open :: LF :: indentOf (S level)
    ++ (join ([COMMA; LF] ++ indentOf (S level)) (p :: ps)
        ++ [LF] ++ indentOf level ++ close :: rest).
Proof.
  unfold wrap. repeat (rewrite <- app_assoc; cbn [app]). reflexivity.
Qed.

(** [JSON.parse] reads the text of a canonical value back. *)
Lemma reads_back (v : value) : canonical v -> ReadsBack v.
Proof.
  induction v as [|b|n|s|l IH|ms IH] using value_induction;
    intros Hcan level fuel rest Hfuel Hrest;
    (destruct fuel as [|f]; [cbn in Hfuel; lia|]).
  - reflexivity.
  - destruct b; reflexivity.
  - cbn [SerializeJSONProperty reparsed].
    destruct (isFinite n) eqn:Hf; [|reflexivity].
    apply parseValue_token; [now apply toString_token | exact Hrest].
  - cbn [SerializeJSONProperty reparsed]. unfold QuoteJSONString.
    cbn [app parseValue].
    change (QUOTE =? 123)%N with false. change (QUOTE =? 91)%N with false.
    change (QUOTE =? QUOTE)%N with true. cbv iota.
    rewrite <- app_assoc. cbn [app]. now rewrite parseChars_quoteChars.
  - apply canonical_array in Hcan.
    assert (Forall ReadsBack l) as Hall.
    { rewrite Forall_forall in *. intros x Hx. apply IH; auto. }
    cbn [SerializeJSONProperty reparsed size] in *.
    destruct l as [|x xs]; [reflexivity|].
    cbn [List.map]. rewrite wrap_nonempty. cbn [parseValue].
    change (91 =? 123)%N with false. change (91 =? 91)%N with true.
    cbv iota. rewrite skipWs_newline_indent.
    destruct (serialized_head (S level) x) as [c [r [Ex [Hws Hc]]]].
    match goal with
    | |- context [skipWs (join ?sep (?p :: ?ps) ++ ?t)] =>
        rewrite (skipWs_join sep p ps t) by (rewrite Ex; now rewrite Hws);
        destruct (join_head sep p ps c r Ex) as [r' Ej];
        rewrite Ej
    end.
    cbn [app]. rewrite Hc. rewrite (app_comm_cons r'), <- Ej.
    change (SerializeJSONProperty (S level) x
            :: List.map (SerializeJSONProperty (S level)) xs)
      with (List.map (SerializeJSONProperty (S level)) (x :: xs)).
    rewrite (parseElements_join level rest (x :: xs) Hall) by
        (discriminate || lia).
    reflexivity.
  - apply canonical_object in Hcan. destruct Hcan as [Hkeys Hcan].
    assert (Forall (fun kv => ReadsBack (snd kv)) ms) as Hall.
    { rewrite Forall_forall in *. intros x Hx. apply IH; auto. }
    cbn [SerializeJSONProperty reparsed size] in *.
    destruct ms as [|[k x] ms']; [reflexivity|].
    cbn [List.map]. rewrite wrap_nonempty. cbn [parseValue].
    change (123 =? 123)%N with true. cbv iota.
    rewrite skipWs_newline_indent.
    match goal with
    | |- context [skipWs (join ?sep (?p :: ?ps) ++ ?t)] =>
        rewrite (skipWs_join sep p ps t) by reflexivity;
        destruct (join_head sep p ps QUOTE
                    (quoteChars k ++ [QUOTE] ++ [COLON; 32%N]
                     ++ SerializeJSONProperty (S level) x))
          as [r' Ej];
        [unfold QuoteJSONString; cbn [fst snd app];
         now rewrite <- !app_assoc|];
        rewrite Ej
    end.
    cbn [app]. change (QUOTE =? 125)%N with false. cbv iota.
    rewrite (app_comm_cons r'), <- Ej.
    match goal with
    | |- parseMembers _ (join ?sep (?p :: ?ps) ++ _) _ = _ =>
        change (p :: ps)
          with (List.map
                  (fun kv =>
                     QuoteJSONString (fst kv) ++ [COLON; 32%N]
                     ++ SerializeJSONProperty (S level) (snd kv))
                  ((k, x) :: ms'))
    end.
    rewrite (parseMembers_join level rest ((k, x) :: ms') Hall)
      by (discriminate || exact Hkeys || lia).
    reflexivity.
Qed.

(** The text of the value read back is the text of the value. *)
Lemma serialize_reparsed (v : value) :
  forall level,
    SerializeJSONProperty level (reparsed v) = SerializeJSONProperty level v.
Proof.
  induction v as [|b|n|s|l IH|ms IH] using value_induction; intros level;
    try reflexivity.
  - cbn [reparsed SerializeJSONProperty].
    destruct (isFinite n) eqn:Hf; [|reflexivity].
    cbn [SerializeJSONProperty].
    now rewrite (toString_finite n Hf), (toString_stable n Hf).
  - cbn [reparsed SerializeJSONProperty]. f_equal.
    rewrite map_map. apply map_ext_in. intros x Hx.
    rewrite Forall_forall in IH. now apply IH.
  - cbn [reparsed SerializeJSONProperty]. f_equal.
    rewrite map_map. apply map_ext_in. intros [k x] Hx. cbn [fst snd].
    rewrite Forall_forall in IH. now rewrite (IH (k, x) Hx).
Qed.

(** The text of a value is at least as long as the bound [size]. *)
Lemma list_sum_le (A : Type) (f g : A -> nat) (l : list A) :
  Forall (fun x => (f x <= g x)%nat) l ->
  (list_sum (List.map f l) <= list_sum (List.map g l))%nat.
Proof.
  induction 1 as [|x l Hx _ IH]; cbn [List.map list_sum fold_right];
    [lia|]. unfold list_sum in IH. lia.
Qed.

Lemma join_length (sep : jsstring) (ps : list jsstring) :
  (1 <= List.length sep)%nat ->
  (list_sum (List.map (fun p => S (List.length p)) ps)
   <= S (List.length (join sep ps)))%nat.
Proof.
  intros Hsep. induction ps as [|p [|q ps] IH].
  - cbn. lia.
  - cbn. lia.
  - rewrite join_cons2. cbn [List.map list_sum fold_right] in *.
    rewrite !length_app. lia.
Qed.

Lemma wrap_length (open close : char) (level : nat) (ps : list jsstring) :
  (S (list_sum (List.map (fun p => S (List.length p)) ps))
   <= List.length (wrap open close level ps))%nat.
Proof.
  destruct ps as [|p ps]; [cbn; lia|].
  pose proof (join_length ([COMMA; LF] ++ indentOf (S level)) (p :: ps)
                ltac:(cbn; lia)) as H.
  unfold wrap. rewrite !length_app. cbn [List.length] in *. lia.
Qed.

Lemma size_le_length (v : value) :
  forall level, (size v <= List.length (SerializeJSONProperty level v))%nat.
Proof.
  induction v as [|b|n|s|l IH|ms IH] using value_induction; intros level.
  - cbn. lia.
  - destruct b; cbn; lia.
  - cbn [size SerializeJSONProperty].
    destruct (isFinite n) eqn:Hf; [|cbn; lia].
    destruct (token_head _ (toString_token n Hf)) as [c [r [-> _]]].
    cbn. lia.
  - cbn [size SerializeJSONProperty]. unfold QuoteJSONString. cbn. lia.
  - cbn [size SerializeJSONProperty].
    etransitivity; [|apply wrap_length]. apply le_n_S.
    rewrite map_map. apply list_sum_le.
    rewrite Forall_forall in *. intros x Hx. apply le_n_S. now apply IH.
  - cbn [size SerializeJSONProperty].
    etransitivity; [|apply wrap_length]. apply le_n_S.
    rewrite map_map. apply list_sum_le.
    rewrite Forall_forall in *. intros [k x] Hx. apply le_n_S.
    cbn [fst snd]. rewrite !length_app.
    pose proof (IH (k, x) Hx (S level)) as H. cbn [snd] in H. lia.
Qed.

Lemma parse_stringify (v : value) :
  canonical v -> parse (stringify v ++ [LF]) = Some (reparsed v).
Proof.
  intros Hcan. unfold parse, stringify.
  destruct (serialized_head 0 v) as [c [r [Ev [Hws _]]]].
  assert (skipWs (SerializeJSONProperty 0 v ++ [LF])
          = SerializeJSONProperty 0 v ++ [LF]) as ->.
  { rewrite Ev. now apply skipWs_head. }
  rewrite (reads_back v Hcan 0 _ [LF]); [reflexivity| |reflexivity].
  pose proof (size_le_length v 0). rewrite length_app. lia.
Qed.

End Parsing.

(** The canonical formatter is idempotent. *)
Lemma formatPureJSON_stable (NUM : Numbers) (LAWS : NumberLaws NUM)
  (x y : jsstring) :
  Format.formatPureJSON x = Some y -> Format.formatPureJSON y = Some y.
Proof.
  unfold Format.formatPureJSON.
  destruct (parse x) as [v|] eqn:Ex; [|discriminate].
  intros E. injection E as <-.
  rewrite (parse_stringify v (parse_canonical x v Ex)).
  unfold stringify. now rewrite serialize_reparsed.
Qed.

End ParseFacts.

Module DemoFacts.
Import JSON Demo NumberFacts KeyFacts.

Lemma readDigits_digits (u : Decimal.uint) : readDigits (digits u) = u.
Proof. induction u; cbn; now rewrite ?IHu. Qed.

Lemma digits_all (u : Decimal.uint) : forallb isDigit (digits u) = true.
Proof. induction u; cbn; auto. Qed.

Lemma takeWhile_all (p : char -> bool) (s : jsstring) :
  forallb p s = true -> takeWhile p s = s /\ dropWhile p s = [].
Proof.
  induction s as [|c s IH]; cbn; [now split|].
  intros H. apply andb_true_iff in H. destruct H as [Hc Hs]. rewrite Hc.
  destruct (IH Hs) as [-> ->]. now split.
Qed.

Lemma digits_token (c : char) (rest : jsstring) :
  isDigit c = true -> c <> 48%N -> forallb isDigit rest = true ->
  isNumberToken (c :: rest) = true /\ isNumberToken (45%N :: c :: rest) = true.
Proof.
  intros Hc H0 Hrest. apply digit_bounds in Hc as Hb.
  destruct (takeWhile_all isDigit rest Hrest) as [Ht Hd].
  assert (scanInt (c :: rest) = Some (c :: rest, [])) as Hint.
  { cbn [scanInt]. apply N.eqb_neq in H0. now rewrite H0, Hc, Ht, Hd. }
  unfold isNumberToken, scanNumber. split.
  - assert (scanMinus (c :: rest) = ([], c :: rest)) as ->.
    { cbn [scanMinus]. destruct (c =? 45)%N eqn:E; [|reflexivity].
      apply N.eqb_eq in E. lia. }
    rewrite Hint. reflexivity.
  - cbn [scanMinus]. change (45 =? 45)%N with true. cbv iota.
    rewrite Hint. reflexivity.
Qed.

(** The decimal digits of a positive number start with a digit that is not
    zero. *)
Lemma to_uint_head (p : positive) :
  exists c rest,
    digits (Pos.to_uint p) = c :: rest
    /\ isDigit c = true /\ c <> 48%N /\ forallb isDigit rest = true.
Proof.
  pose proof (DecimalPos.Unsigned.to_of (Pos.to_uint p)) as Hn.
  rewrite DecimalPos.Unsigned.of_to in Hn. cbn [N.to_uint] in Hn.
  pose proof (DecimalPos.Unsigned.to_uint_nonzero p) as Hz.
  pose proof (DecimalPos.Unsigned.to_uint_nonnil p) as Hnil.
  pose proof (digits_all (Pos.to_uint p)) as Hall.
  destruct (Pos.to_uint p) as [|u|u|u|u|u|u|u|u|u|u]; try congruence;
    cbn [digits forallb] in Hall |- *;
    try (eexists _, _; split; [reflexivity|];
         split; [reflexivity|]; split; [discriminate|];
         now apply andb_true_iff in Hall).
  exfalso. rewrite DecimalFacts.unorm_D0 in Hn.
  destruct u as [|u|u|u|u|u|u|u|u|u|u];
    try (now apply Hz);
    match type of Hn with
    | _ = Decimal.unorm ?d =>
        pose proof (DecimalFacts.nb_digits_unorm d ltac:(discriminate)) as Hlen
    end;
    rewrite <- Hn in Hlen; cbn in Hlen; lia.
Qed.

Lemma integerOfToken_integerToString (z : Z) :
  integerOfToken (integerToString z) = z.
Proof.
  rewrite <- (DecimalZ.of_to z) at 2.
  unfold integerToString, integerOfToken. destruct z as [|p|p];
    cbn [Z.to_int]; [reflexivity| |].
  - destruct (to_uint_head p) as [c [rest [E [Hc _]]]].
    apply digit_bounds in Hc.
    rewrite E. destruct (c =? 45)%N eqn:E45;
      [apply N.eqb_eq in E45; lia|].
    now rewrite <- E, readDigits_digits.
  - change (45 =? 45)%N with true. cbv iota. now rewrite readDigits_digits.
Qed.

Lemma integers_laws : NumberLaws integers.
Proof.
  split; cbn [isFinite NumberToString StringToNumber integers].
  - intros z _. unfold integerToString. destruct z as [|p|p]; cbn [Z.to_int].
    + reflexivity.
    + destruct (to_uint_head p) as [c [rest [-> [Hc [H0 Hr]]]]].
      now apply digits_token.
    + destruct (to_uint_head p) as [c [rest [-> [Hc [H0 Hr]]]]].
      now apply digits_token.
  - reflexivity.
  - intros z _. now rewrite integerOfToken_integerToString.
Qed.

End DemoFacts.

(** ** The canonical JSON formatter *)

Module CanonicalSpec.
Import Format.

(** C4.  The canonical formatter is idempotent: when [formatPureJSON]
    returns [y] on a content (the content is a JSON document), it returns
    [y] on [y].  The document of the specification comes out with two
    spaces of indentation, each element of the array on a line of its own,
    and one final newline. *)
Theorem formatPureJSON_idempotent :
  forall (NUM : JSON.Numbers) (LAWS : JSON.NumberLaws NUM) (x y : jsstring),
    formatPureJSON x = Some y ->
    formatPureJSON y = Some y
    /\ formatPureJSON (NUM := Demo.integers) Demo.sampleDocument
       = Some Demo.sampleFormatted.
Proof.
  intros NUM LAWS x y H. split.
  - exact (ParseFacts.formatPureJSON_stable NUM LAWS x y H).
  - vm_compute. reflexivity.
Qed.

Lemma formatPureJSON_idempotent_witness :
  formatPureJSON (NUM := Demo.integers) Demo.sampleFormatted
  = Some Demo.sampleFormatted.
Proof.
  refine (proj1 (formatPureJSON_idempotent Demo.integers
                   DemoFacts.integers_laws Demo.sampleDocument
                   Demo.sampleFormatted _)).
  vm_compute. reflexivity.
Defined.

(** The dispatcher around the canonical formatter is another matter: the
    canonical text of a string that ends in two slashes holds the two
    slashes after another code unit, so a second pass of [formatJSON] takes
    it for a comment and goes through the JSONC reformatter. *)
Lemma formatJSON_second_pass :
  hasComments Demo.escapedSlashDocument = false
  /\ hasComments (formatJSON (NUM := Demo.integers) Demo.escapedSlashDocument)
     = true
  /\ formatJSON (NUM := Demo.integers)
       (formatJSON (NUM := Demo.integers) Demo.escapedSlashDocument)
     <> formatJSON (NUM := Demo.integers) Demo.escapedSlashDocument.
Proof.
  split; [reflexivity|]. split; [vm_compute; reflexivity|].
  intros H. apply (f_equal (@List.length char)) in H. vm_compute in H.
  discriminate.
Qed.

End CanonicalSpec.

(** ** Lines, white space and blank lines *)

Module LineFacts.
Import Format JSFacts TomlSpec DispatchSpec.

Lemma dropWhile_idem (p : char -> bool) (s : jsstring) :
  dropWhile p (dropWhile p s) = dropWhile p s.
Proof.
  induction s as [|c s IH]; cbn; [reflexivity|].
  destruct (p c) eqn:E; [exact IH|]. cbn. now rewrite E.
Qed.

Lemma dropWhile_all (p : char -> bool) (s : jsstring) :
  dropWhile p s = [] <-> forallb p s = true.
Proof.
  induction s as [|c s IH]; cbn; [tauto|].
  destruct (p c); cbn; [exact IH|]. split; discriminate.
Qed.

Lemma forallb_rev (p : char -> bool) (s : jsstring) :
  forallb p (rev s) = forallb p s.
Proof.
  induction s as [|c s IH]; cbn; [reflexivity|].
  rewrite forallb_app, IH. cbn. rewrite andb_true_r. apply andb_comm.
Qed.

Lemma trimStart_nil_iff (l : jsstring) :
  trimStart l = [] <-> forallb isWhiteSpace l = true.
Proof. apply dropWhile_all. Qed.

Lemma trimEnd_nil_iff (l : jsstring) :
  trimEnd l = [] <-> forallb isWhiteSpace l = true.
Proof.
  unfold trimEnd. rewrite <- forallb_rev, <- dropWhile_all. split.
  - intros H. apply (f_equal (@rev char)) in H.
    now rewrite rev_involutive in H.
  - intros ->. reflexivity.
Qed.

Lemma trimStart_split (l : jsstring) :
  exists w, l = w ++ trimStart l /\ Forall (fun c => isWhiteSpace c = true) w.
Proof. apply dropWhile_split. Qed.

Lemma trimEnd_split (l : jsstring) :
  exists w, l = trimEnd l ++ w /\ Forall (fun c => isWhiteSpace c = true) w.
Proof.
  unfold trimEnd.
  destruct (dropWhile_split isWhiteSpace (rev l)) as [w [H Hw]].
  exists (rev w). split.
  - apply (f_equal (@rev char)) in H.
    now rewrite rev_involutive, rev_app_distr in H.
  - now apply Forall_rev.
Qed.

Lemma forallb_Forall (p : char -> bool) (s : jsstring) :
  forallb p s = true <-> Forall (fun c => p c = true) s.
Proof. rewrite forallb_forall, Forall_forall. tauto. Qed.

Lemma trim_nil_iff (l : jsstring) :
  trim l = [] <-> forallb isWhiteSpace l = true.
Proof.
  unfold trim. rewrite trimEnd_nil_iff. split.
  - intros H. destruct (trimStart_split l) as [w [Hl Hw]].
    rewrite Hl, forallb_app, H, andb_true_r. now apply forallb_Forall.
  - intros H. apply trimStart_nil_iff in H. now rewrite H.
Qed.

Lemma trimEnd_idem (l : jsstring) : trimEnd (trimEnd l) = trimEnd l.
Proof.
  unfold trimEnd. now rewrite rev_involutive, dropWhile_idem.
Qed.

Lemma trimStart_idem (l : jsstring) : trimStart (trimStart l) = trimStart l.
Proof. apply dropWhile_idem. Qed.

Lemma trimEnd_app_blank (l w : jsstring) :
  Forall (fun c => isWhiteSpace c = true) w -> trimEnd (l ++ w) = trimEnd l.
Proof.
  intros Hw. unfold trimEnd. rewrite rev_app_distr.
  now rewrite dropWhile_skip by now apply Forall_rev.
Qed.

Lemma trimStart_app_blank (w l : jsstring) :
  Forall (fun c => isWhiteSpace c = true) w -> trimStart (w ++ l) = trimStart l.
Proof. apply dropWhile_skip. Qed.

Lemma trimEnd_snoc (l : jsstring) (c : char) :
  isWhiteSpace c = false -> trimEnd (l ++ [c]) = l ++ [c].
Proof.
  intros Hc. unfold trimEnd. rewrite rev_app_distr. cbn. rewrite Hc.
  cbn. now rewrite rev_involutive.
Qed.

(** A text [trimEnd] returns is empty or ends with a code unit that is not
    white space. *)
Lemma trimEnd_last (l : jsstring) :
  trimEnd l = []
  \/ exists a c, trimEnd l = a ++ [c] /\ isWhiteSpace c = false.
Proof.
  unfold trimEnd.
  destruct (dropWhile isWhiteSpace (rev l)) as [|c r] eqn:E; [now left|].
  right. exists (rev r), c. split; [reflexivity|].
  exact (dropWhile_head _ _ _ _ E).
Qed.

Lemma endsWith_snoc (a : jsstring) (c d : char) :
  endsWith (a ++ [c]) [d] = (d =? c)%N.
Proof.
  unfold endsWith. rewrite rev_app_distr. cbn. now rewrite andb_true_r.
Qed.

Lemma endsWith_nil (d : char) : endsWith [] [d] = false.
Proof. reflexivity. Qed.

Lemma trimEnd_no_cr (l : jsstring) : endsWith (trimEnd l) [CR] = false.
Proof.
  destruct (trimEnd_last l) as [->|[a [c [-> Hc]]]]; [reflexivity|].
  rewrite endsWith_snoc. apply N.eqb_neq. intros <-. discriminate.
Qed.

(** *** Lines and their text *)

Lemma splitLines_single (x : jsstring) :
  existsb (N.eqb LF) x = false -> splitLines x = [x].
Proof.
  induction x as [|c x IH]; intros Hx; [reflexivity|].
  cbn [existsb] in Hx. apply orb_false_iff in Hx. destruct Hx as [Hc Hx].
  cbn [splitLines]. rewrite N.eqb_sym, Hc.
  replace (startsWith x [LF]) with false.
  - rewrite andb_false_r, (IH Hx). reflexivity.
  - destruct x as [|d x]; [reflexivity|]. cbn [startsWith].
    cbn [existsb] in Hx. apply orb_false_iff in Hx. destruct Hx as [Hd _].
    now rewrite Hd.
Qed.

Lemma splitLines_line (x t : jsstring) :
  existsb (N.eqb LF) x = false ->
  endsWith x [CR] = false ->
  splitLines (x ++ LF :: t) = x :: splitLines t.
Proof.
  induction x as [|c x IH]; intros Hx Hcr; [reflexivity|].
  cbn [existsb] in Hx. apply orb_false_iff in Hx. destruct Hx as [Hc Hx].
  cbn [app splitLines]. rewrite N.eqb_sym, Hc.
  destruct x as [|d x].
  - cbn [app]. cbn [startsWith]. rewrite N.eqb_refl. cbn [andb].
    change (endsWith [c] [CR]) with ((CR =? c)%N && true) in Hcr.
    rewrite andb_true_r, N.eqb_sym in Hcr. rewrite Hcr. cbn [andb].
    reflexivity.
  - replace (startsWith ((d :: x) ++ LF :: t) [LF]) with false.
    + rewrite andb_false_r. rewrite IH; [reflexivity|exact Hx|].
      revert Hcr. unfold endsWith. cbn [rev].
      destruct (rev x ++ [d]) as [|e r] eqn:E;
        [now destruct (rev x)|].
      cbn [app startsWith]. now rewrite !andb_true_r.
    + cbn [app startsWith]. cbn [existsb] in Hx.
      apply orb_false_iff in Hx. destruct Hx as [Hd _]. now rewrite Hd.
Qed.

Lemma splitLines_join (ls : list jsstring) :
  ls <> [] -> Forall Clean ls -> splitLines (join [LF] ls) = ls.
Proof.
  induction ls as [|x [|y r] IH]; intros Hne Hall; [congruence| |].
  - inversion Hall as [|? ? [Hx _] _]; subst. cbn [join].
    now apply splitLines_single.
  - inversion Hall as [|? ? [Hx Hcr] Hr]; subst.
    rewrite join_cons2. cbn [app].
    rewrite splitLines_line by assumption. f_equal.
    apply IH; [discriminate | exact Hr].
Qed.

Lemma join_no_trailing_newline (ls : list jsstring) (x : jsstring) :
  existsb (N.eqb LF) x = false ->
  endsWith (join [LF] (ls ++ [x])) [LF]
  = match ls, x with
    | _ :: _, [] => true
    | _, _ => false
    end.
Proof.
  intros Hx. destruct ls as [|a r].
  - cbn [app join]. destruct (snoc_cases x) as [->|[x0 [c ->]]]; [reflexivity|].
    rewrite endsWith_snoc. rewrite existsb_app in Hx.
    apply orb_false_iff in Hx. destruct Hx as [_ Hc]. cbn in Hc.
    rewrite orb_false_r in Hc. destruct x0; exact Hc.
  - rewrite join_snoc by discriminate.
    destruct (snoc_cases x) as [->|[x0 [c ->]]].
    + cbn [app]. rewrite endsWith_snoc. apply N.eqb_refl.
    + rewrite !app_assoc. rewrite endsWith_snoc.
      rewrite existsb_app in Hx.
      apply orb_false_iff in Hx. destruct Hx as [_ Hc]. cbn in Hc.
      rewrite orb_false_r in Hc. destruct x0; exact Hc.
Qed.

(** *** Removing repeated empty lines *)

Lemma dropRepeatedEmpty_length (ls : list jsstring) :
  forall b, (List.length (dropRepeatedEmpty b ls) <= List.length ls)%nat.
Proof.
  induction ls as [|x ls IH]; intros b; cbn; [lia|].
  destruct (JS.eqb (trim x) [] && b); cbn.
  - specialize (IH b). lia.
  - specialize (IH (JS.eqb (trim x) [])). lia.
Qed.

Lemma dropRepeatedEmpty_idem (ls : list jsstring) :
  forall b,
    dropRepeatedEmpty b (dropRepeatedEmpty b ls) = dropRepeatedEmpty b ls.
Proof.
  induction ls as [|l ls IH]; intros b; [reflexivity|].
  cbn [dropRepeatedEmpty].
  destruct (JS.eqb (trim l) [] && b) eqn:E; [apply IH|].
  cbn [dropRepeatedEmpty]. rewrite E. f_equal. apply IH.
Qed.

Lemma dropRepeatedEmpty_head (l : jsstring) (ls : list jsstring) :
  dropRepeatedEmpty false (l :: ls) = l :: dropRepeatedEmpty (blank l) ls.
Proof. cbn [dropRepeatedEmpty]. now rewrite andb_false_r. Qed.

Lemma dropRepeatedEmpty_fixed_adjacent (ls : list jsstring) :
  forall b,
    dropRepeatedEmpty b ls = ls ->
    NoAdjacentBlank ls
    /\ (b = true -> forall x r, ls = x :: r -> blank x = false).
Proof.
  induction ls as [|l ls IH]; intros b Hfix.
  - split; [|intros _ x r H; discriminate].
    intros before x y after H. destruct before; discriminate.
  - cbn [dropRepeatedEmpty] in Hfix.
    destruct (JS.eqb (trim l) [] && b) eqn:E.
    + exfalso. pose proof (dropRepeatedEmpty_length ls b) as Hlen.
      rewrite Hfix in Hlen. cbn in Hlen. lia.
    + injection Hfix as Hfix. destruct (IH _ Hfix) as [Hadj Hhead]. split.
      * intros before x y after H [Hx Hy].
        destruct before as [|z before]; injection H as -> H.
        -- subst ls. rewrite Hx in *. change (JS.eqb [] []) with true in *.
           specialize (Hhead eq_refl y after eq_refl).
           unfold blank in Hhead. rewrite Hy in Hhead. discriminate.
        -- apply (Hadj before x y after H). now split.
      * intros -> x r H. injection H as <- _. unfold blank.
        now rewrite andb_true_r in E.
Qed.

Lemma dropRepeatedEmpty_not_nil (l : jsstring) (ls : list jsstring) :
  dropRepeatedEmpty false (l :: ls) <> [].
Proof. rewrite dropRepeatedEmpty_head. discriminate. Qed.

(** A fixed list followed by an empty line. *)
Lemma dropRepeatedEmpty_snoc (ls : list jsstring) :
  forall b,
    dropRepeatedEmpty b ls = ls ->
    dropRepeatedEmpty b (ls ++ [[]])
    = if match ls with [] => b | _ :: _ => blank (last ls []) end
      then ls else ls ++ [[]].
Proof.
  induction ls as [|l ls IH]; intros b Hfix.
  - cbn. destruct b; reflexivity.
  - cbn [dropRepeatedEmpty] in Hfix. cbn [app dropRepeatedEmpty].
    destruct (JS.eqb (trim l) [] && b) eqn:E.
    + exfalso. pose proof (dropRepeatedEmpty_length ls b) as Hlen.
      rewrite Hfix in Hlen. cbn in Hlen. lia.
    + injection Hfix as Hfix. rewrite (IH _ Hfix).
      destruct ls as [|m ls]; [unfold blank; cbn [last]|].
      * now destruct (JS.eqb (trim l) []).
      * change (last (l :: m :: ls) []) with (last (m :: ls) []).
        now destruct (blank (last (m :: ls) [])).
Qed.

End LineFacts.

(** ** The steps the YAML and the TOML formatter share *)

Module PipelineFacts.
Import Format JSFacts TomlSpec DispatchSpec LineFacts.

Lemma splitLines_not_nil (s : jsstring) : splitLines s <> [].
Proof.
  induction s as [|c s IH]; cbn [splitLines]; [discriminate|].
  destruct (c =? LF)%N; [discriminate|].
  destruct ((c =? CR)%N && startsWith s [LF]); [exact IH|].
  destruct (splitLines s); discriminate.
Qed.

Lemma ensureTrailingNewline_join (ls : list jsstring) :
  ls <> [] ->
  ensureTrailingNewline (join [LF] ls)
  = if endsWith (join [LF] ls) [LF] then join [LF] ls
    else join [LF] (ls ++ [[]]).
Proof.
  intros Hne. unfold ensureTrailingNewline.
  destruct (endsWith (join [LF] ls) [LF]); [reflexivity|].
  rewrite join_snoc by exact Hne. reflexivity.
Qed.

Section Pipeline.
Variable g : jsstring -> jsstring.
Hypothesis g_nil : g [] = [].
Hypothesis g_idem : forall l, g (g l) = g l.
Hypothesis g_lf :
  forall l, existsb (N.eqb LF) l = false -> existsb (N.eqb LF) (g l) = false.
Hypothesis g_cr : forall l, endsWith (g l) [CR] = false.
Hypothesis g_blank : forall l, trim (g l) = [] -> g l = [].

(** The lines the formatter joins: each is an image of [g], and no blank
    line is left to drop. *)
Lemma result_lines (content : jsstring) :
  let R := dropRepeatedEmpty false (List.map g (splitLines content)) in
  R <> []
  /\ Forall (fun l => Clean l /\ g l = l /\ (trim l = [] -> l = [])) R
  /\ dropRepeatedEmpty false R = R.
Proof.
  cbv zeta. split; [|split].
  - destruct (splitLines content) as [|l ls] eqn:E;
      [now destruct (splitLines_not_nil _ E)|].
    cbn [List.map]. apply dropRepeatedEmpty_not_nil.
  - apply Forall_forall. intros l Hl. apply dropRepeatedEmpty_In in Hl.
    apply in_map_iff in Hl. destruct Hl as [l0 [<- Hl0]].
    pose proof (splitLines_no_newline content) as Hs.
    rewrite Forall_forall in Hs. specialize (Hs l0 Hl0).
    repeat split; auto.
  - apply dropRepeatedEmpty_idem.
Qed.

Lemma Clean_nil : Clean [].
Proof. split; reflexivity. Qed.

(** The two shapes of the output: the lines end with an empty one, which
    gives the final newline; or a newline is added. *)
Lemma output_cases (R : list jsstring) :
  R <> [] ->
  Forall (fun l => Clean l /\ g l = l /\ (trim l = [] -> l = [])) R ->
  dropRepeatedEmpty false R = R ->
  (exists R', R = R' ++ [[]] /\ R' <> []
              /\ ensureTrailingNewline (join [LF] R) = join [LF] R)
  \/ (ensureTrailingNewline (join [LF] R) = join [LF] (R ++ [[]])
      /\ (blank (last R []) = true -> R = [[]])).
Proof.
  intros Hne Hall Hfix.
  destruct (exists_last Hne) as [R' [x ->]].
  apply Forall_app in Hall. destruct Hall as [HR' Hx].
  inversion Hx as [|? ? [[Hlf Hcr] [Hg Hb]] _]; subst.
  rewrite ensureTrailingNewline_join by (now destruct R').
  rewrite (join_no_trailing_newline R' x Hlf).
  destruct R' as [|a r].
  - right. split; [reflexivity|]. cbn [app last]. unfold blank.
    intros H. apply eqb_eq in H. now rewrite (Hb H).
  - destruct x as [|c x].
    + left. exists (a :: r). repeat split; discriminate || reflexivity.
    + right. split; [reflexivity|]. rewrite last_last. unfold blank.
      intros H. apply eqb_eq in H. now specialize (Hb H).
Qed.

Lemma map_fixed (R : list jsstring) :
  Forall (fun l => Clean l /\ g l = l /\ (trim l = [] -> l = [])) R ->
  List.map g R = R.
Proof.
  induction 1 as [|l R [_ [Hg _]] _ IH]; [reflexivity|].
  cbn. now rewrite Hg, IH.
Qed.

Lemma Forall_Clean (R : list jsstring) :
  Forall (fun l => Clean l /\ g l = l /\ (trim l = [] -> l = [])) R ->
  Forall Clean R.
Proof. apply Forall_impl. tauto. Qed.

Lemma formatLinesWith_idempotent (content : jsstring) :
  formatLinesWith g (formatLinesWith g content) = formatLinesWith g content.
Proof.
  unfold formatLinesWith at 2 3.
  destruct (result_lines content) as [Hne [Hall Hfix]].
  revert Hne Hall Hfix.
  generalize (dropRepeatedEmpty false (List.map g (splitLines content))).
  intros R Hne Hall Hfix.
  destruct (output_cases R Hne Hall Hfix)
    as [[R' [-> [HR' Hout]]]|[Hout Hlast]]; rewrite Hout; unfold formatLinesWith.
  - rewrite splitLines_join by (exact Hne || now apply Forall_Clean).
    now rewrite map_fixed, Hfix.
  - rewrite splitLines_join.
    + rewrite map_app, map_fixed by exact Hall. cbn [List.map].
      rewrite g_nil. rewrite dropRepeatedEmpty_snoc by exact Hfix.
      destruct R as [|a r]; [congruence|].
      destruct (blank (last (a :: r) [])) eqn:Eb.
      * rewrite (Hlast eq_refl). reflexivity.
      * rewrite ensureTrailingNewline_join by (now destruct r).
        destruct (endsWith (join [LF] ((a :: r) ++ [[]])) [LF]) eqn:E;
          [reflexivity|].
        pose proof (join_no_trailing_newline (a :: r) [] eq_refl) as E'.
        enough (true = false) by discriminate.
        etransitivity; [symmetry; exact E' | exact E].
    + now destruct R.
    + apply Forall_app. split; [now apply Forall_Clean|].
      constructor; [apply Clean_nil | constructor].
Qed.

(** The output ends with one newline, and only one. *)
Lemma formatLinesWith_trailing_newline (content : jsstring) :
  exists body,
    formatLinesWith g content = body ++ [LF] /\ endsWith body [LF] = false.
Proof.
  unfold formatLinesWith.
  destruct (result_lines content) as [Hne [Hall Hfix]].
  revert Hne Hall Hfix.
  generalize (dropRepeatedEmpty false (List.map g (splitLines content))).
  intros R Hne Hall Hfix.
  destruct (output_cases R Hne Hall Hfix)
    as [[R' [-> [HR' Hout]]]|[Hout Hlast]]; rewrite Hout.
  - exists (join [LF] R'). split; [now rewrite join_snoc|].
    destruct (exists_last HR') as [R'' [y ->]].
    apply Forall_app in Hall. destruct Hall as [Hall _].
    apply Forall_app in Hall. destruct Hall as [_ Hy].
    inversion Hy as [|? ? [[Hlf _] _] _]; subst.
    etransitivity; [exact (join_no_trailing_newline R'' y Hlf)|].
    destruct R'' as [|a r]; [now destruct y|].
    destruct y as [|c y]; [|reflexivity].
    exfalso.
    destruct (dropRepeatedEmpty_fixed_adjacent _ _ Hfix) as [Hadj _].
    apply (Hadj (a :: r) [] [] []); [now rewrite <- app_assoc|].
    split; reflexivity.
  - exists (join [LF] R). split; [now rewrite join_snoc|].
    rewrite ensureTrailingNewline_join in Hout by exact Hne.
    destruct (endsWith (join [LF] R) [LF]) eqn:E; [|reflexivity].
    exfalso. apply (f_equal (@List.length char)) in Hout.
    rewrite join_snoc, length_app in Hout by exact Hne. cbn in Hout. lia.
Qed.

Lemma NoAdjacentBlank_prefix (a b : list jsstring) :
  NoAdjacentBlank (a ++ b) -> NoAdjacentBlank a.
Proof.
  intros H before x y after E. apply (H before x y (after ++ b)).
  rewrite E, <- app_assoc. reflexivity.
Qed.

(** No two lines of the output that follow each other are both blank. *)
Lemma formatLinesWith_blank_lines (content : jsstring) :
  NoAdjacentBlank (removelast (split LF (formatLinesWith g content))).
Proof.
  unfold formatLinesWith.
  destruct (result_lines content) as [Hne [Hall Hfix]].
  revert Hne Hall Hfix.
  generalize (dropRepeatedEmpty false (List.map g (splitLines content))).
  intros R Hne Hall Hfix.
  destruct (dropRepeatedEmpty_fixed_adjacent _ _ Hfix) as [Hadj _].
  assert (Forall (fun l => existsb (N.eqb LF) l = false) R) as Hlf.
  { revert Hall. apply Forall_impl. unfold Clean. tauto. }
  destruct (output_cases R Hne Hall Hfix)
    as [[R' [-> [HR' Hout]]]|[Hout Hlast]]; rewrite Hout.
  - rewrite split_join by assumption. rewrite removelast_last.
    now apply NoAdjacentBlank_prefix in Hadj.
  - rewrite split_join.
    + now rewrite removelast_last.
    + now destruct R.
    + apply Forall_app. split; [exact Hlf | now repeat constructor].
Qed.

End Pipeline.

End PipelineFacts.

(** ** Separators, and texts that end on a code unit *)

Module TomlLineFacts.
Import Format JSFacts TomlSpec DispatchSpec LineFacts PipelineFacts.

(** *** Splitting at a separator *)

Lemma includes_char (s : jsstring) (c : N) :
  includes s [c] = existsb (N.eqb c) s.
Proof.
  induction s as [|d s IH]; [reflexivity|].
  cbn [includes existsb startsWith]. now rewrite andb_true_r, IH.
Qed.

Lemma split_at_first (sep : char) (key value : jsstring) :
  existsb (N.eqb sep) key = false ->
  split sep (key ++ sep :: value) = key :: split sep value.
Proof.
  induction key as [|c key IH]; intros Hk.
  - cbn. now rewrite N.eqb_refl.
  - cbn [existsb] in Hk. apply orb_false_iff in Hk. destruct Hk as [Hc Hk].
    cbn [app split]. rewrite N.eqb_sym, Hc. now rewrite (IH Hk).
Qed.

Lemma first_separator (sep : char) (s : jsstring) :
  existsb (N.eqb sep) s = true ->
  exists key value,
    s = key ++ sep :: value /\ existsb (N.eqb sep) key = false.
Proof.
  induction s as [|c s IH]; [discriminate|]. cbn [existsb].
  destruct (sep =? c)%N eqn:E.
  - apply N.eqb_eq in E. subst c. intros _. now exists [], s.
  - cbn [orb]. intros H. destruct (IH H) as [key [value [-> Hk]]].
    exists (c :: key), value. split; [reflexivity|].
    cbn [existsb]. now rewrite E.
Qed.

Lemma join_split (sep : char) (s : jsstring) : join [sep] (split sep s) = s.
Proof.
  induction s as [|c s IH]; [reflexivity|]. cbn [split].
  destruct (c =? sep)%N eqn:E.
  - apply N.eqb_eq in E. subst c.
    destruct (split sep s) as [|h t] eqn:Es;
      [now destruct (split_not_nil _ _ Es)|].
    rewrite join_cons2. cbn [app]. now rewrite IH.
  - destruct (split sep s) as [|h t] eqn:Es;
      [now destruct (split_not_nil _ _ Es)|].
    rewrite <- IH. destruct t as [|h' t]; [reflexivity|].
    now rewrite !join_cons2.
Qed.

(** *** Texts that end with a code unit that is not white space *)

Lemma Ended_trimEnd (l : jsstring) : Ended (trimEnd l).
Proof. apply trimEnd_last. Qed.

Lemma Ended_fixed (x : jsstring) : Ended x -> trimEnd x = x.
Proof.
  intros [->|[a [c [-> Hc]]]]; [reflexivity | now apply trimEnd_snoc].
Qed.

Lemma Ended_suffix (a b : jsstring) : Ended (a ++ b) -> Ended b.
Proof.
  intros [H|[x [c [H Hc]]]].
  - apply app_eq_nil in H. left. tauto.
  - destruct (snoc_cases b) as [->|[b0 [d ->]]]; [now left|].
    right. exists b0, d. split; [reflexivity|].
    rewrite app_assoc in H. apply app_inj_tail in H. now destruct H as [_ ->].
Qed.

Lemma Ended_app (a b : jsstring) : b <> [] -> Ended b -> Ended (a ++ b).
Proof.
  intros Hne [->|[x [c [-> Hc]]]]; [congruence|].
  right. exists (a ++ x), c. now rewrite app_assoc.
Qed.

Lemma Ended_trimStart (b : jsstring) : Ended b -> Ended (trimStart b).
Proof.
  intros H. destruct (trimStart_split b) as [w [Hb _]].
  rewrite Hb in H. now apply Ended_suffix in H.
Qed.

Lemma Ended_no_cr (x : jsstring) : Ended x -> endsWith x [CR] = false.
Proof.
  intros [->|[a [c [-> Hc]]]]; [reflexivity|].
  rewrite endsWith_snoc. apply N.eqb_neq. intros <-. discriminate.
Qed.

(** *** The first code unit that is not white space *)

Lemma startsWith_trim (x : jsstring) (c : N) :
  startsWith (trim x) [c] = startsWith (trimStart x) [c].
Proof.
  unfold trim. destruct (trimStart x) as [|d r] eqn:E; [reflexivity|].
  unfold trimStart in E. rewrite trimEnd_cons by exact (dropWhile_head _ _ _ _ E).
  reflexivity.
Qed.

Lemma trimStart_app_ink (a b : jsstring) :
  trimStart a <> [] -> trimStart (a ++ b) = trimStart a ++ b.
Proof.
  unfold trimStart. induction a as [|c a IH]; cbn; [congruence|].
  destruct (isWhiteSpace c); [exact IH | reflexivity].
Qed.

Lemma trimStart_trimEnd_head (a : jsstring) (c : N) :
  startsWith (trimStart (trimEnd a)) [c] = startsWith (trimStart a) [c].
Proof.
  destruct (trimEnd_split a) as [w [Ha Hw]].
  destruct (trimStart (trimEnd a)) as [|d r] eqn:E.
  - apply trimStart_nil_iff in E.
    assert (forallb isWhiteSpace a = true) as Hall.
    { rewrite Ha, forallb_app, E. now apply forallb_Forall. }
    apply trimStart_nil_iff in Hall. now rewrite Hall.
  - rewrite Ha. rewrite trimStart_app_ink by (rewrite E; discriminate).
    now rewrite E.
Qed.

End TomlLineFacts.

(** ** One line of the TOML formatter *)

Module TomlLine.
Import Format JSFacts TomlSpec DispatchSpec LineFacts PipelineFacts TomlLineFacts.

Lemma startsWith_head_app (a b : jsstring) (c : N) :
  a <> [] -> startsWith (a ++ b) [c] = startsWith a [c].
Proof. destruct a; [congruence | reflexivity]. Qed.

Lemma existsb_trimEnd (p : char -> bool) (l : jsstring) :
  existsb p l = false -> existsb p (trimEnd l) = false.
Proof.
  destruct (trimEnd_split l) as [w [H _]]. intros Hl. rewrite H in Hl.
  rewrite existsb_app in Hl. now apply orb_false_iff in Hl.
Qed.

Lemma existsb_trimStart (p : char -> bool) (l : jsstring) :
  existsb p l = false -> existsb p (trimStart l) = false.
Proof.
  destruct (trimStart_split l) as [w [H _]]. intros Hl. rewrite H in Hl.
  rewrite existsb_app in Hl. now apply orb_false_iff in Hl.
Qed.

(** A line with a key before its first equals sign, and no comment. *)
Lemma formatTOMLLine_split (x key value : jsstring) :
  trimEnd x = key ++ 61%N :: value ->
  key <> [] ->
  existsb (N.eqb 61) key = false ->
  startsWith (trimStart (trimEnd x)) (str "#") = false ->
  formatTOMLLine x = trimEnd key ++ str " = " ++ trimStart value.
Proof.
  intros Hf Hne Hk Hc. unfold formatTOMLLine.
  change (str "=") with [61%N]. change (ch "=") with 61%N.
  change (str "#") with [35%N] in *.
  rewrite includes_char, (startsWith_trim (trimEnd x) 35%N), Hc, Hf.
  rewrite existsb_app. cbn [existsb]. rewrite N.eqb_refl, orb_true_r.
  cbn [orb negb andb]. rewrite split_at_first by exact Hk.
  rewrite join_split.
  replace (JS.eqb key []) with false; [reflexivity|].
  symmetry. now apply eqb_neq.
Qed.

Lemma formatTOMLLine_cases (l : jsstring) :
  (formatTOMLLine l = trimEnd l
   /\ (existsb (N.eqb 61) (trimEnd l) = false
       \/ startsWith (trimStart (trimEnd l)) (str "#") = true
       \/ startsWith (trimEnd l) (str "=") = true))
  \/ (exists key value,
         trimEnd l = key ++ 61%N :: value
         /\ key <> []
         /\ existsb (N.eqb 61) key = false
         /\ startsWith (trimStart (trimEnd l)) (str "#") = false
         /\ formatTOMLLine l = trimEnd key ++ str " = " ++ trimStart value).
Proof.
  destruct (existsb (N.eqb 61) (trimEnd l)) eqn:He.
  - destruct (startsWith (trimStart (trimEnd l)) (str "#")) eqn:Hc.
    + left. split; [|auto]. unfold formatTOMLLine.
      change (str "#") with [35%N] in *.
      now rewrite (startsWith_trim (trimEnd l) 35%N), Hc, andb_false_r.
    + destruct (first_separator _ _ He) as [key [value [Hf Hk]]].
      destruct key as [|c key].
      * left. split; [|right; right; now rewrite Hf].
        unfold formatTOMLLine.
        change (str "=") with [61%N]. change (ch "=") with 61%N.
        rewrite Hf. cbn [app split]. rewrite N.eqb_refl.
        match goal with
        | |- (if ?c then _ else _) = _ => destruct c
        end; reflexivity.
      * right. exists (c :: key), value.
        repeat split; try assumption; [discriminate|].
        now apply formatTOMLLine_split.
  - left. split; [|auto]. unfold formatTOMLLine.
    change (str "=") with [61%N]. now rewrite includes_char, He.
Qed.

Lemma formatTOMLLine_nil : formatTOMLLine [] = [].
Proof. reflexivity. Qed.

Lemma formatTOMLLine_idem (l : jsstring) :
  formatTOMLLine (formatTOMLLine l) = formatTOMLLine l.
Proof.
  destruct (formatTOMLLine_cases l)
    as [[Hout Hcond]|[key [value [Hf [Hne [Hk [Hc Hout]]]]]]]; rewrite Hout.
  - destruct (formatTOMLLine_cases (trimEnd l))
      as [[Hout' _]|[key [value [Hf [Hne [Hk [Hc Hout']]]]]]];
      rewrite trimEnd_idem in *; [exact Hout'|].
    exfalso. destruct Hcond as [H|[H|H]].
    + rewrite Hf, existsb_app in H. cbn [existsb] in H.
      rewrite N.eqb_refl, orb_true_r in H. discriminate.
    + congruence.
    + rewrite Hf in H. destruct key as [|c key]; [congruence|].
      cbn [existsb] in Hk. apply orb_false_iff in Hk. destruct Hk as [Hk _].
      change (startsWith ((c :: key) ++ 61%N :: value) (str "="))
        with ((61 =? c)%N && true) in H.
      rewrite Hk in H. discriminate.
  - assert (Ended value) as Hv.
    { pose proof (Ended_trimEnd l) as H. rewrite Hf in H.
      change (key ++ 61%N :: value) with (key ++ [61%N] ++ value) in H.
      rewrite app_assoc in H. now apply Ended_suffix in H. }
    apply Ended_trimStart in Hv.
    assert (exists rest,
               trimEnd (trimEnd key ++ str " = " ++ trimStart value)
               = (trimEnd key ++ [32%N]) ++ 61%N :: rest
               /\ trimStart rest = trimStart value) as [rest [Hf2 Hrest]].
    { destruct (trimStart value) as [|d v'] eqn:Ev.
      - exists []. split; [|reflexivity].
        change (trimEnd key ++ str " = " ++ [])
          with (trimEnd key ++ [32%N; 61%N] ++ [32%N]).
        rewrite app_assoc, trimEnd_app_blank by (now repeat constructor).
        change [32%N; 61%N] with ([32%N] ++ [61%N]).
        rewrite app_assoc, trimEnd_snoc by reflexivity.
        reflexivity.
      - exists (32%N :: d :: v'). split.
        + rewrite Ended_fixed; [now rewrite <- app_assoc|].
          apply Ended_app; [discriminate|].
          apply Ended_app; [discriminate | exact Hv].
        + change (32%N :: d :: v') with ([32%N] ++ d :: v').
          rewrite trimStart_app_blank by (now repeat constructor).
          rewrite <- Ev. apply trimStart_idem. }
    rewrite (formatTOMLLine_split _ _ _ Hf2).
    + rewrite trimEnd_app_blank by (now repeat constructor).
      now rewrite trimEnd_idem, Hrest.
    + now destruct (trimEnd key).
    + rewrite existsb_app, existsb_trimEnd by exact Hk. reflexivity.
    + change (str "#") with [35%N] in *.
      rewrite trimStart_trimEnd_head.
      destruct (trimStart (trimEnd key)) as [|d r] eqn:Ek.
      * apply trimStart_nil_iff, forallb_Forall in Ek.
        rewrite trimStart_app_blank by exact Ek. reflexivity.
      * rewrite trimStart_app_ink by (rewrite Ek; discriminate).
        rewrite startsWith_head_app by (rewrite Ek; discriminate).
        rewrite trimStart_trimEnd_head.
        rewrite Hf in Hc.
        assert (trimStart key <> []) as Hkey.
        { intros H. apply trimStart_nil_iff in H.
          apply trimEnd_nil_iff in H. rewrite H in Ek. discriminate. }
        rewrite trimStart_app_ink, startsWith_head_app in Hc by exact Hkey.
        exact Hc.
Qed.

Lemma formatTOMLLine_no_newline (l : jsstring) :
  existsb (N.eqb LF) l = false -> existsb (N.eqb LF) (formatTOMLLine l) = false.
Proof.
  intros Hl. pose proof (existsb_trimEnd _ _ Hl) as Hf.
  destruct (formatTOMLLine_cases l)
    as [[Hout _]|[key [value [Hs [_ [_ [_ Hout]]]]]]]; rewrite Hout;
    [exact Hf|].
  rewrite Hs, existsb_app in Hf. apply orb_false_iff in Hf.
  destruct Hf as [Hkey Hvalue]. cbn [existsb] in Hvalue.
  apply orb_false_iff in Hvalue. destruct Hvalue as [_ Hvalue].
  rewrite !existsb_app, existsb_trimEnd, existsb_trimStart by assumption.
  reflexivity.
Qed.

Lemma formatTOMLLine_no_cr (l : jsstring) :
  endsWith (formatTOMLLine l) [CR] = false.
Proof.
  destruct (formatTOMLLine_cases l)
    as [[Hout _]|[key [value [Hs [_ [_ [_ Hout]]]]]]]; rewrite Hout;
    [apply trimEnd_no_cr|].
  assert (Ended value) as Hv.
  { pose proof (Ended_trimEnd l) as H. rewrite Hs in H.
    change (key ++ 61%N :: value) with (key ++ [61%N] ++ value) in H.
    rewrite app_assoc in H. now apply Ended_suffix in H. }
  apply Ended_trimStart in Hv.
  destruct (trimStart value) as [|d v'] eqn:Ev.
  - change (trimEnd key ++ str " = " ++ [])
      with (trimEnd key ++ [32%N; 61%N] ++ [32%N]).
    rewrite app_assoc. rewrite endsWith_snoc. reflexivity.
  - apply Ended_no_cr. apply Ended_app; [discriminate|].
    apply Ended_app; [discriminate | exact Hv].
Qed.

Lemma formatTOMLLine_blank (l : jsstring) :
  trim (formatTOMLLine l) = [] -> formatTOMLLine l = [].
Proof.
  destruct (formatTOMLLine_cases l)
    as [[Hout _]|[key [value [Hs [_ [_ [_ Hout]]]]]]]; rewrite Hout.
  - intros H. apply trim_nil_iff, trimEnd_nil_iff in H.
    now rewrite trimEnd_idem in H.
  - intros H. apply trim_nil_iff in H. rewrite !forallb_app in H.
    cbn in H. rewrite andb_false_r in H. discriminate.
Qed.

(** *** The code units that are not white space *)

Lemma ink_app (a b : jsstring) : ink (a ++ b) = ink a ++ ink b.
Proof. apply filter_app. Qed.

Lemma ink_blank (w : jsstring) :
  Forall (fun c => isWhiteSpace c = true) w -> ink w = [].
Proof.
  induction 1 as [|c w Hc _ IH]; [reflexivity|]. cbn. now rewrite Hc.
Qed.

Lemma ink_trimEnd (l : jsstring) : ink (trimEnd l) = ink l.
Proof.
  destruct (trimEnd_split l) as [w [H Hw]]. rewrite H at 2.
  now rewrite ink_app, (ink_blank w Hw), app_nil_r.
Qed.

Lemma ink_trimStart (l : jsstring) : ink (trimStart l) = ink l.
Proof.
  destruct (trimStart_split l) as [w [H Hw]]. rewrite H at 2.
  now rewrite ink_app, (ink_blank w Hw).
Qed.

Lemma ink_trim (l : jsstring) : ink (trim l) = ink l.
Proof. unfold trim. now rewrite ink_trimEnd, ink_trimStart. Qed.

Lemma ink_join (ls : list jsstring) :
  ink (join [LF] ls) = List.concat (List.map ink ls).
Proof.
  induction ls as [|x [|y r] IH]; [reflexivity|cbn; now rewrite app_nil_r|].
  rewrite join_cons2, !ink_app, IH. reflexivity.
Qed.

Lemma ink_splitLines (s : jsstring) :
  List.concat (List.map ink (splitLines s)) = ink s.
Proof.
  induction s as [|c s IH]; [reflexivity|]. cbn [splitLines].
  destruct (c =? LF)%N eqn:Ec.
  - apply N.eqb_eq in Ec. subst c. cbn. exact IH.
  - destruct ((c =? CR)%N && startsWith s [LF]) eqn:Er.
    + apply andb_true_iff in Er. destruct Er as [Er _].
      apply N.eqb_eq in Er. subst c. cbn. exact IH.
    + destruct (splitLines s) as [|h t] eqn:E.
      * now destruct (splitLines_not_nil _ E).
      * cbn [List.map List.concat] in *.
        change (ink (c :: h)) with (ink ([c] ++ h)).
        change (ink (c :: s)) with (ink ([c] ++ s)).
        rewrite !ink_app, <- IH. now rewrite app_assoc.
Qed.

Lemma ink_dropRepeatedEmpty (ls : list jsstring) :
  forall b,
    List.concat (List.map ink (dropRepeatedEmpty b ls))
    = List.concat (List.map ink ls).
Proof.
  induction ls as [|l ls IH]; intros b; [reflexivity|].
  cbn [dropRepeatedEmpty].
  destruct (JS.eqb (trim l) [] && b) eqn:E.
  - apply andb_true_iff in E. destruct E as [E _]. apply eqb_eq in E.
    cbn [List.map List.concat]. rewrite IH.
    rewrite <- (ink_trim l), E. reflexivity.
  - cbn [List.map List.concat]. now rewrite IH.
Qed.

Lemma ink_ensureTrailingNewline (s : jsstring) :
  ink (ensureTrailingNewline s) = ink s.
Proof.
  unfold ensureTrailingNewline. destruct (endsWith s [LF]); [reflexivity|].
  rewrite ink_app. cbn. apply app_nil_r.
Qed.

Lemma ink_formatLinesWith (g : jsstring -> jsstring) (content : jsstring) :
  (forall l, ink (g l) = ink l) ->
  ink (formatLinesWith g content) = ink content.
Proof.
  intros Hg. unfold formatLinesWith.
  rewrite ink_ensureTrailingNewline, ink_join, ink_dropRepeatedEmpty.
  rewrite map_map, <- ink_splitLines. f_equal.
  apply map_ext. exact Hg.
Qed.

Lemma ink_formatTOMLLine (l : jsstring) : ink (formatTOMLLine l) = ink l.
Proof.
  rewrite <- (ink_trimEnd l).
  destruct (formatTOMLLine_cases l)
    as [[Hout _]|[key [value [Hs [_ [_ [_ Hout]]]]]]]; rewrite Hout;
    [reflexivity|].
  rewrite Hs.
  change (key ++ 61%N :: value) with (key ++ [61%N] ++ value).
  rewrite !ink_app, ink_trimEnd, ink_trimStart. reflexivity.
Qed.

End TomlLine.

(** ** The YAML and the TOML formatter *)

Module LineFormatSpec.
Import Format JSFacts TomlSpec LineFacts PipelineFacts TomlLineFacts TomlLine.

Lemma trimEnd_blank (l : jsstring) : trim (trimEnd l) = [] -> trimEnd l = [].
Proof.
  intros H. apply trim_nil_iff, trimEnd_nil_iff in H.
  now rewrite trimEnd_idem in H.
Qed.

(** X11.  Formatting a YAML text twice gives what formatting it once gives. *)
Theorem formatYAML_idempotent :
  forall content : jsstring,
    formatYAML (formatYAML content) = formatYAML content.
Proof.
  intros content.
  apply (formatLinesWith_idempotent trimEnd eq_refl trimEnd_idem
           trimEnd_no_newline trimEnd_no_cr trimEnd_blank).
Qed.

(** X12.  Formatting a TOML text twice gives what formatting it once gives. *)
Theorem formatTOML_idempotent :
  forall content : jsstring,
    formatTOML (formatTOML content) = formatTOML content.
Proof.
  intros content.
  apply (formatLinesWith_idempotent formatTOMLLine formatTOMLLine_nil
           formatTOMLLine_idem formatTOMLLine_no_newline formatTOMLLine_no_cr
           formatTOMLLine_blank).
Qed.

(** X16.  The YAML and the TOML formatter end their output with one newline,
    never with two. *)
Theorem single_trailing_newline :
  forall content : jsstring,
    (exists body,
        formatYAML content = body ++ [LF] /\ endsWith body [LF] = false)
    /\ (exists body,
           formatTOML content = body ++ [LF] /\ endsWith body [LF] = false).
Proof.
  intros content. split.
  - apply (formatLinesWith_trailing_newline trimEnd trimEnd_idem
             trimEnd_no_newline trimEnd_no_cr trimEnd_blank).
  - apply (formatLinesWith_trailing_newline formatTOMLLine
             formatTOMLLine_idem formatTOMLLine_no_newline
             formatTOMLLine_no_cr formatTOMLLine_blank).
Qed.

(** X17.  In the output of the YAML and of the TOML formatter no two lines that
    follow each other are both blank. *)
Theorem no_repeated_blank_lines :
  forall content : jsstring,
    NoAdjacentBlank (removelast (split LF (formatYAML content)))
    /\ NoAdjacentBlank (removelast (split LF (formatTOML content))).
Proof.
  intros content. split.
  - apply (formatLinesWith_blank_lines trimEnd trimEnd_idem
             trimEnd_no_newline trimEnd_no_cr trimEnd_blank).
  - apply (formatLinesWith_blank_lines formatTOMLLine
             formatTOMLLine_idem formatTOMLLine_no_newline
             formatTOMLLine_no_cr formatTOMLLine_blank).
Qed.

(** X18.  The YAML and the TOML formatter change white space only: the other
    code units of the content come out as they are, in their order. *)
Theorem line_formats_keep_ink :
  forall content : jsstring,
    ink (formatYAML content) = ink content
    /\ ink (formatTOML content) = ink content.
Proof.
  intros content. split.
  - apply (ink_formatLinesWith trimEnd). exact ink_trimEnd.
  - apply (ink_formatLinesWith formatTOMLLine). exact ink_formatTOMLLine.
Qed.

(** X13.  A TOML line with a key before its first equals sign, and no comment,
    comes out as the key, [ = ], and the value: the key loses the white
    space at its end and the value the white space at its start, and what
    follows the first equals sign is kept, further equals signs included. *)
Theorem formatTOMLLine_spacing :
  forall line key value : jsstring,
    trimEnd line = key ++ str "=" ++ value ->
    key <> [] ->
    includes key (str "=") = false ->
    startsWith (trim line) (str "#") = false ->
    formatTOMLLine line = trimEnd key ++ str " = " ++ trimStart value
    /\ Ended (trimEnd key)
    /\ (forall c r, trimStart value = c :: r -> isWhiteSpace c = false).
Proof.
  intros line key value Hf Hne Hk Hc.
  change (str "=") with [61%N] in *. rewrite includes_char in Hk.
  change (str "#") with [35%N] in *.
  split; [|split].
  - apply formatTOMLLine_split; try assumption.
    change (str "#") with [35%N].
    now rewrite trimStart_trimEnd_head, <- startsWith_trim.
  - apply Ended_trimEnd.
  - intros c r E. exact (dropWhile_head _ _ _ _ E).
Qed.

Lemma formatTOMLLine_spacing_witness :
  formatTOMLLine (str "name   =a==b  ")
  = trimEnd (str "name   ") ++ str " = " ++ trimStart (str "a==b").
Proof.
  refine (proj1 (formatTOMLLine_spacing (str "name   =a==b  ")
                   (str "name   ") (str "a==b") _ _ _ _));
    vm_compute; reflexivity || discriminate.
Defined.

(** X14.  A line of the TOML formatter ends with white space only when it is a
    key with an empty value. *)
Theorem trailing_space_needs_empty_value :
  forall line : jsstring,
    hasTrailingWhitespace (formatTOMLLine line) = true ->
    exists key,
      trimEnd line = key ++ str "="
      /\ formatTOMLLine line = trimEnd key ++ str " = ".
Proof.
  intros line H.
  destruct (formatTOMLLine_cases line)
    as [[Hout _]|[key [value [Hs [_ [_ [_ Hout]]]]]]]; rewrite Hout in *.
  - now rewrite trimEnd_clean in H.
  - assert (Ended value) as Hv.
    { pose proof (Ended_trimEnd line) as He. rewrite Hs in He.
      change (key ++ 61%N :: value) with (key ++ [61%N] ++ value) in He.
      rewrite app_assoc in He. now apply Ended_suffix in He. }
    destruct Hv as [->|[a [c [-> Hc]]]]; [now exists key|].
    exfalso. pose proof (Ended_trimStart (a ++ [c])) as He.
    assert (Ended (a ++ [c])) as Hac by (right; now exists a, c).
    specialize (He Hac).
    assert (trimStart (a ++ [c]) <> []) as Hne.
    { intros Hnil. apply trimStart_nil_iff in Hnil.
      rewrite forallb_app in Hnil. cbn in Hnil. rewrite Hc in Hnil.
      now rewrite andb_false_r in Hnil. }
    destruct He as [He|[a' [c' [He Hc']]]]; [contradiction|].
    rewrite He in H. unfold hasTrailingWhitespace in H.
    rewrite !app_assoc, rev_app_distr in H. cbn in H. congruence.
Qed.

Lemma trailing_space_needs_empty_value_witness :
  exists key,
    trimEnd (str "key =") = key ++ str "="
    /\ formatTOMLLine (str "key =") = trimEnd key ++ str " = ".
Proof.
  apply (trailing_space_needs_empty_value (str "key =")).
  vm_compute. reflexivity.
Defined.

Lemma formatYAML_no_trailing_whitespace_witness :
  hasTrailingWhitespace (str "b: 2") = false.
Proof.
  apply (formatYAML_no_trailing_whitespace
           (str "a: 1  " ++ [LF; LF; LF] ++ str "b: 2  ") (str "b: 2")).
  vm_compute. auto.
Defined.

End LineFormatSpec.

(** ** The JSONC reformatter as a whole *)

Module JsoncSpec.
Import Format JSFacts TomlSpec DispatchSpec LineFacts PipelineFacts.
Import TomlLineFacts TomlLine IndentSpec FuelFacts.

(** *** The final newline *)

Lemma collapse_then_ensure (output : jsstring) :
  exists body,
    ensureTrailingNewline (collapseTrailingNewlines output) = body ++ [LF]
    /\ endsWith body [LF] = false.
Proof.
  unfold collapseTrailingNewlines.
  destruct (dropWhile_split (N.eqb LF) (rev output)) as [w [Hw Hall]].
  assert (endsWith (rev (dropWhile (N.eqb LF) (rev output))) [LF] = false)
    as Hbody.
  { unfold endsWith. rewrite rev_involutive.
    destruct (dropWhile (N.eqb LF) (rev output)) as [|c r] eqn:E;
      [reflexivity|].
    apply dropWhile_head in E.
    change (startsWith (c :: r) (rev [LF])) with ((LF =? c)%N && true).
    now rewrite E. }
  destruct (List.length (rev (dropWhile (N.eqb LF) (rev output)))
            <? List.length output)%nat eqn:El.
  - exists (rev (dropWhile (N.eqb LF) (rev output))). split; [|exact Hbody].
    unfold ensureTrailingNewline. now rewrite endsWith_snoc, N.eqb_refl.
  - apply Nat.ltb_ge in El. rewrite length_rev in El.
    pose proof Hw as Hw'.
    apply (f_equal (@List.length char)) in Hw.
    rewrite length_app, length_rev in Hw.
    assert (w = []) as -> by (destruct w; [reflexivity | cbn in Hw; lia]).
    assert (endsWith output [LF] = false) as Hout.
    { rewrite app_nil_l in Hw'. rewrite <- Hw' in Hbody.
      now rewrite rev_involutive in Hbody. }
    exists output. split; [|exact Hout].
    unfold ensureTrailingNewline. now rewrite Hout.
Qed.

(** X19.  The JSONC reformatter ends its output with one newline, never with
    two. *)
Theorem formatJSONC_trailing_newline :
  forall content : jsstring,
    exists body,
      formatJSONC content = body ++ [LF] /\ endsWith body [LF] = false.
Proof. intros content. apply collapse_then_ensure. Qed.

(** *** White space only *)

Lemma ink_collapseTrailingNewlines (output : jsstring) :
  ink (collapseTrailingNewlines output) = ink output.
Proof.
  unfold collapseTrailingNewlines.
  destruct (_ <? _)%nat; [|reflexivity].
  destruct (dropWhile_split (N.eqb LF) (rev output)) as [w [Hw Hall]].
  apply (f_equal (@rev char)) in Hw.
  rewrite rev_involutive, rev_app_distr in Hw.
  rewrite Hw at 2. rewrite !ink_app. f_equal. cbn.
  symmetry. apply ink_blank. apply Forall_rev.
  revert Hall. apply Forall_impl. intros c Hc. apply N.eqb_eq in Hc.
  now subst c.
Qed.

Lemma ink_indent (n : nat) : ink (repeatN indentStr n) = [].
Proof.
  unfold repeatN. induction n as [|n IH]; [reflexivity|].
  cbn [List.repeat List.concat]. now rewrite ink_app, IH.
Qed.

Lemma commentTail_parts (rest comment : jsstring) :
  commentTail rest = Some comment ->
  exists w,
    rest = w ++ comment /\ Forall (fun c => isWhiteSpace c = true) w.
Proof.
  unfold commentTail. destruct (_ && _); [|discriminate].
  intros H. injection H as <-. apply dropWhile_split.
Qed.

(** The two groups of the inline-comment expression and the white space
    between them make up the line. *)
Lemma inlineCommentFrom_parts (rest : jsstring) :
  forall acc code comment,
    inlineCommentFrom acc rest = Some (code, comment) ->
    exists w,
      rev acc ++ rest = code ++ w ++ comment
      /\ Forall (fun c => isWhiteSpace c = true) w.
Proof.
  induction rest as [|c rest IH]; intros acc code comment;
    cbn [inlineCommentFrom].
  - destruct (commentTail []) as [cm|] eqn:E; [|discriminate].
    intros H. injection H as <- <-.
    destruct (commentTail_parts _ _ E) as [w [Hw Hall]]. now exists w.
  - destruct (commentTail (c :: rest)) as [cm|] eqn:E.
    + intros H. injection H as <- <-.
      destruct (commentTail_parts _ _ E) as [w [Hw Hall]]. exists w.
      split; [now rewrite Hw | exact Hall].
    + destruct (isLineTerminator c); [discriminate|].
      intros H. apply IH in H. destruct H as [w [Hw Hall]].
      exists w. split; [|exact Hall].
      rewrite <- Hw. cbn [rev]. now rewrite <- app_assoc.
Qed.

Lemma ink_formatLine (depth : nat) (line : jsstring) :
  ink (snd (formatLine depth line)) = ink line.
Proof.
  rewrite <- (ink_trim line). unfold formatLine.
  destruct (JS.eqb (trim line) []) eqn:Eb.
  - apply eqb_eq in Eb. now rewrite Eb.
  - destruct (startsWith (trim line) (str "//")
              || startsWith (trim line) (str "/*")
              || startsWith (trim line) (str "*")).
    + cbn [snd]. now rewrite ink_app, ink_indent.
    + cbn [snd].
      destruct (inlineCommentMatch (trim line)) as [[code comment]|] eqn:E.
      * rewrite ink_app, ink_indent. cbn [app].
        rewrite !ink_app, ink_trim.
        unfold inlineCommentMatch in E.
        destruct (trim line) as [|c rest]; [discriminate|].
        destruct (isLineTerminator c); [discriminate|].
        apply inlineCommentFrom_parts in E. destruct E as [w [Hw Hall]].
        cbn [rev app] in Hw. rewrite Hw, !ink_app, (ink_blank w Hall).
        reflexivity.
      * now rewrite ink_app, ink_indent.
Qed.

Lemma ink_formatLines (lines : list jsstring) :
  forall depth,
    List.concat (List.map ink (formatLines depth lines))
    = List.concat (List.map ink lines).
Proof.
  induction lines as [|l ls IH]; intros depth; [reflexivity|].
  cbn [formatLines]. pose proof (ink_formatLine depth l) as Hl.
  destruct (formatLine depth l) as [depth' pushed]. cbn [snd] in Hl.
  cbn [List.map List.concat]. now rewrite Hl, IH.
Qed.

(** X20.  The JSONC reformatter changes white space only: the other code units
    of the content come out as they are, in their order. *)
Theorem formatJSONC_keeps_ink :
  forall content : jsstring, ink (formatJSONC content) = ink content.
Proof.
  intros content. unfold formatJSONC.
  rewrite ink_ensureTrailingNewline, ink_collapseTrailingNewlines, ink_join.
  rewrite ink_formatLines. apply ink_splitLines.
Qed.

End JsoncSpec.

(** ** Inline comments *)

Module InlineCommentSpec.
Import Format JSFacts TomlSpec DispatchSpec LineFacts PipelineFacts.
Import TomlLineFacts TomlLine IndentSpec.

Lemma commentTail_slashes (rest : jsstring) :
  forallb (fun c => negb (isLineTerminator c)) rest = true ->
  commentTail (str "//" ++ rest) = Some (str "//" ++ rest).
Proof.
  intros H. unfold commentTail.
  change (dropWhile isWhiteSpace (str "//" ++ rest)) with (str "//" ++ rest).
  rewrite startsWith_app.
  change (skipn 2 (str "//" ++ rest)) with rest. now rewrite H.
Qed.

(** No inline comment starts inside [m2]: [m2] does not end with white
    space, and no [//] begins in it. *)
Lemma commentTail_none (m2 rest : jsstring) :
  m2 <> [] ->
  Ended m2 ->
  includes (m2 ++ str "/") (str "//") = false ->
  commentTail (m2 ++ str "//" ++ rest) = None.
Proof.
  intros Hne Hend Hno. unfold commentTail.
  destruct (dropWhile_split isWhiteSpace m2) as [w [Hm Hw]].
  destruct (dropWhile isWhiteSpace m2) as [|d m'] eqn:Ed.
  - exfalso. rewrite app_nil_r in Hm. subst w.
    destruct Hend as [->|[a [c [-> Hc]]]]; [congruence|].
    apply Forall_app in Hw. destruct Hw as [_ Hw].
    inversion Hw; subst. congruence.
  - rewrite Hm at 1. rewrite <- app_assoc, dropWhile_skip by exact Hw.
    pose proof (dropWhile_head _ _ _ _ Ed) as Hd.
    cbn [app dropWhile]. rewrite Hd.
    replace (startsWith (d :: m' ++ str "//" ++ rest) (str "//")) with false;
      [reflexivity|].
    symmetry. apply not_true_iff_false. intros Hs.
    apply not_true_iff_false in Hno. apply Hno.
    apply includes_spec. exists w.
    rewrite Hm, <- app_assoc.
    apply startsWith_spec in Hs. destruct Hs as [r Hr].
    change (str "//") with [47%N; 47%N] in *.
    change (str "/") with [47%N] in *.
    destruct m' as [|e m']; cbn [app] in Hr.
    + injection Hr as -> _. now exists [].
    + injection Hr as -> -> _. now exists (m' ++ [47%N]).
Qed.

Lemma includes_suffix (a b p : jsstring) :
  includes (a ++ b) p = false -> includes b p = false.
Proof.
  intros H. apply not_true_iff_false. intros Hb.
  apply not_true_iff_false in H. apply H.
  apply includes_spec in Hb. destruct Hb as [x [y ->]].
  apply includes_spec. exists (a ++ x), y. now rewrite <- app_assoc.
Qed.

Lemma inlineCommentFrom_first (mid rest : jsstring) :
  forall acc,
    Ended mid ->
    includes (mid ++ str "/") (str "//") = false ->
    forallb (fun c => negb (isLineTerminator c)) mid = true ->
    forallb (fun c => negb (isLineTerminator c)) rest = true ->
    inlineCommentFrom acc (mid ++ str "//" ++ rest)
    = Some (rev acc ++ mid, str "//" ++ rest).
Proof.
  induction mid as [|x mid IH]; intros acc Hend Hno Hmid Hrest.
  - cbn [app]. change (str "//" ++ rest) with (47%N :: 47%N :: rest).
    cbn [inlineCommentFrom].
    change (47%N :: 47%N :: rest) with (str "//" ++ rest).
    rewrite commentTail_slashes by exact Hrest. now rewrite app_nil_r.
  - cbn [app inlineCommentFrom].
    change (x :: mid ++ str "//" ++ rest)
      with ((x :: mid) ++ str "//" ++ rest).
    rewrite commentTail_none by (discriminate || assumption).
    cbn [forallb] in Hmid. apply andb_true_iff in Hmid.
    destruct Hmid as [Hx Hmid]. apply negb_true_iff in Hx. rewrite Hx.
    rewrite IH; try assumption.
    + cbn [rev]. now rewrite <- app_assoc.
    + change (x :: mid) with ([x] ++ mid) in Hend.
      now apply Ended_suffix in Hend.
    + change ((x :: mid) ++ str "/") with ([x] ++ mid ++ str "/") in Hno.
      now apply includes_suffix in Hno.
Qed.

(** X21.  When a line that is no comment holds [//] after some code, the JSONC
    reformatter emits the code, one space, and the rest from the first [//]
    on: also when the two slashes stand inside a string, as in a URL.  The
    code is the text before the first [//]; it does not end with white
    space, and the line holds no line terminator. *)
Theorem inline_comment_spacing :
  forall (depth : nat) (line code rest : jsstring),
    trim line = code ++ str "//" ++ rest ->
    code <> [] ->
    Ended code ->
    includes (code ++ str "/") (str "//") = false ->
    forallb (fun c => negb (isLineTerminator c)) (code ++ rest) = true ->
    ~ CommentOnly (trim line) ->
    exists emitAt,
      snd (formatLine depth line)
      = repeatN indentStr emitAt ++ code ++ str " //" ++ rest
      /\ (emitAt = depth \/ emitAt = (depth - 1)%nat).
Proof.
  intros depth line code rest Ht Hne Hend Hno Hlt Hcomment.
  pose proof (trim_head line) as Hhead.
  unfold formatLine. rewrite Ht in *.
  destruct code as [|c r]; [congruence|].
  specialize (Hhead c (r ++ str "//" ++ rest) eq_refl).
  replace (JS.eqb ((c :: r) ++ str "//" ++ rest) []) with false
    by (symmetry; now apply eqb_neq).
  replace (startsWith ((c :: r) ++ str "//" ++ rest) (str "//")
           || startsWith ((c :: r) ++ str "//" ++ rest) (str "/*")
           || startsWith ((c :: r) ++ str "//" ++ rest) (str "*"))
    with false.
  2:{ symmetry. apply not_true_iff_false. intros H. apply Hcomment.
      unfold CommentOnly, beginsWith.
      rewrite !orb_true_iff, !startsWith_spec in H. tauto. }
  rewrite forallb_app in Hlt. apply andb_true_iff in Hlt.
  destruct Hlt as [Hcode Hrest]. cbn [forallb] in Hcode.
  apply andb_true_iff in Hcode. destruct Hcode as [Hc Hr].
  apply negb_true_iff in Hc.
  cbn [app inlineCommentMatch]. rewrite Hc.
  rewrite inlineCommentFrom_first; try assumption.
  - cbn [snd rev app].
    assert (trim (c :: r) = c :: r) as ->.
    { rewrite trim_cons by exact Hhead.
      change (c :: trimEnd r) with ([c] ++ trimEnd r).
      destruct r as [|d r']; [reflexivity|].
      rewrite Ended_fixed; [reflexivity|].
      change (c :: d :: r') with ([c] ++ d :: r') in Hend.
      now apply Ended_suffix in Hend. }
    eexists. split; [reflexivity|].
    destruct (startsWithClosingRe _); [right | left]; lia.
  - change (c :: r) with ([c] ++ r) in Hend. now apply Ended_suffix in Hend.
  - change ((c :: r) ++ str "/") with ([c] ++ r ++ str "/") in Hno.
    now apply includes_suffix in Hno.
Qed.

(** A URL in a string value gets a space after its colon. *)
Lemma inline_comment_spacing_witness :
  exists emitAt,
    snd (formatLine 1
           (str "  " ++ [JSON.QUOTE] ++ str "u" ++ [JSON.QUOTE] ++ str ": "
            ++ [JSON.QUOTE] ++ str "http://x" ++ [JSON.QUOTE]))
    = repeatN indentStr emitAt
      ++ ([JSON.QUOTE] ++ str "u" ++ [JSON.QUOTE] ++ str ": "
          ++ [JSON.QUOTE] ++ str "http:")
      ++ str " //" ++ (str "x" ++ [JSON.QUOTE])
    /\ (emitAt = 1%nat \/ emitAt = (1 - 1)%nat).
Proof.
  apply (inline_comment_spacing 1
           (str "  " ++ [JSON.QUOTE] ++ str "u" ++ [JSON.QUOTE] ++ str ": "
            ++ [JSON.QUOTE] ++ str "http://x" ++ [JSON.QUOTE])
           ([JSON.QUOTE] ++ str "u" ++ [JSON.QUOTE] ++ str ": "
            ++ [JSON.QUOTE] ++ str "http:")
           (str "x" ++ [JSON.QUOTE])).
  - vm_compute. reflexivity.
  - discriminate.
  - right. exists ([JSON.QUOTE] ++ str "u" ++ [JSON.QUOTE] ++ str ": "
                   ++ [JSON.QUOTE] ++ str "http"), 58%N.
    split; reflexivity.
  - vm_compute. reflexivity.
  - vm_compute. reflexivity.
  - intros [[r H]|[[r H]|[r H]]]; vm_compute in H; discriminate.
Defined.

End InlineCommentSpec.

(** ** The scanner *)

Module ScannerSpec.
Import Secrets JSFacts MaskingSpec GatingSpec TraversalSpec.

(** X1.  The mask is as long as the value, up to 24 code units. *)
Theorem maskSecret_length :
  forall value : jsstring,
    exists masked,
      maskSecret value = Some masked
      /\ List.length masked = Nat.min (List.length value) 24.
Proof.
  intros value. eexists. split; [apply maskSecret_rule|].
  destruct (List.length value <=? 8)%nat eqn:E.
  - apply Nat.leb_le in E. rewrite repeat_length. lia.
  - apply Nat.leb_gt in E.
    rewrite !length_app, repeat_length, length_firstn, length_skipn. lia.
Qed.

Section Loop.
Context {RT : Runtime}.
Variable import_meta_dir : jsstring.

(** *** A match of no code units *)

Lemma execLoop_stalls (regex : RegExp) (content relativePath : jsstring)
  (pc : SecretPattern.t) (lastIndex : nat) :
  Stalls regex content lastIndex ->
  forall fuel matches,
    execLoop fuel regex content relativePath pc lastIndex matches = None.
Proof.
  induction 1 as [lastIndex Hexec|lastIndex index m0 Hexec _ IH].
  - induction fuel as [|fuel IHfuel]; intros matches; [reflexivity|].
    cbn [execLoop]. rewrite Hexec. cbn [List.length].
    rewrite Nat.add_0_r.
    destruct (match SecretPattern.context pc with
              | Some ctxs => _
              | None => false
              end); [apply IHfuel|].
    destruct (getLineContext content lastIndex) as [[line column] context].
    rewrite maskSecret_rule. apply IHfuel.
  - intros [|fuel] matches; [reflexivity|].
    cbn [execLoop]. rewrite Hexec.
    destruct (match SecretPattern.context pc with
              | Some ctxs => _
              | None => false
              end); [apply IH|].
    destruct (getLineContext content index) as [[line column] context].
    rewrite maskSecret_rule. apply IH.
Qed.

Lemma forPatterns_stalls (fuel : nat) (content relativePath : jsstring)
  (regex : RegExp) (p : SecretPattern.t) (after : list SecretPattern.t) :
  RegExp_new (SecretPattern.pattern p) = Some regex ->
  Stalls regex content 0 ->
  forall before matches,
    forPatterns fuel content relativePath (before ++ p :: after) matches = None.
Proof.
  intros Hnew Hstalls. induction before as [|q before IH]; intros matches.
  - cbn [app forPatterns]. rewrite Hnew.
    now rewrite (execLoop_stalls regex content relativePath p 0 Hstalls).
  - cbn [app forPatterns].
    destruct (RegExp_new (SecretPattern.pattern q)) as [rq|]; [|apply IH].
    destruct (execLoop fuel rq content relativePath q 0 matches);
      [apply IH | reflexivity].
Qed.

(** *** A pattern that does not compile *)

Lemma forPatterns_skips (fuel : nat) (content relativePath : jsstring)
  (p : SecretPattern.t) (after : list SecretPattern.t) :
  RegExp_new (SecretPattern.pattern p) = None ->
  forall before matches,
    forPatterns fuel content relativePath (before ++ p :: after) matches
    = forPatterns fuel content relativePath (before ++ after) matches.
Proof.
  intros Hnew. induction before as [|q before IH]; intros matches.
  - cbn [app forPatterns]. now rewrite Hnew.
  - cbn [app forPatterns].
    destruct (RegExp_new (SecretPattern.pattern q)) as [rq|]; [|apply IH].
    destruct (execLoop fuel rq content relativePath q 0 matches);
      [apply IH | reflexivity].
Qed.

(** *** A pattern without context keywords *)

Lemma execLoop_trace_all (regex : RegExp) (content relativePath : jsstring)
  (pc : SecretPattern.t) :
  SecretPattern.context pc = None \/ SecretPattern.context pc = Some [] ->
  forall lastIndex ms,
    ExecTrace regex content lastIndex ms ->
    forall fuel matches,
      (List.length ms < fuel)%nat ->
      execLoop fuel regex content relativePath pc lastIndex matches
      = Some (matches ++ List.map (report content relativePath pc) ms).
Proof.
  intros Hctx lastIndex ms Htrace.
  induction Htrace as [lastIndex Hnull|lastIndex index m0 rest Hexec _ IH];
    intros [|fuel] matches Hfuel; cbn [List.length] in Hfuel; try lia.
  - cbn [execLoop]. rewrite Hnull. cbn. now rewrite app_nil_r.
  - cbn [execLoop]. rewrite Hexec.
    assert (match SecretPattern.context pc with
            | Some ctxs =>
                if (0 <? List.length ctxs)%nat
                then
                  negb
                    (existsb
                       (fun ctx =>
                          includes
                            (toLowerCase
                               (slice content
                                  (Z.max 0 (Z.of_nat index - 100))
                                  (Some (Z.of_nat index + len m0 + 100)%Z)))
                            (toLowerCase ctx)) ctxs)
                else false
            | None => false
            end = false) as ->.
    { destruct Hctx as [->| ->]; reflexivity. }
    destruct (getLineContext content index) as [[line column] context] eqn:Hg.
    rewrite maskSecret_rule.
    rewrite IH by lia. cbn [List.map]. rewrite <- app_assoc.
    do 2 f_equal. cbn [app]. f_equal.
    unfold report. cbn [fst snd].
    now rewrite Hg, maskSecret_rule.
Qed.

(** *** Where a report comes from *)

Lemma execLoop_sound (regex : RegExp) (content relativePath : jsstring)
  (pc : SecretPattern.t) :
  forall fuel lastIndex matches out,
    execLoop fuel regex content relativePath pc lastIndex matches = Some out ->
    forall s,
      In s out ->
      In s matches \/ Reported regex content relativePath pc s.
Proof.
  induction fuel as [|fuel IH]; intros lastIndex matches out; [discriminate|].
  cbn [execLoop].
  destruct (regex content lastIndex) as [[index m0]|] eqn:Hexec.
  - destruct (match SecretPattern.context pc with
              | Some ctxs => _
              | None => false
              end); [apply IH|].
    destruct (getLineContext content index) as [[line column] context] eqn:Hg.
    rewrite maskSecret_rule. intros H s Hin.
    destruct (IH _ _ _ H s Hin) as [Hm|Hr]; [|now right].
    apply in_app_or in Hm. destruct Hm as [Hm|[<-|[]]]; [now left|].
    right. exists lastIndex, index, m0. split; [exact Hexec|].
    unfold report. cbn [fst snd]. now rewrite Hg, maskSecret_rule.
  - intros H. injection H as <-. auto.
Qed.

Lemma forPatterns_sound (fuel : nat) (content relativePath : jsstring) :
  forall ps matches out,
    forPatterns fuel content relativePath ps matches = Some out ->
    forall s,
      In s out ->
      In s matches
      \/ exists pc regex,
           In pc ps
           /\ RegExp_new (SecretPattern.pattern pc) = Some regex
           /\ Reported regex content relativePath pc s.
Proof.
  induction ps as [|pc ps IH]; intros matches out.
  - intros H. injection H as <-. auto.
  - cbn [forPatterns].
    destruct (RegExp_new (SecretPattern.pattern pc)) as [regex|] eqn:Hnew.
    + destruct (execLoop fuel regex content relativePath pc 0 matches)
        as [matches'|] eqn:Hloop; [|discriminate].
      intros H s Hin. destruct (IH _ _ H s Hin) as [Hm|[q [rq [Hq Hr]]]].
      * destruct (execLoop_sound _ _ _ _ _ _ _ _ Hloop s Hm) as [Hm'|Hr];
          [now left|].
        right. exists pc, regex. repeat split; [now left | assumption..].
      * right. exists q, rq. split; [now right | exact Hr].
    + intros H s Hin. destruct (IH _ _ H s Hin) as [Hm|[q [rq [Hq Hr]]]];
        [now left|].
      right. exists q, rq. split; [now right | exact Hr].
Qed.

Lemma scanFiles_sound (fuel : nat) (fs : FileSystem)
  (ps : list SecretPattern.t) :
  forall files allMatches out,
    scanFiles import_meta_dir fuel fs files ps allMatches = Some out ->
    forall s,
      In s out ->
      In s allMatches
      \/ exists filePath content pc regex,
           In filePath files
           /\ readText fs filePath = Some content
           /\ In pc ps
           /\ RegExp_new (SecretPattern.pattern pc) = Some regex
           /\ Reported regex content
                (path_relative (ROOT_DIR import_meta_dir) filePath) pc s.
Proof.
  induction files as [|filePath files IH]; intros allMatches out.
  - intros H. injection H as <-. auto.
  - cbn [scanFiles].
    destruct (scanFile import_meta_dir fuel (readText fs filePath) filePath
                ps) as [matches|] eqn:Hscan; [|discriminate].
    intros H s Hin.
    destruct (IH _ _ H s Hin) as [Hm|[f [c [pc [rx [Hf Hrest]]]]]].
    + apply in_app_or in Hm. destruct Hm as [Hm|Hm]; [now left|].
      right. unfold scanFile in Hscan.
      destruct (readText fs filePath) as [content|] eqn:Hread.
      * destruct (forPatterns_sound _ _ _ _ _ _ Hscan s Hm)
          as [[]|[pc [rx [Hpc [Hnew Hr]]]]].
        exists filePath, content, pc, rx.
        repeat split; [now left | assumption..].
      * injection Hscan as <-. destruct Hm.
    + right. exists f, c, pc, rx. split; [now right | exact Hrest].
Qed.

(** *** A glob that does not compile *)

Lemma someM_not_false (A : Type) (f : A -> option bool) (g : A)
  (after : list A) :
  f g = None ->
  forall before, someM f (before ++ g :: after) <> Some false.
Proof.
  intros Hg. induction before as [|x before IH].
  - cbn. now rewrite Hg.
  - cbn [app someM]. destruct (f x) as [[|]|]; [discriminate | exact IH|].
    discriminate.
Qed.

(** With such a glob in the list, every entry is either passed over or
    ends the loop over its directory. *)
Lemma walkEntries_raises (config : SecretsConfig) (g : jsstring)
  (before after : list jsstring) :
  ignorePatterns config = before ++ g :: after ->
  (forall path, minimatch path g = None) ->
  forall dir es st,
    walkEntries import_meta_dir config dir es st = st.
Proof.
  intros Hconfig Hg dir es st.
  induction es as [|[e n] es IH]; [reflexivity|].
  cbn [walkEntries].
  destruct (shouldIgnore import_meta_dir (path_join dir e)
              (ignorePatterns config)) as [[|]|] eqn:E;
    [exact IH | | reflexivity].
  exfalso. unfold shouldIgnore in E. rewrite Hconfig in E.
  now apply (someM_not_false _ _ g after (Hg _) before) in E.
Qed.

Lemma scanDirectory_raises (config : SecretsConfig) (g : jsstring)
  (before after : list jsstring) :
  ignorePatterns config = before ++ g :: after ->
  (forall path, minimatch path g = None) ->
  forall dir entries,
    scanDirectory import_meta_dir dir entries config = ([], 0%nat).
Proof.
  intros Hconfig Hg dir [es|]; [|reflexivity].
  unfold scanDirectory, walk.
  exact (walkEntries_raises config g before after Hconfig Hg dir es _).
Qed.

(** *** Hidden directories *)

Lemma visit_hidden (config : SecretsConfig) (fullPath name : jsstring)
  (es : option (list (jsstring * Node))) (st : list jsstring * nat) :
  startsWith name (str ".") = true ->
  JS.eqb name (str ".config") = false ->
  visit import_meta_dir config fullPath name (Directory es) st = st.
Proof.
  intros Hdot Hconfig. destruct es as [es|].
  - now rewrite visit_directory, Hdot, Hconfig.
  - cbn [visit]. now rewrite Hdot, Hconfig.
Qed.

(** The walk does not tell apart two trees that differ below hidden
    directories only. *)
Lemma walkEntries_same_from (config : SecretsConfig) (dir : jsstring)
  (es1 es2 : list (jsstring * Node)) :
  SameEntriesOutsideHidden es1 es2 ->
  Forall
    (fun e =>
       forall name n2,
         SameOutsideHidden name (snd e) n2 ->
         forall fullPath st,
           visit import_meta_dir config fullPath name (snd e) st
           = visit import_meta_dir config fullPath name n2 st)
    es1 ->
  forall st,
    walkEntries import_meta_dir config dir es1 st
    = walkEntries import_meta_dir config dir es2 st.
Proof.
  induction 1 as [|[e1 n1] [e2 n2] es1 es2 [Hname Hsame] _ IH];
    intros Hall st; [reflexivity|].
  cbn [fst snd] in Hname, Hsame. subst e2.
  inversion Hall as [|? ? Hn1 Hrest]; subst.
  cbn [walkEntries].
  destruct (shouldIgnore import_meta_dir (path_join dir e1)
              (ignorePatterns config)) as [[|]|]; [now apply IH | | reflexivity].
  cbn [snd] in Hn1. rewrite (Hn1 e1 n2 Hsame). now apply IH.
Qed.

Lemma visit_same (config : SecretsConfig) (n1 : Node) :
  forall name n2,
    SameOutsideHidden name n1 n2 ->
    forall fullPath st,
      visit import_meta_dir config fullPath name n1 st
      = visit import_meta_dir config fullPath name n2 st.
Proof.
  induction n1 as [| | | |es1 IH] using Node_induction;
    intros name n2 Hsame fullPath st.
  - inversion Hsame; subst; reflexivity.
  - inversion Hsame; subst; reflexivity.
  - inversion Hsame; subst; reflexivity.
  - inversion Hsame as [| ? ? ? Hdot Hconfig |]; subst; [reflexivity|].
    now rewrite !visit_hidden.
  - inversion Hsame as [| ? ? ? Hdot Hconfig | ? ? es2 Hes]; subst.
    + reflexivity.
    + now rewrite !visit_hidden.
    + rewrite !visit_directory.
      destruct (negb (startsWith name (str "."))
                || JS.eqb name (str ".config")); [|reflexivity].
      now apply walkEntries_same_from.
Qed.

Lemma walkEntries_same (config : SecretsConfig) (dir : jsstring)
  (es1 es2 : list (jsstring * Node)) :
  SameEntriesOutsideHidden es1 es2 ->
  forall st,
    walkEntries import_meta_dir config dir es1 st
    = walkEntries import_meta_dir config dir es2 st.
Proof.
  intros Hsame. apply walkEntries_same_from; [exact Hsame|].
  apply Forall_forall. intros e _. apply visit_same.
Qed.

(** The scan of the files reads their texts only. *)
Lemma scanFiles_readText (fuel : nat) (fs1 fs2 : FileSystem)
  (ps : list SecretPattern.t) :
  readText fs1 = readText fs2 ->
  forall files allMatches,
    scanFiles import_meta_dir fuel fs1 files ps allMatches
    = scanFiles import_meta_dir fuel fs2 files ps allMatches.
Proof.
  intros Hread. induction files as [|f files IH]; intros allMatches;
    [reflexivity|].
  cbn [scanFiles]. rewrite Hread.
  destruct (scanFile import_meta_dir fuel (readText fs2 f) f ps);
    [apply IH | reflexivity].
Qed.

End Loop.

(** *** Line, column and context *)

Lemma split_app (sep : char) (a b : jsstring) :
  split sep (a ++ b)
  = removelast (split sep a)
    ++ (last (split sep a) [] ++ hd [] (split sep b)) :: tl (split sep b).
Proof.
  induction a as [|x a IH].
  - cbn. destruct (split sep b) as [|h t] eqn:E;
      [now destruct (split_not_nil _ _ E) | reflexivity].
  - cbn [app split]. rewrite IH.
    destruct (split sep a) as [|h t] eqn:E;
      [now destruct (split_not_nil _ _ E)|].
    destruct (x =? sep)%N.
    + destruct t; reflexivity.
    + destruct t as [|h' t]; reflexivity.
Qed.

Lemma removelast_length (A : Type) (l : list A) :
  List.length (removelast l) = (List.length l - 1)%nat.
Proof.
  induction l as [|x [|y l] IH]; try reflexivity.
  change (removelast (x :: y :: l)) with (x :: removelast (y :: l)).
  cbn [List.length] in *. lia.
Qed.

(** X5.  A pattern whose expression matches the empty string stops the scan of
    a file: once [exec] gives a match of no code units, [lastIndex] stays
    where it is and the loop does not end, whatever the fuel. *)
Theorem empty_match_never_ends :
  forall (RT : Runtime) (import_meta_dir : jsstring) (regex : RegExp)
         (content filePath : jsstring) (p : SecretPattern.t)
         (before after : list SecretPattern.t),
    RegExp_new (SecretPattern.pattern p) = Some regex ->
    Stalls regex content 0 ->
    forall fuel,
      scanFile import_meta_dir fuel (Some content) filePath
        (before ++ p :: after)
      = None.
Proof.
  intros RT imd regex content filePath p before after Hnew Hstalls fuel.
  unfold scanFile. now apply (forPatterns_stalls fuel _ _ regex).
Qed.

Lemma empty_match_never_ends_witness :
  scanFile (RT := Demo.wordRunRuntime) Demo.scriptDir 1000
    (Some (str "ab")) (str "/repo/app.toml") ([] ++ Demo.wordRun :: [])
  = None.
Proof.
  refine (empty_match_never_ends Demo.wordRunRuntime Demo.scriptDir
            (Regex.exec (Regex.Star Regex.word_)) (str "ab")
            (str "/repo/app.toml") Demo.wordRun [] [] _ _ 1000%nat).
  - vm_compute. reflexivity.
  - apply (stalls_later _ _ 0%nat 0%nat (str "ab")); [vm_compute; reflexivity|].
    apply stalls_here. vm_compute. reflexivity.
Defined.

(** X4.  A pattern whose expression does not compile is passed over: the scan
    of a file gives what it gives without the pattern. *)
Theorem invalid_pattern_skipped :
  forall (RT : Runtime) (import_meta_dir : jsstring) (fuel : nat)
         (text : option jsstring) (filePath : jsstring) (p : SecretPattern.t)
         (before after : list SecretPattern.t),
    RegExp_new (SecretPattern.pattern p) = None ->
    scanFile import_meta_dir fuel text filePath (before ++ p :: after)
    = scanFile import_meta_dir fuel text filePath (before ++ after).
Proof.
  intros RT imd fuel [content|] filePath p before after Hnew; [|reflexivity].
  unfold scanFile. now apply forPatterns_skips.
Qed.

Lemma invalid_pattern_skipped_witness :
  scanFile (RT := Demo.runtime) Demo.scriptDir 100 (Some Demo.secretLine)
    (str "/repo/app.toml")
    (Secrets.patterns Demo.builtIn ++ Demo.unbalanced :: [])
  = scanFile (RT := Demo.runtime) Demo.scriptDir 100 (Some Demo.secretLine)
      (str "/repo/app.toml") (Secrets.patterns Demo.builtIn ++ []).
Proof.
  apply (invalid_pattern_skipped Demo.runtime Demo.scriptDir 100
           (Some Demo.secretLine) (str "/repo/app.toml") Demo.unbalanced
           (Secrets.patterns Demo.builtIn) []).
  vm_compute. reflexivity.
Defined.

(** X3.  For a pattern without context keywords the loop reports every match
    [exec] gives, once and in order. *)
Theorem matches_without_context :
  forall (RT : Runtime) (regex : RegExp) (content relativePath : jsstring)
         (pc : SecretPattern.t) (ms : list (nat * jsstring)),
    SecretPattern.context pc = None \/ SecretPattern.context pc = Some [] ->
    ExecTrace regex content 0 ms ->
    forall fuel,
      (List.length ms < fuel)%nat ->
      execLoop fuel regex content relativePath pc 0 []
      = Some (List.map (report content relativePath pc) ms).
Proof.
  intros RT regex content relativePath pc ms Hctx Htrace fuel Hfuel.
  now rewrite (execLoop_trace_all regex content relativePath pc Hctx 0 ms
                 Htrace fuel [] Hfuel).
Qed.

Lemma matches_without_context_witness :
  execLoop (RT := Demo.runtime) 2 (Regex.exec Demo.secretRe)
    (str "# Database settings" ++ [LF] ++ Demo.secretLine) (str "app.toml")
    (nth 1 (Secrets.patterns Demo.builtIn) Demo.unbalanced) 0 []
  = Some
      (List.map
         (report (str "# Database settings" ++ [LF] ++ Demo.secretLine)
            (str "app.toml")
            (nth 1 (Secrets.patterns Demo.builtIn) Demo.unbalanced))
         [(20%nat, Demo.secretLine)]).
Proof.
  apply (matches_without_context Demo.runtime (Regex.exec Demo.secretRe)
           (str "# Database settings" ++ [LF] ++ Demo.secretLine)
           (str "app.toml")
           (nth 1 (Secrets.patterns Demo.builtIn) Demo.unbalanced)
           [(20%nat, Demo.secretLine)]).
  - left. reflexivity.
  - apply trace_match; [vm_compute; reflexivity|].
    apply trace_null. vm_compute. reflexivity.
  - cbn. lia.
Defined.

(** X6.  Every secret of the [ScanResult] is the report of a match that the
    expression of a configured pattern gives on the text of a file the
    traversal kept: a file that is not ignored and has a valid extension. *)
Theorem reports_are_matches :
  forall (RT : Runtime) (import_meta_dir : jsstring) (config : SecretsConfig)
         (fuel : nat) (fs : FileSystem) (r : ScanResult) (s : SecretMatch.t),
    main import_meta_dir fuel config fs = Some r ->
    In s (secretsFound r) ->
    exists filePath content pc regex,
      In filePath
        (countedFrom import_meta_dir config (ROOT_DIR import_meta_dir)
           (rootEntries fs))
      /\ hasValidExtension filePath (fileExtensions config) = true
      /\ shouldIgnore import_meta_dir filePath (ignorePatterns config)
         = Some false
      /\ readText fs filePath = Some content
      /\ In pc (patterns config)
      /\ RegExp_new (SecretPattern.pattern pc) = Some regex
      /\ Reported regex content
           (path_relative (ROOT_DIR import_meta_dir) filePath) pc s.
Proof.
  intros RT imd config fuel fs r s Hmain Hin. unfold main in Hmain.
  rewrite scanDirectory_counted in Hmain.
  destruct (scanFiles imd fuel fs _ (patterns config) []) as [allMatches|]
    eqn:Hscan; [|discriminate].
  injection Hmain as <-. cbn [secretsFound] in Hin.
  destruct (scanFiles_sound imd fuel fs _ _ _ _ Hscan s Hin)
    as [[]|[f [c [pc [rx [Hf [Hread [Hpc [Hnew Hrep]]]]]]]]].
  apply filter_In in Hf. destruct Hf as [Hf Hext].
  exists f, c, pc, rx. repeat split; try assumption.
  exact (countedFrom_checked imd config _ _ f Hf).
Qed.

Lemma reports_are_matches_witness :
  exists r s,
    main (RT := Demo.runtime) Demo.scriptDir 100 Demo.builtIn Demo.fileSystem
    = Some r
    /\ In s (secretsFound r)
    /\ exists filePath content pc regex,
         In filePath
           (countedFrom (RT := Demo.runtime) Demo.scriptDir Demo.builtIn
              (ROOT_DIR Demo.scriptDir) (rootEntries Demo.fileSystem))
         /\ hasValidExtension (RT := Demo.runtime) filePath
              (fileExtensions Demo.builtIn) = true
         /\ shouldIgnore (RT := Demo.runtime) Demo.scriptDir filePath
              (ignorePatterns Demo.builtIn) = Some false
         /\ readText Demo.fileSystem filePath = Some content
         /\ In pc (patterns Demo.builtIn)
         /\ RegExp_new (Runtime := Demo.runtime) (SecretPattern.pattern pc)
            = Some regex
         /\ Reported regex content
              (path_relative (Runtime := Demo.runtime)
                 (ROOT_DIR Demo.scriptDir) filePath) pc s.
Proof.
  destruct (main (RT := Demo.runtime) Demo.scriptDir 100 Demo.builtIn
              Demo.fileSystem) as [r|] eqn:Hmain;
    [|vm_compute in Hmain; discriminate].
  destruct (secretsFound r) as [|s rest] eqn:Hfound.
  - exfalso. vm_compute in Hmain. injection Hmain as <-. discriminate.
  - exists r, s. split; [reflexivity|]. split; [rewrite Hfound; now left|].
    refine (reports_are_matches Demo.runtime Demo.scriptDir Demo.builtIn 100
              Demo.fileSystem r s Hmain _).
    rewrite Hfound. now left.
Defined.

(** X7.  A glob of the ignore list that does not compile stops the whole
    scan, whatever the other globs are: for each entry [shouldIgnore] either
    answers through an earlier glob, and the entry is passed over, or
    raises, and the loop over the directory ends.  The run reports no file
    and no secret. *)
Theorem uncompilable_glob_scans_nothing :
  forall (RT : Runtime) (import_meta_dir : jsstring) (config : SecretsConfig)
         (fuel : nat) (fs : FileSystem) (g : jsstring)
         (before after : list jsstring),
    ignorePatterns config = before ++ g :: after ->
    (forall path, minimatch path g = None) ->
    main import_meta_dir fuel config fs
    = Some {| totalFiles := 0; scannedFiles := 0; secretsFound := [];
              hasSecrets := false |}.
Proof.
  intros RT imd config fuel fs g before after Hconfig Hg.
  unfold main.
  now rewrite (scanDirectory_raises imd config g before after Hconfig Hg).
Qed.

Lemma uncompilable_glob_scans_nothing_witness :
  main (RT := Demo.runtime) Demo.scriptDir 100
    {| patterns := patterns Demo.builtIn;
       ignorePatterns :=
         [str "**/dist/**"] ++ str "(" :: [str "**/.git/**"];
       fileExtensions := fileExtensions Demo.builtIn |}
    Demo.fileSystem
  = Some {| totalFiles := 0; scannedFiles := 0; secretsFound := [];
            hasSecrets := false |}.
Proof.
  apply (uncompilable_glob_scans_nothing Demo.runtime Demo.scriptDir
           {| patterns := patterns Demo.builtIn;
              ignorePatterns :=
                [str "**/dist/**"] ++ str "(" :: [str "**/.git/**"];
              fileExtensions := fileExtensions Demo.builtIn |}
           100 Demo.fileSystem (str "(") [str "**/dist/**"]
           [str "**/.git/**"]).
  - reflexivity.
  - intros path. reflexivity.
Defined.

(** X9.  What lies below a hidden directory other than [.config] does not
    count, at whatever depth the directory is: two trees that differ below
    such directories only (in what they hold, or in whether they can be
    read) give the same result. *)
Theorem hidden_directory_not_entered :
  forall (RT : Runtime) (import_meta_dir : jsstring) (config : SecretsConfig)
         (fuel : nat) (readText : jsstring -> option jsstring)
         (es1 es2 : list (jsstring * Node)),
    SameEntriesOutsideHidden es1 es2 ->
    main import_meta_dir fuel config
      {| rootEntries := Some es1; readText := readText |}
    = main import_meta_dir fuel config
        {| rootEntries := Some es2; readText := readText |}.
Proof.
  intros RT imd config fuel rt es1 es2 Hsame.
  unfold main, scanDirectory, walk. cbn [rootEntries Secrets.readText].
  rewrite (walkEntries_same imd config (ROOT_DIR imd) es1 es2 Hsame).
  destruct (walkEntries imd config (ROOT_DIR imd) es2 ([], 0%nat))
    as [files scanned].
  now rewrite (scanFiles_readText imd fuel
                 {| rootEntries := Some es1; readText := rt |}
                 {| rootEntries := Some es2; readText := rt |}
                 (patterns config) eq_refl).
Qed.

Lemma hidden_directory_not_entered_witness :
  main (RT := Demo.runtime) Demo.scriptDir 100 Demo.builtIn
    {| rootEntries :=
         Some (Demo.treeWithCaches (Some [(str "x.json", File)]));
       readText := readText Demo.fileSystem |}
  = main (RT := Demo.runtime) Demo.scriptDir 100 Demo.builtIn
      {| rootEntries := Some (Demo.treeWithCaches None);
         readText := readText Demo.fileSystem |}.
Proof.
  apply (hidden_directory_not_entered Demo.runtime Demo.scriptDir Demo.builtIn
           100 (readText Demo.fileSystem)
           (Demo.treeWithCaches (Some [(str "x.json", File)]))
           (Demo.treeWithCaches None)).
  unfold SameEntriesOutsideHidden, Demo.treeWithCaches.
  apply Forall2_cons; [split; [reflexivity | apply same_node]|].
  apply Forall2_cons;
    [split; [reflexivity | apply same_hidden; reflexivity]|].
  apply Forall2_cons; [|apply Forall2_nil].
  split; [reflexivity|]. apply same_directory.
  apply Forall2_cons;
    [split; [reflexivity | apply same_hidden; reflexivity]|].
  apply Forall2_cons; [|apply Forall2_nil].
  split; [reflexivity | apply same_node].
Defined.

(** X2.  The line and the column of a match lead back to it: the line of that
    number holds, at that column, the code unit the match starts with, and
    the context reported is that line, trimmed. *)
Theorem getLineContext_addresses :
  forall (content : jsstring) (i : nat) (c : char),
    nth_error content i = Some c ->
    c <> LF ->
    exists l,
      nth_error (split LF content) (fst (fst (getLineContext content i)) - 1)
      = Some l
      /\ nth_error l (snd (fst (getLineContext content i)) - 1) = Some c
      /\ snd (getLineContext content i) = trim l.
Proof.
  intros content i c Hnth Hc. apply nth_error_split in Hnth.
  destruct Hnth as [pre [post [Hcontent Hlen]]].
  unfold getLineContext. cbn [fst snd]. rewrite slice_prefix.
  assert (firstn i content = pre) as ->.
  { rewrite Hcontent, <- Hlen. now rewrite firstn_app, Nat.sub_diag, firstn_all,
      firstn_O, app_nil_r. }
  rewrite (nth_error_last _ (split LF pre) []) by apply split_not_nil.
  rewrite Hcontent, split_app.
  cbn [split]. replace (c =? LF)%N with false
    by (symmetry; now apply N.eqb_neq).
  destruct (split LF post) as [|h0 t0] eqn:Ep;
    [now destruct (split_not_nil _ _ Ep)|].
  cbn [hd tl].
  exists (last (split LF pre) [] ++ c :: h0).
  assert (forall rest0 : list jsstring,
             nth_error
               (removelast (split LF pre)
                ++ (last (split LF pre) [] ++ c :: h0) :: rest0)
               (List.length (split LF pre) - 1)
             = Some (last (split LF pre) [] ++ c :: h0)) as Hline.
  { intros rest0.
    rewrite nth_error_app2 by (rewrite removelast_length; lia).
    now rewrite removelast_length, Nat.sub_diag. }
  split; [apply Hline|]. split.
  - rewrite Nat.add_sub. rewrite nth_error_app2 by lia.
    now rewrite Nat.sub_diag.
  - f_equal. apply nth_error_nth. apply Hline.
Qed.

Lemma getLineContext_addresses_witness :
  exists l,
    nth_error (split LF (str "ab" ++ [LF] ++ str "  key=1"))
      (fst (fst (getLineContext (str "ab" ++ [LF] ++ str "  key=1") 5)) - 1)
    = Some l
    /\ nth_error l
         (snd (fst (getLineContext (str "ab" ++ [LF] ++ str "  key=1") 5)) - 1)
       = Some (ch "k")
    /\ snd (getLineContext (str "ab" ++ [LF] ++ str "  key=1") 5) = trim l.
Proof.
  apply (getLineContext_addresses (str "ab" ++ [LF] ++ str "  key=1") 5
           (ch "k")).
  - reflexivity.
  - discriminate.
Defined.

End ScannerSpec.

(** ** The report *)

Module ReportSpec.
Import Secrets JSFacts.

Lemma existsb_eqb_In (f : jsstring) (ks : list jsstring) :
  existsb (JS.eqb f) ks = true <-> In f ks.
Proof.
  rewrite existsb_exists. split.
  - intros [k [Hin Hk]]. apply eqb_eq in Hk. now subst k.
  - intros H. exists f. split; [exact H | now apply eqb_eq].
Qed.

Lemma mapGet_map (G : jsstring -> list SecretMatch.t) (f : jsstring)
  (ks : list jsstring) :
  mapGet f (List.map (fun k => (k, G k)) ks)
  = if existsb (JS.eqb f) ks then Some (G f) else None.
Proof.
  unfold mapGet. induction ks as [|k ks IH]; [reflexivity|].
  cbn [List.map find existsb fst].
  destruct (JS.eqb k f) eqn:E.
  - apply eqb_eq in E. subst k.
    replace (JS.eqb f f) with true by (symmetry; now apply eqb_eq).
    reflexivity.
  - replace (JS.eqb f k) with false.
    + exact IH.
    + symmetry. apply eqb_neq. apply eqb_neq in E. congruence.
Qed.

Lemma mapSet_map_in (G : jsstring -> list SecretMatch.t) (f : jsstring)
  (v : list SecretMatch.t) (ks : list jsstring) :
  NoDup ks ->
  In f ks ->
  mapSet f v (List.map (fun k => (k, G k)) ks)
  = List.map (fun k => (k, if JS.eqb k f then v else G k)) ks.
Proof.
  induction 1 as [|k ks Hk Hnd IH]; intros Hin; [destruct Hin|].
  cbn [List.map mapSet]. destruct (JS.eqb k f) eqn:E.
  - apply eqb_eq in E. subst k. f_equal.
    apply map_ext_in. intros k' Hk'.
    replace (JS.eqb k' f) with false; [reflexivity|].
    symmetry. apply eqb_neq. intros ->. contradiction.
  - f_equal. apply IH. destruct Hin as [->|Hin]; [|exact Hin].
    apply eqb_neq in E. congruence.
Qed.

Lemma mapSet_map_new (G : jsstring -> list SecretMatch.t) (f : jsstring)
  (v : list SecretMatch.t) (ks : list jsstring) :
  existsb (JS.eqb f) ks = false ->
  mapSet f v (List.map (fun k => (k, G k)) ks)
  = List.map (fun k => (k, G k)) ks ++ [(f, v)].
Proof.
  induction ks as [|k ks IH]; intros Hf; [reflexivity|].
  cbn [existsb] in Hf. apply orb_false_iff in Hf. destruct Hf as [Hk Hf].
  cbn [List.map mapSet app].
  replace (JS.eqb k f) with false.
  - f_equal. now apply IH.
  - symmetry. apply eqb_neq. apply eqb_neq in Hk. congruence.
Qed.

Lemma firstSeen_fresh (xs : list jsstring) :
  forall ks x, In x (firstSeen ks xs) -> existsb (JS.eqb x) ks = false.
Proof.
  induction xs as [|x0 xs IH]; intros ks x Hin; [destruct Hin|].
  cbn [firstSeen] in Hin. destruct (existsb (JS.eqb x0) ks) eqn:E.
  - now apply IH.
  - destruct Hin as [<-|Hin]; [exact E|].
    apply IH in Hin. rewrite existsb_app in Hin.
    now apply orb_false_iff in Hin.
Qed.

Lemma byFile_from (l : list SecretMatch.t) :
  forall (ks : list jsstring) (G : jsstring -> list SecretMatch.t),
    NoDup ks ->
    fold_left
      (fun m secret =>
         mapSet (SecretMatch.file secret)
           (match mapGet (SecretMatch.file secret) m with
            | Some l => l
            | None => []
            end ++ [secret]) m)
      l (List.map (fun k => (k, G k)) ks)
    = List.map
        (fun k =>
           (k, (if existsb (JS.eqb k) ks then G k else []) ++ grouped l k))
        (ks ++ firstSeen ks (List.map SecretMatch.file l)).
Proof.
  induction l as [|s l IH]; intros ks G Hnd.
  - cbn [fold_left List.map firstSeen grouped filter]. rewrite app_nil_r.
    apply map_ext_in. intros k Hk. apply existsb_eqb_In in Hk.
    now rewrite Hk, app_nil_r.
  - cbn [fold_left List.map firstSeen].
    rewrite mapGet_map.
    destruct (existsb (JS.eqb (SecretMatch.file s)) ks) eqn:E; cbv iota.
    + pose proof E as Hin. apply existsb_eqb_In in Hin.
      rewrite mapSet_map_in by assumption.
      rewrite (IH ks
                 (fun k =>
                    if JS.eqb k (SecretMatch.file s) then G (SecretMatch.file s) ++ [s]
                    else G k) Hnd).
      apply map_ext_in. intros k Hk. f_equal. unfold grouped. cbn [filter].
      destruct (JS.eqb k (SecretMatch.file s)) eqn:Ek.
      * apply eqb_eq in Ek. subst k. rewrite E.
        replace (JS.eqb (SecretMatch.file s) (SecretMatch.file s)) with true
          by (symmetry; now apply eqb_eq).
        now rewrite <- app_assoc.
      * replace (JS.eqb (SecretMatch.file s) k) with false; [reflexivity|].
        symmetry. apply eqb_neq. apply eqb_neq in Ek. congruence.
    + assert (~ In (SecretMatch.file s) ks) as Hout.
      { intros H. apply existsb_eqb_In in H. congruence. }
      rewrite mapSet_map_new by exact E.
      assert (List.map (fun k => (k, G k)) ks
              ++ [(SecretMatch.file s, [] ++ [s])]
              = List.map
                  (fun k =>
                     (k, if JS.eqb k (SecretMatch.file s) then [s] else G k))
                  (ks ++ [SecretMatch.file s])) as ->.
      { rewrite map_app. cbn [List.map app].
        replace (JS.eqb (SecretMatch.file s) (SecretMatch.file s)) with true
          by (symmetry; now apply eqb_eq).
        f_equal. apply map_ext_in. intros k Hk.
        replace (JS.eqb k (SecretMatch.file s)) with false; [reflexivity|].
        symmetry. apply eqb_neq. intros ->. contradiction. }
      rewrite IH.
      * rewrite <- app_assoc. cbn [app]. apply map_ext_in. intros k Hk.
        f_equal. unfold grouped. cbn [filter].
        rewrite existsb_app. cbn [existsb]. rewrite orb_false_r.
        destruct (JS.eqb k (SecretMatch.file s)) eqn:Ek.
        -- apply eqb_eq in Ek. subst k. rewrite E.
           replace (JS.eqb (SecretMatch.file s) (SecretMatch.file s)) with true
             by (symmetry; now apply eqb_eq).
           reflexivity.
        -- rewrite orb_false_r.
           replace (JS.eqb (SecretMatch.file s) k) with false; [reflexivity|].
           symmetry. apply eqb_neq. apply eqb_neq in Ek. congruence.
      * apply NoDup_app; [exact Hnd | repeat constructor; intros [] |].
        intros x Hx [<-|[]]. contradiction.
Qed.

(** X10.  [printResults] prints each secret once, under its file: the files
    come in the order of their first secret, and the secrets of a file in
    the order they were found. *)
Theorem byFile_groups :
  forall secretsFound : list SecretMatch.t,
    byFile secretsFound
    = List.map (fun f => (f, grouped secretsFound f))
        (firstSeen [] (List.map SecretMatch.file secretsFound)).
Proof.
  intros secretsFound.
  exact (byFile_from secretsFound [] (fun _ => []) (NoDup_nil _)).
Qed.

End ReportSpec.

(** ** The files the formatter runs on *)

Module FilesSpec.
Import Format JSFacts.

(** *** Ignored paths *)

Lemma split_concat (sep : char) (a b : jsstring) :
  split sep (a ++ sep :: b) = split sep a ++ split sep b.
Proof.
  induction a as [|x a IH].
  - cbn. now rewrite N.eqb_refl.
  - cbn [app split]. rewrite IH.
    destruct (x =? sep)%N; [reflexivity|].
    destruct (split sep a) as [|h t] eqn:E;
      [now destruct (split_not_nil _ _ E) | reflexivity].
Qed.

Lemma endsWith_app (a b p : jsstring) :
  endsWith b p = true -> endsWith (a ++ b) p = true.
Proof.
  unfold endsWith. rewrite !startsWith_spec, rev_app_distr.
  intros [rest ->]. exists (rest ++ rev a). now rewrite app_assoc.
Qed.

(** X22.  What lies below an ignored directory is ignored, and so is a path whose
    last part is ignored, wherever it lies. *)
Theorem shouldIgnore_inherited :
  forall a b : jsstring,
    existsb (fun part => arrayIncludes IGNORED_DIRS part) (split (ch "/") a)
    = true
    \/ shouldIgnore b = true ->
    shouldIgnore (a ++ str "/" ++ b) = true.
Proof.
  intros a b H. unfold shouldIgnore.
  change (a ++ str "/" ++ b) with (a ++ ch "/" :: b).
  rewrite split_concat, existsb_app.
  destruct H as [H|H]; [rewrite H; reflexivity|].
  unfold shouldIgnore in H. apply orb_true_iff in H.
  destruct H as [H|H]; [rewrite H, orb_true_r; reflexivity|].
  apply orb_true_iff. right.
  apply existsb_exists in H. destruct H as [ignored [Hin Hends]].
  apply existsb_exists. exists ignored. split; [exact Hin|].
  change (a ++ ch "/" :: b) with (a ++ [ch "/"] ++ b).
  rewrite app_assoc. now apply endsWith_app.
Qed.

Lemma shouldIgnore_inherited_witness :
  shouldIgnore (str "zed/node_modules" ++ str "/" ++ str "x/settings.json")
  = true.
Proof.
  apply (shouldIgnore_inherited (str "zed/node_modules")
           (str "x/settings.json")).
  left. vm_compute. reflexivity.
Defined.

(** *** The files that are formatted *)

Lemma Dirent_induction (P : Dirent -> Prop) :
  P FileEntry -> P OtherEntry -> P (DirectoryEntry None) ->
  (forall es, Forall (fun e => P (snd e)) es -> P (DirectoryEntry (Some es))) ->
  forall entry, P entry.
Proof.
  intros HFile HOther HNone HSome.
  fix IH 1. intros [|[es|]|]; try assumption.
  apply HSome.
  induction es as [|[e child] es IHes]; constructor.
  - exact (IH child).
  - exact IHes.
Qed.

Section Walk.
Context {RT : Runtime}.
Variable import_meta_dir : jsstring.

(** The loop inside [visit] is the loop of [walk]. *)
Lemma visit_entries (fullPath name : jsstring)
  (es : list (jsstring * Dirent)) (files : list jsstring) :
  visit import_meta_dir fullPath name (DirectoryEntry (Some es)) files
  = walkEntries import_meta_dir fullPath es files.
Proof.
  cbn [visit]. revert files.
  induction es as [|[e child] es IH]; intros files; [reflexivity|].
  cbn [walkEntries].
  destruct (shouldIgnore _); [apply IH|].
  destruct (visit import_meta_dir (path_join fullPath e) e child files);
    [apply IH | reflexivity].
Qed.

Lemma walkEntries_listed (currentDir : jsstring)
  (es : list (jsstring * Dirent)) :
  Forall
    (fun e =>
       forall dir name files files',
         shouldIgnore
           (path_relative (ROOT_DIR import_meta_dir) (path_join dir name))
         = false ->
         visit import_meta_dir (path_join dir name) name (snd e) files
         = Some files' ->
         Forall (Listed import_meta_dir) files -> Forall (Listed import_meta_dir) files')
    es ->
  forall files files',
    walkEntries import_meta_dir currentDir es files = Some files' ->
    Forall (Listed import_meta_dir) files -> Forall (Listed import_meta_dir) files'.
Proof.
  induction 1 as [|[name entry] es Hentry _ IH]; intros files files'.
  - intros H. now injection H as <-.
  - cbn [walkEntries].
    destruct (shouldIgnore
                (path_relative (ROOT_DIR import_meta_dir)
                   (path_join currentDir name))) eqn:Hig; [apply IH|].
    destruct (visit import_meta_dir (path_join currentDir name) name entry
                files) as [files1|] eqn:Hv; [|discriminate].
    intros H Hfiles. apply (IH _ _ H).
    cbn [snd] in Hentry. now apply (Hentry currentDir name files files1).
Qed.

Lemma visit_listed (entry : Dirent) :
  forall dir name files files',
    shouldIgnore
      (path_relative (ROOT_DIR import_meta_dir) (path_join dir name))
    = false ->
    visit import_meta_dir (path_join dir name) name entry files = Some files' ->
    Forall (Listed import_meta_dir) files -> Forall (Listed import_meta_dir) files'.
Proof.
  induction entry as [| | |es IH] using Dirent_induction;
    intros dir name files files' Hig.
  - cbn [visit].
    destruct (arrayIncludes SUPPORTED_EXTENSIONS
                (toLowerCase (path_extname name))) eqn:Hext;
      intros H; injection H as <-; [|auto].
    intros Hfiles. apply Forall_app. split; [exact Hfiles|].
    constructor; [|constructor]. split; [exact Hig|]. now exists dir, name.
  - cbn [visit]. intros H. now injection H as <-.
  - discriminate.
  - rewrite visit_entries. now apply walkEntries_listed.
Qed.

End Walk.

(** X23.  Every path [getAllFiles] returns is one the script does not ignore, and
    is made of a directory and a name with a supported extension. *)
Theorem getAllFiles_sound :
  forall (RT : Runtime) (import_meta_dir dir : jsstring)
         (entries : option (list (jsstring * Dirent))) (files : list jsstring),
    getAllFiles import_meta_dir dir entries = Some files ->
    Forall (Listed import_meta_dir) files.
Proof.
  intros RT imd dir [es|] files; [|discriminate]. cbn [getAllFiles].
  intros H. apply (walkEntries_listed imd dir es) with (files := []) (2 := H);
    [|constructor].
  apply Forall_forall. intros e _ d name fs fs'. apply visit_listed.
Qed.

Lemma getAllFiles_sound_witness :
  getAllFiles (RT := Demo.runtime) Demo.scriptDir (str "/repo")
    (Some Demo.configTree)
  = Some [str "/repo/zed/settings.json"; str "/repo/app.YAML"]
  /\ Forall (Listed (RT := Demo.runtime) Demo.scriptDir)
       [str "/repo/zed/settings.json"; str "/repo/app.YAML"].
Proof.
  split; [vm_compute; reflexivity|].
  apply (getAllFiles_sound Demo.runtime Demo.scriptDir (str "/repo")
           (Some Demo.configTree)).
  vm_compute. reflexivity.
Defined.

(** *** A run of the formatter *)

Section Run.
Context {NUM : JSON.Numbers} {RT : Runtime} {DISK : Disk}.
Variable import_meta_dir : jsstring.

Lemma formatFile_check (d : disk) (filePath : jsstring) :
  fst (formatFile import_meta_dir true d filePath) = d
  /\ status (snd (formatFile import_meta_dir true d filePath))
     <> status_formatted
  /\ (status (snd (formatFile import_meta_dir true d filePath))
      = status_unchanged
      <-> AlreadyFormatted d filePath).
Proof.
  unfold formatFile, AlreadyFormatted.
  destruct (readFile d filePath) as [content|msg].
  - destruct (JS.eqb content (formatContent content (path_extname filePath)))
      eqn:E; cbn [fst snd status].
    + apply eqb_eq in E. split; [reflexivity|]. split; [discriminate|].
      split; [|reflexivity].
      intros _. exists content. split; [reflexivity | now symmetry].
    + apply eqb_neq in E. split; [reflexivity|]. split; [discriminate|].
      split; [discriminate|].
      intros [c [Hc Hf]]. injection Hc as <-. symmetry in Hf. contradiction.
  - cbn [fst snd status]. split; [reflexivity|]. split; [discriminate|].
    split; [discriminate|]. intros [c [Hc _]]. discriminate.
Qed.

Lemma formatFiles_check (files : list jsstring) :
  forall d results,
    exists out,
      formatFiles import_meta_dir true d files results = (d, results ++ out)
      /\ Forall (fun r => status r <> status_formatted) out
      /\ (Forall (fun r => status r = status_unchanged) out
          <-> Forall (AlreadyFormatted d) files).
Proof.
  induction files as [|f files IH]; intros d results.
  - exists []. cbn. rewrite app_nil_r. repeat split; constructor.
  - cbn [formatFiles].
    destruct (formatFile_check d f) as [Hd [Hnf Hun]].
    destruct (formatFile import_meta_dir true d f) as [d' r].
    cbn [fst snd] in *. subst d'.
    destruct (IH d (results ++ [r])) as [out [Hout [Hall Hiff]]].
    exists (r :: out). rewrite Hout, <- app_assoc. split; [reflexivity|].
    split; [now constructor|].
    split; intros H; inversion H; subst; constructor; tauto.
Qed.

Lemma statusIs_spec (s : Status) (r : FormatResult) :
  statusIs s r = true <-> status r = s.
Proof.
  unfold statusIs. destruct s, (status r); split; congruence.
Qed.

Lemma filter_status_nil (s : Status) (out : list FormatResult) :
  filter (statusIs s) out = [] <-> Forall (fun r => status r <> s) out.
Proof.
  induction out as [|r out IH]; cbn [filter].
  - split; [constructor | reflexivity].
  - destruct (statusIs s r) eqn:E.
    + apply statusIs_spec in E. split; [discriminate|].
      intros H. inversion H. contradiction.
    + rewrite IH. split; intros H.
      * constructor; [|exact H]. intros Hs. apply statusIs_spec in Hs.
        congruence.
      * now inversion H.
Qed.

(** The loop of [main] in format mode, when no file ends in an error:
    every file holds its formatted text, and no other file has changed. *)
Lemma formatFiles_format (LAWS : DiskLaws DISK) (files : list jsstring) :
  forall d results d' out,
    NoDup files ->
    formatFiles import_meta_dir false d files results = (d', out) ->
    exists new,
      out = results ++ new
      /\ List.length new = List.length files
      /\ (Forall (fun r => status r <> status_error) new ->
          (forall f,
              In f files ->
              exists content,
                readFile d f = Returns content
                /\ readFile d' f
                   = Returns (formatContent content (path_extname f)))
          /\ forall q, ~ In q files -> readFile d' q = readFile d q).
Proof.
  induction files as [|f files IH]; intros d results d' out Hnd.
  - cbn [formatFiles]. intros H. injection H as <- <-. exists [].
    rewrite app_nil_r. split; [reflexivity|]. split; [reflexivity|].
    intros _. split; [intros f [] | reflexivity].
  - inversion Hnd as [|? ? Hf Hnd']; subst. cbn [formatFiles].
    destruct (formatFile import_meta_dir false d f) as [d1 r] eqn:Hfile.
    intros Hrest.
    destruct (IH _ _ _ _ Hnd' Hrest) as [new [Hout [Hlen Hpost]]].
    exists (r :: new). rewrite Hout, <- app_assoc.
    split; [reflexivity|]. split; [cbn; now rewrite Hlen|].
    intros Hall. inversion Hall as [|? ? Hr Hnew]; subst.
    destruct (Hpost Hnew) as [Hfiles Hother].
    unfold formatFile in Hfile.
    destruct (readFile d f) as [content|msg] eqn:Hread.
    + destruct (JS.eqb content (formatContent content (path_extname f)))
        eqn:E.
      * injection Hfile as <- <-. apply eqb_eq in E. split.
        -- intros g [<-|Hg]; [|now apply Hfiles].
           exists content. split; [exact Hread|].
           now rewrite (Hother f Hf), Hread, <- E.
        -- intros q Hq. apply Hother. intros Hin. apply Hq. now right.
      * cbn [andb] in Hfile.
        destruct (writeFile d f (formatContent content (path_extname f)))
          as [d2 [[]|msg]] eqn:Hwrite; injection Hfile as <- <-.
        -- split.
           ++ intros g [<-|Hg].
              ** exists content. split; [exact Hread|].
                 rewrite (Hother f Hf).
                 exact (read_written _ _ _ _ Hwrite).
              ** destruct (Hfiles g Hg) as [c [Hc Hd']].
                 exists c. split; [|exact Hd'].
                 rewrite <- Hc. symmetry.
                 apply (read_other _ _ _ _ _ Hwrite). intros ->. contradiction.
           ++ intros q Hq. rewrite Hother by (intros Hin; apply Hq; now right).
              apply (read_other _ _ _ _ _ Hwrite). intros ->. apply Hq. now left.
        -- cbn [status] in Hr. congruence.
    + injection Hfile as <- <-. cbn [status] in Hr. congruence.
Qed.

End Run.

(** X24.  In check mode the formatter writes nothing, and it exits with 0 exactly
    when the files could be listed and every one of them is read and holds
    the text the formatter gives for it; otherwise it exits with 1. *)
Theorem check_mode_verdict :
  forall (NUM : JSON.Numbers) (RT : Runtime) (DISK : Disk)
         (import_meta_dir : jsstring)
         (entries : option (list (jsstring * Dirent))) (d : disk),
    fst (fst (main import_meta_dir true entries d)) = d
    /\ (snd (main import_meta_dir true entries d) = 0%nat
        \/ snd (main import_meta_dir true entries d) = 1%nat)
    /\ (snd (main import_meta_dir true entries d) = 0%nat
        <-> exists files,
              getAllFiles import_meta_dir (ROOT_DIR import_meta_dir) entries
              = Some files
              /\ Forall (AlreadyFormatted d) files).
Proof.
  intros NUM RT DISK imd entries d. unfold main.
  destruct (getAllFiles imd (ROOT_DIR imd) entries) as [files|].
  - destruct (List.length files =? 0)%nat eqn:E.
    + apply Nat.eqb_eq in E. cbn [fst snd].
      split; [reflexivity|]. split; [now left|]. split; [|reflexivity].
      intros _. exists files. split; [reflexivity|].
      destruct files; [constructor | discriminate].
    + destruct (formatFiles_check imd files d []) as [out [Hout [Hnf Hun]]].
      rewrite Hout. cbn [app fst snd andb].
      apply filter_status_nil in Hnf. rewrite Hnf. cbn [List.length orb].
      change (0 <? 0)%nat with false. cbn [orb].
      split; [reflexivity|].
      destruct (filter (statusIs status_error) out) as [|r0 errs] eqn:Herr.
      * cbn [List.length]. change (0 <? 0)%nat with false. cbv iota.
        split; [now left|]. split; [|reflexivity].
        intros _. exists files. split; [reflexivity|].
        apply Hun. apply filter_status_nil in Herr.
        apply filter_status_nil in Hnf.
        rewrite Forall_forall in *. intros r Hr.
        specialize (Herr r Hr). specialize (Hnf r Hr).
        destruct (status r); congruence.
      * cbn [List.length]. change (0 <? S (List.length errs))%nat with true.
        cbv iota. split; [now right|]. split; [discriminate|].
        intros [files' [Hfiles Hall]]. injection Hfiles as <-.
        apply Hun in Hall.
        assert (In r0 (filter (statusIs status_error) out)) as Hin
            by (rewrite Herr; now left).
        apply filter_In in Hin. destruct Hin as [Hin Hs].
        apply statusIs_spec in Hs. rewrite Forall_forall in Hall.
        specialize (Hall r0 Hin). congruence.
  - cbn [fst snd]. split; [reflexivity|]. split; [now right|].
    split; [discriminate|]. intros [files [H _]]. discriminate.
Qed.

(** X25.  In format mode the exit code is 0 whenever the files could be listed,
    one result is reported for each file, and when no result is an error
    every file holds the text the formatter gives for what it held. *)
Theorem format_mode_result :
  forall (NUM : JSON.Numbers) (RT : Runtime) (DISK : Disk)
         (LAWS : DiskLaws DISK) (import_meta_dir : jsstring)
         (entries : option (list (jsstring * Dirent))) (d : disk)
         (files : list jsstring),
    getAllFiles import_meta_dir (ROOT_DIR import_meta_dir) entries = Some files ->
    NoDup files ->
    snd (main import_meta_dir false entries d) = 0%nat
    /\ List.length (snd (fst (main import_meta_dir false entries d)))
       = List.length files
    /\ (Forall (fun r => status r <> status_error)
          (snd (fst (main import_meta_dir false entries d))) ->
        forall f,
          In f files ->
          exists content,
            readFile d f = Returns content
            /\ readFile (fst (fst (main import_meta_dir false entries d))) f
               = Returns (formatContent content (path_extname f))).
Proof.
  intros NUM RT DISK LAWS imd entries d files Hfiles Hnd.
  unfold main. rewrite Hfiles.
  destruct (List.length files =? 0)%nat eqn:E.
  - apply Nat.eqb_eq in E. destruct files; [|discriminate].
    cbn [fst snd]. repeat split. intros _ f [].
  - destruct (formatFiles imd false d files []) as [d' out] eqn:Hrun.
    destruct (formatFiles_format imd LAWS files _ _ _ _ Hnd Hrun)
      as [new [-> [Hlen Hpost]]].
    cbn [fst snd andb app]. split; [reflexivity|]. split; [exact Hlen|].
    intros Hall. now apply Hpost.
Qed.

Lemma memory_laws : DiskLaws Demo.memory.
Proof.
  split.
  - intros d p t d' H. injection H as <-. cbn.
    now replace (JS.eqb p p) with true by (symmetry; now apply eqb_eq).
  - intros d p t d' q H Hq. injection H as <-. cbn.
    now replace (JS.eqb q p) with false by (symmetry; now apply eqb_neq).
Qed.

Lemma format_mode_result_witness :
  snd (main (NUM := Demo.integers) (RT := Demo.runtime) (DISK := Demo.memory)
         Demo.scriptDir false (Some Demo.configTree) Demo.configFiles)
  = 0%nat
  /\ readFile
       (fst (fst (main (NUM := Demo.integers) (RT := Demo.runtime)
                    (DISK := Demo.memory) Demo.scriptDir false
                    (Some Demo.configTree) Demo.configFiles)))
       (str "/repo/app.YAML")
     = Returns (str "a: 1" ++ [LF; LF] ++ str "b: 2" ++ [LF]).
Proof.
  split.
  - refine (proj1 (format_mode_result Demo.integers Demo.runtime Demo.memory
                     memory_laws Demo.scriptDir (Some Demo.configTree)
                     Demo.configFiles
                     [str "/repo/zed/settings.json"; str "/repo/app.YAML"]
                     _ _)).
    + vm_compute. reflexivity.
    + constructor; [|constructor; [intros []|constructor]].
      intros [H|[]]. vm_compute in H. discriminate.
  - vm_compute. reflexivity.
Defined.

End FilesSpec.

(** ** The built-in globs *)

Module GlobSpec.
Import Regex Secrets JSFacts.

(** The matcher finds only what the expression matches. *)
Lemma bt_sound (r : regex) :
  forall pos s k e,
    bt r pos s k = Some e ->
    exists w rest,
      s = w ++ rest /\ Den r pos w rest
      /\ k (pos + List.length w)%nat rest = Some e.
Proof.
  induction r as [|p|a IHa b IHb|a IHa b IHb|a IHa| |]; intros pos s k e;
    cbn [bt].
  - intros H. exists [], s. rewrite Nat.add_0_r.
    repeat split; [constructor | exact H].
  - destruct s as [|c s']; [discriminate|].
    destruct (p c) eqn:Hp; [|discriminate].
    intros H. exists [c], s'. cbn [List.length]. rewrite Nat.add_1_r.
    repeat split; [now constructor | exact H].
  - intros H. apply IHa in H. destruct H as [w1 [rest1 [-> [Ha H]]]].
    apply IHb in H. destruct H as [w2 [rest [-> [Hb H]]]].
    exists (w1 ++ w2), rest. rewrite <- app_assoc, length_app, Nat.add_assoc.
    repeat split; [now constructor | exact H].
  - destruct (bt a pos s k) as [e'|] eqn:Ea.
    + intros H. injection H as <-. apply IHa in Ea.
      destruct Ea as [w [rest [-> [Ha H]]]]. exists w, rest.
      repeat split; [now apply den_alt_l | exact H].
    + intros H. apply IHb in H.
      destruct H as [w [rest [-> [Hb H]]]]. exists w, rest.
      repeat split; [now apply den_alt_r | exact H].
  - generalize (List.length s) as n. intros n. revert pos s e.
    induction n as [|n IHn]; intros pos s e.
    + intros H. exists [], s. rewrite Nat.add_0_r.
      repeat split; [constructor | exact H].
    + match goal with
      | |- context [bt a pos s ?k'] => destruct (bt a pos s k') as [e'|] eqn:Ea
      end.
      * intros H. injection H as <-. apply IHa in Ea.
        destruct Ea as [w1 [rest1 [-> [Ha H]]]].
        destruct (pos <? pos + List.length w1)%nat; [|discriminate].
        apply IHn in H. destruct H as [w2 [rest [-> [Hs H]]]].
        exists (w1 ++ w2), rest.
        rewrite <- app_assoc, length_app, Nat.add_assoc.
        repeat split; [now apply den_star_cons | exact H].
      * intros H. exists [], s. rewrite Nat.add_0_r.
        repeat split; [constructor | exact H].
  - destruct (pos =? 0)%nat eqn:E; [|discriminate].
    apply Nat.eqb_eq in E. subst pos. intros H. exists [], s.
    repeat split; [constructor | exact H].
  - destruct s; [|discriminate]. intros H. exists [], [].
    rewrite Nat.add_0_r. repeat split; [constructor | exact H].
Qed.

Lemma Den_chars (cs : jsstring) :
  forall pos w rest,
    Den (seq (List.map (fun c => Chr (N.eqb c)) cs)) pos w rest -> w = cs.
Proof.
  induction cs as [|c [|d cs] IH]; intros pos w rest H.
  - now inversion H.
  - cbn in H. inversion H as [|? x ? ? Hx| | | | | | |]; subst.
    apply N.eqb_eq in Hx. now subst x.
  - change (seq (List.map (fun c => Chr (N.eqb c)) (c :: d :: cs)))
      with (Seq (Chr (N.eqb c))
              (seq (List.map (fun c => Chr (N.eqb c)) (d :: cs)))) in H.
    inversion H as [| |? ? ? w1 w2 ? Ha Hb| | | | | |]; subst.
    inversion Ha as [|? x ? ? Hx| | | | | | |]; subst.
    apply N.eqb_eq in Hx. subst x. apply IH in Hb. now subst w2.
Qed.

Lemma Den_lit (name : string) (pos : nat) (w rest : jsstring) :
  Den (lit name) pos w rest -> w = str name.
Proof. apply Den_chars. Qed.

(** What the expression of a glob [**/name/**] takes holds [/name/]. *)
Lemma Den_between (name : string) (pos : nat) (w rest : jsstring) :
  Den (seq [Star dot; lit "/"; lit name; lit "/"; Star dot]) pos w rest ->
  exists a b, w = a ++ str "/" ++ str name ++ str "/" ++ b.
Proof.
  intros H.
  change (seq [Star dot; lit "/"; lit name; lit "/"; Star dot])
    with (Seq (Star dot)
            (Seq (lit "/") (Seq (lit name) (Seq (lit "/") (Star dot))))) in H.
  inversion H as [| |? ? ? a w2 ? _ H2| | | | | |]; subst.
  inversion H2 as [| |? ? ? s1 w3 ? Hs1 H3| | | | | |]; subst.
  inversion H3 as [| |? ? ? n1 w4 ? Hn1 H4| | | | | |]; subst.
  inversion H4 as [| |? ? ? s2 b ? Hs2 _| | | | | |]; subst.
  apply Den_lit in Hs1, Hn1, Hs2. subst. now exists a, b.
Qed.

Lemma Den_anchored (r : regex) (front back : regex) (pos : nat)
  (w rest : jsstring) :
  Den (seq [front; r; back]) pos w rest ->
  exists a m b pos' rest', w = a ++ m ++ b /\ Den r pos' m rest'.
Proof.
  intros H.
  change (seq [front; r; back]) with (Seq front (Seq r back)) in H.
  inversion H as [| |? ? ? a w2 ? _ H2| | | | | |]; subst.
  inversion H2 as [| |? ? ? m b ? Hm _| | | | | |]; subst.
  now exists a, m, b, (pos + List.length a)%nat, (b ++ rest).
Qed.

Lemma Den_globstar (name : string) (pos : nat) (w rest : jsstring) :
  Den (Demo.globstarDirRe name) pos w rest ->
  exists a b, w = a ++ str "/" ++ str name ++ str "/" ++ b.
Proof.
  unfold Demo.globstarDirRe. cbv zeta. intros H.
  assert (forall front back,
             Den (seq [front;
                       seq [Star dot; lit "/"; lit name; lit "/"; Star dot];
                       back]) pos w rest ->
             exists a b, w = a ++ str "/" ++ str name ++ str "/" ++ b) as Hone.
  { intros front back Hd. apply Den_anchored in Hd.
    destruct Hd as [a [m [b [pos' [rest' [-> Hm]]]]]].
    apply Den_between in Hm. destruct Hm as [a' [b' ->]].
    exists (a ++ a'), (b' ++ b). now rewrite <- !app_assoc. }
  inversion H as [| | |? ? ? ? ? H1|? ? ? ? ? H1| | | |]; subst;
    [now apply Hone in H1|].
  inversion H1 as [| | |? ? ? ? ? H2|? ? ? ? ? H2| | | |]; subst;
    [now apply Hone in H2|].
  inversion H2 as [| | |? ? ? ? ? H3|? ? ? ? ? H3| | | |]; subst;
    now apply Hone in H3.
Qed.

Lemma matchAt_sound (r : regex) (content : jsstring) (i : nat)
  (m : nat * jsstring) :
  matchAt r content i = Some m ->
  exists w rest, skipn i content = w ++ rest /\ Den r i w rest.
Proof.
  unfold matchAt.
  destruct (bt r i (skipn i content) (fun e _ => Some e)) as [e|] eqn:E;
    [|discriminate].
  intros _. apply bt_sound in E. destruct E as [w [rest [Hs [Hd _]]]].
  now exists w, rest.
Qed.

Lemma searchFrom_sound (r : regex) (content : jsstring) :
  forall tries i m,
    searchFrom r content tries i = Some m ->
    exists j w rest, skipn j content = w ++ rest /\ Den r j w rest.
Proof.
  induction tries as [|tries IH]; intros i m; cbn [searchFrom];
    destruct (matchAt r content i) as [m'|] eqn:E;
    try discriminate.
  - intros _. apply matchAt_sound in E. destruct E as [w [rest H]].
    now exists i, w, rest.
  - intros _. apply matchAt_sound in E. destruct E as [w [rest H]].
    now exists i, w, rest.
  - apply IH.
Qed.

Lemma test_globstar (name : string) (path : jsstring) :
  test (exec (Demo.globstarDirRe name)) path = true ->
  includes path (str "/" ++ str name ++ str "/") = true.
Proof.
  unfold test, exec.
  destruct (List.length path <? 0)%nat; [discriminate|].
  destruct (searchFrom _ path _ 0) as [m|] eqn:E; [|discriminate].
  intros _. apply searchFrom_sound in E.
  destruct E as [j [w [rest [Hs Hd]]]].
  apply Den_globstar in Hd. destruct Hd as [a [b ->]].
  apply includes_spec. exists (firstn j path ++ a), (b ++ rest).
  rewrite <- (firstn_skipn j path) at 1. rewrite Hs.
  now rewrite <- !app_assoc.
Qed.

(** X8.  The three globs of the built-in configuration match a path only below
    a parent: the path, relative to the root, must hold the name between
    two slashes.  So [dist/out.json] and [node_modules/x/package.json], at
    the top of the repository, are not ignored. *)
Theorem builtin_globs_need_a_parent :
  forall path : jsstring,
    (includes (replaceAll [92%N] (str "/") path) (str "/node_modules/") = false ->
     minimatch (RT := Demo.runtime) path (str "**/node_modules/**")
     = Some false)
    /\ (includes (replaceAll [92%N] (str "/") path) (str "/.git/") = false ->
        minimatch (RT := Demo.runtime) path (str "**/.git/**") = Some false)
    /\ (includes (replaceAll [92%N] (str "/") path) (str "/dist/") = false ->
        minimatch (RT := Demo.runtime) path (str "**/dist/**") = Some false)
    /\ shouldIgnore (RT := Demo.runtime) Demo.scriptDir
         (str "/repo/dist/out.json") (ignorePatterns Demo.builtIn)
       = Some false
    /\ shouldIgnore (RT := Demo.runtime) Demo.scriptDir
         (str "/repo/node_modules/x/package.json")
         (ignorePatterns Demo.builtIn)
       = Some false.
Proof.
  intros path.
  assert (forall (glob name : string),
             RegExp_new (Runtime := Demo.runtime)
               (str "^"
                ++ replaceAll (str "?") (str ".")
                     (replaceAll (str "{{GLOBSTAR}}") (str ".*")
                        (replaceAll (str "*") (str "[^/]*")
                           (replaceAll (str "**") (str "{{GLOBSTAR}}")
                              (replaceAll (str ".") (str "\.")
                                 (replaceAll [92%N] (str "/") (str glob))))))
                ++ str "$|/"
                ++ replaceAll (str "?") (str ".")
                     (replaceAll (str "{{GLOBSTAR}}") (str ".*")
                        (replaceAll (str "*") (str "[^/]*")
                           (replaceAll (str "**") (str "{{GLOBSTAR}}")
                              (replaceAll (str ".") (str "\.")
                                 (replaceAll [92%N] (str "/") (str glob))))))
                ++ str "$|^"
                ++ replaceAll (str "?") (str ".")
                     (replaceAll (str "{{GLOBSTAR}}") (str ".*")
                        (replaceAll (str "*") (str "[^/]*")
                           (replaceAll (str "**") (str "{{GLOBSTAR}}")
                              (replaceAll (str ".") (str "\.")
                                 (replaceAll [92%N] (str "/") (str glob))))))
                ++ str "/|/"
                ++ replaceAll (str "?") (str ".")
                     (replaceAll (str "{{GLOBSTAR}}") (str ".*")
                        (replaceAll (str "*") (str "[^/]*")
                           (replaceAll (str "**") (str "{{GLOBSTAR}}")
                              (replaceAll (str ".") (str "\.")
                                 (replaceAll [92%N] (str "/") (str glob))))))
                ++ str "/")
             = Some (exec (Demo.globstarDirRe name)) ->
             includes (replaceAll [92%N] (str "/") path)
               (str "/" ++ str name ++ str "/") = false ->
             minimatch (RT := Demo.runtime) path (str glob) = Some false)
    as Hglob.
  { intros glob name Hnew Hno. unfold minimatch. rewrite Hnew. f_equal.
    apply not_true_iff_false. intros Ht. apply test_globstar in Ht.
    congruence. }
  split.
  { apply (Hglob "**/node_modules/**" "node_modules")%string.
    vm_compute. reflexivity. }
  split.
  { apply (Hglob "**/.git/**" ".git")%string. vm_compute. reflexivity. }
  split.
  { apply (Hglob "**/dist/**" "dist")%string. vm_compute. reflexivity. }
  split; vm_compute; reflexivity.
Qed.

Lemma builtin_globs_need_a_parent_witness :
  minimatch (RT := Demo.runtime) (str "dist/out.json") (str "**/dist/**")
  = Some false.
Proof.
  refine (proj1 (proj2 (proj2
                          (builtin_globs_need_a_parent (str "dist/out.json"))))
            _).
  vm_compute. reflexivity.
Defined.

End GlobSpec.
